(** * Forwarder resolution and log/event ingestion of the SecOps wrapper

    A shallow embedding of [src/secops/chronicle/log_ingest.py]: the forwarder
    ID codec, the forwarder directory (list / get / create / get-or-create
    with its cache slot), log ingestion and UDM event ingestion, together
    with the properties the specification states about them.

    Conventions.
    - A Python [str] is a Rocq [string], read as the UTF-8 bytes of the text.
      The only separators the code looks for are ASCII, and an ASCII byte
      never occurs inside a multi-byte UTF-8 sequence, so splitting and
      searching on bytes agrees with splitting and searching on code points.
      White space is read code point by code point: [str.strip] removes
      Unicode white space, which [PyStr.strip_nonempty] recognises by its
      UTF-8 bytes.
    - A raised exception is the [Raise] outcome of a [result].
    - The authenticated session is an external collaborator: a transition
      function on an abstract backend state that answers every request. *)

From Stdlib Require Import ZArith String Ascii Lia.
From stdpp Require Import base list strings gmap.

Local Open Scope string_scope.
Local Open Scope list_scope.
Local Open Scope Z_scope.

(* stdpp blocks the unfolding of string concatenation; the proofs below
   compute with concrete prefixes, so it is restored for this file. *)
Local Arguments String.append !_ _ / : simpl nomatch.

(** ** Exceptions and results *)

Inductive exn : Type :=
| ValueError (msg : string)
| APIError (msg : string)
| KeyError (key : string)
| TypeError
| AttributeError
| RecursionError
| InvalidJSONError.

Inductive result (A : Type) : Type :=
| Ok (a : A)
| Raise (e : exn).

Arguments Ok {A} a.
Arguments Raise {A} e.

(** ** Python string primitives *)

Module PyStr.

(** [c in s] for a one-character needle. *)
Fixpoint contains_char (c : ascii) (s : string) : bool :=
  match s with
  | EmptyString => false
  | String a r => if Ascii.eqb a c then true else contains_char c r
  end.

(** [s.split(c)] for a one-character separator: never returns the empty
    list, keeps empty segments. *)
Fixpoint split (c : ascii) (s : string) : list string :=
  match s with
  | EmptyString => [EmptyString]
  | String a r =>
      if Ascii.eqb a c then EmptyString :: split c r
      else match split c r with
           | h :: t => String a h :: t
           | [] => [String a EmptyString]
           end
  end.

(** Truthiness of a string: [bool(s)]. *)
Definition nonempty (s : string) : bool :=
  match s with EmptyString => false | String _ _ => true end.

(** Every character of [s] is [c]. *)
Fixpoint all_char (c : ascii) (s : string) : bool :=
  match s with
  | EmptyString => true
  | String a r => Ascii.eqb a c && all_char c r
  end.

(** [s.endswith(c)]. *)
Fixpoint ends_with_char (c : ascii) (s : string) : bool :=
  match s with
  | EmptyString => false
  | String a EmptyString => Ascii.eqb a c
  | String _ r => ends_with_char c r
  end.

(** [s.startswith(p)]. *)
Fixpoint starts_with (p s : string) : bool :=
  match p, s with
  | EmptyString, _ => true
  | String a p', String b s' => Ascii.eqb a b && starts_with p' s'
  | String _ _, EmptyString => false
  end.

(** [needle in hay] for strings. *)
Fixpoint contains (needle hay : string) : bool :=
  starts_with needle hay
  || match hay with
     | EmptyString => false
     | String _ r => contains needle r
     end.

(** [s.lower()] on the ASCII letters; the bytes of other characters are
    left as they are. *)
Definition lower_char (c : ascii) : ascii :=
  let n := nat_of_ascii c in
  if (65 <=? n)%nat && (n <=? 90)%nat then ascii_of_nat (n + 32) else c.

Fixpoint lower (s : string) : string :=
  match s with
  | EmptyString => EmptyString
  | String a r => String (lower_char a) (lower r)
  end.

(** ASCII white space as [str.strip] sees it. *)
Definition is_space (c : ascii) : bool :=
  let n := nat_of_ascii c in
  ((9 <=? n)%nat && (n <=? 13)%nat) || ((28 <=? n)%nat && (n <=? 32)%nat).

(** White space beyond ASCII, in the UTF-8 bytes of the text: U+0085 and
    U+00A0 (two bytes), U+1680, U+2000 to U+200A, U+2028, U+2029, U+202F,
    U+205F and U+3000 (three bytes). With [is_space] these are the
    characters [str.isspace] holds of, the ones [str.strip] removes. *)
Definition is_space2 (a b : ascii) : bool :=
  (nat_of_ascii a =? 194)%nat
  && ((nat_of_ascii b =? 133)%nat || (nat_of_ascii b =? 160)%nat).

Definition is_space3 (a b c : ascii) : bool :=
  let x := nat_of_ascii a in
  let y := nat_of_ascii b in
  let z := nat_of_ascii c in
  ((x =? 225) && (y =? 154) && (z =? 128)
   || (x =? 226) && (y =? 128)
      && (((128 <=? z) && (z <=? 138)) || (z =? 168) || (z =? 169) || (z =? 175))
   || (x =? 226) && (y =? 129) && (z =? 159)
   || (x =? 227) && (y =? 128) && (z =? 128))%nat.

(** [bool(s.strip())]: some character of [s] is not white space. *)
Fixpoint strip_nonempty (s : string) : bool :=
  match s with
  | EmptyString => false
  | String a r1 =>
      if is_space a then strip_nonempty r1
      else
        match r1 with
        | String b r2 =>
            if is_space2 a b then strip_nonempty r2
            else
              match r2 with
              | String c r3 =>
                  if is_space3 a b c then strip_nonempty r3 else true
              | EmptyString => true
              end
        | EmptyString => true
        end
  end.

(** The characters of [s], each as a one-character string: what iterating
    over a string yields. *)
Fixpoint chars (s : string) : list string :=
  match s with
  | EmptyString => []
  | String a r => String a EmptyString :: chars r
  end.

(** [s.replace(old, new)] for a non-empty [old]: leftmost non-overlapping
    occurrences. [skip] counts the characters of a match still to drop. *)
Fixpoint replace_go (old new : string) (skip : nat) (s : string) : string :=
  match s with
  | EmptyString => EmptyString
  | String a r =>
      match skip with
      | S k => replace_go old new k r
      | O =>
          if starts_with old s
          then new +:+ replace_go old new (Nat.pred (String.length old)) r
          else String a (replace_go old new O r)
      end
  end.

Definition replace (old new s : string) : string := replace_go old new O s.

(** [s.endswith(p)]. *)
Definition ends_with (p s : string) : bool :=
  starts_with (String.rev p) (String.rev s).

End PyStr.

(** ** Forwarder ID codec *)

Definition slash : ascii := "/"%char.

(** [extract_forwarder_id], lines 239-270. *)
Definition extract_forwarder_id (forwarder_name : string) : result string :=
  if negb (PyStr.nonempty forwarder_name) then
    Raise (ValueError "Forwarder name cannot be empty")
  else if negb (PyStr.contains_char slash forwarder_name) then
    Ok forwarder_name
  else
    let segments := PyStr.split slash forwarder_name in
    let segments := filter (λ s, PyStr.nonempty s = true) segments in
    match last segments with
    | None =>
        Raise (ValueError ("Invalid forwarder name format: " +:+ forwarder_name))
    | Some s => Ok s
    end.

(** [seg] is the last non-empty '/'-separated segment of [name]: it is a
    maximal slash-free block of [name], and only slashes follow it. *)
Definition is_last_segment (name seg : string) : Prop :=
  ∃ pre suf,
    name = pre +:+ seg +:+ suf
    ∧ seg ≠ ""
    ∧ PyStr.contains_char slash seg = false
    ∧ PyStr.all_char slash suf = true
    ∧ (pre = "" ∨ PyStr.ends_with_char slash pre = true).

(** *** Facts about the string primitives *)

Section PyStrFacts.

Implicit Types (s t : string) (c : ascii).

Lemma str_app_assoc s t u : (s +:+ t) +:+ u = s +:+ t +:+ u.
Proof. induction s as [|a s IH]; simpl; [done|by f_equal]. Qed.

Lemma str_app_nil_r s : s +:+ "" = s.
Proof. induction s as [|a s IH]; simpl; [done|by f_equal]. Qed.

Lemma split_not_nil c s : PyStr.split c s ≠ [].
Proof.
  destruct s as [|a r]; simpl; [done|].
  destruct (Ascii.eqb a c); [done|]. by destruct (PyStr.split c r).
Qed.

Lemma split_no_sep c s :
  PyStr.contains_char c s = false → PyStr.split c s = [s].
Proof.
  induction s as [|a r IH]; simpl; [done|].
  destruct (Ascii.eqb a c); [done|]. intros H. by rewrite (IH H).
Qed.

Lemma split_app_sep c s t :
  PyStr.split c (s +:+ String c t) = PyStr.split c s ++ PyStr.split c t.
Proof.
  induction s as [|a r IH]; simpl.
  - by rewrite Ascii.eqb_refl.
  - destruct (Ascii.eqb a c); [by rewrite IH|].
    rewrite IH. destruct (PyStr.split c r) eqn:E; [|done].
    by destruct (split_not_nil c r).
Qed.

Lemma split_all_sep c s :
  PyStr.all_char c s = true →
  PyStr.split c s = replicate (S (String.length s)) "".
Proof.
  induction s as [|a r IH]; simpl; [done|].
  intros [Ha Hr]%andb_prop. rewrite Ha. by rewrite (IH Hr).
Qed.

Lemma split_seg_then_seps c s t :
  PyStr.contains_char c s = false → PyStr.all_char c t = true →
  PyStr.split c (s +:+ t) = s :: replicate (String.length t) "".
Proof.
  intros Hs Ht. destruct t as [|a t]; simpl.
  - rewrite str_app_nil_r. by apply split_no_sep.
  - simpl in Ht. apply andb_prop in Ht as [Ha Ht].
    apply Ascii.eqb_eq in Ha as ->.
    rewrite split_app_sep, (split_no_sep _ _ Hs), (split_all_sep _ _ Ht).
    done.
Qed.

Lemma ends_with_char_snoc c s :
  PyStr.ends_with_char c s = true → ∃ s', s = s' +:+ String c "".
Proof.
  induction s as [|a r IH]; [done|].
  destruct r as [|b r'].
  - simpl. intros ->%Ascii.eqb_eq. by exists "".
  - intros H. destruct IH as [s' Hs']; [exact H|].
    exists (String a s'). simpl. by rewrite <-Hs'.
Qed.

Lemma ends_with_char_cons c a s :
  PyStr.ends_with_char c s = true → PyStr.ends_with_char c (String a s) = true.
Proof. by destruct s. Qed.

Lemma filter_nonempty_replicate n :
  filter (λ s, PyStr.nonempty s = true) (replicate n "") = [].
Proof. induction n as [|n IH]; [done|]. simpl. by rewrite filter_cons_False. Qed.

Lemma all_char_contains c s :
  s ≠ "" → PyStr.all_char c s = true → PyStr.contains_char c s = true.
Proof.
  destruct s as [|a r]; [done|]. simpl. intros _ [-> _]%andb_prop. done.
Qed.

Lemma nonempty_true s : s ≠ "" → PyStr.nonempty s = true.
Proof. by destruct s. Qed.

(** A name with a character other than the separator has a last segment. *)
Lemma last_segment_exists s :
  PyStr.all_char slash s = false → ∃ seg, is_last_segment s seg.
Proof.
  induction s as [|a r IH]; [done|].
  simpl. intros H.
  destruct (PyStr.all_char slash r) eqn:Hr.
  - rewrite andb_true_r in H.
    exists (String a ""), "", r. simpl. rewrite H. repeat split; auto.
  - destruct (IH eq_refl) as (seg & pre & suf & -> & Hne & Hns & Hsuf & Hpre).
    destruct Hpre as [->|Hpre].
    + destruct (Ascii.eqb a slash) eqn:Ha.
      * apply Ascii.eqb_eq in Ha as ->.
        exists seg, (String slash ""), suf. repeat split; auto.
      * exists (String a seg), "", suf. simpl. rewrite Ha. repeat split; auto.
    + exists seg, (String a pre), suf. repeat split; auto.
      right. by apply ends_with_char_cons.
Qed.

End PyStrFacts.

(** *** The codec's contract *)

Lemma extract_forwarder_id_last_segment name seg :
  is_last_segment name seg → extract_forwarder_id name = Ok seg.
Proof.
  intros (pre & suf & -> & Hne & Hns & Hsuf & Hpre).
  unfold extract_forwarder_id.
  assert (Hnonempty : PyStr.nonempty (pre +:+ seg +:+ suf) = true).
  { destruct pre; simpl; [|done]. destruct seg; [done|done]. }
  rewrite Hnonempty. simpl.
  assert (Hsplit : ∃ front,
    PyStr.split slash (pre +:+ seg +:+ suf)
    = front ++ seg :: replicate (String.length suf) "").
  { destruct Hpre as [->|[pre' ->]%ends_with_char_snoc].
    - exists []. simpl. by apply split_seg_then_seps.
    - exists (PyStr.split slash pre').
      rewrite str_app_assoc. simpl.
      rewrite split_app_sep. f_equal. by apply split_seg_then_seps. }
  destruct Hsplit as [front Hsplit].
  destruct (PyStr.contains_char slash (pre +:+ seg +:+ suf)) eqn:Hc; simpl.
  - rewrite Hsplit, filter_app, filter_cons_True by by apply nonempty_true.
    rewrite filter_nonempty_replicate. by rewrite last_snoc.
  - rewrite (split_no_sep _ _ Hc) in Hsplit.
    destruct front as [|x front].
    + simpl in Hsplit. by injection Hsplit as ->.
    + destruct front; discriminate Hsplit.
Qed.

(** C1. For a non-empty [name] without '/', [extract_forwarder_id] returns
    [name] unchanged; for a [name] containing '/', it returns the last
    non-empty '/'-separated segment; it raises [ValueError] (the spec's
    InvalidArgument) when [name] is empty and when nothing remains after
    dropping the empty segments, which is exactly when [name] consists of
    slashes only; in every other case it returns a value. *)
Theorem extract_forwarder_id_spec (name : string) :
  (name ≠ "" → PyStr.contains_char slash name = false →
     extract_forwarder_id name = Ok name)
  ∧ (PyStr.contains_char slash name = true →
     ∀ seg, is_last_segment name seg → extract_forwarder_id name = Ok seg)
  ∧ (name = "" →
     extract_forwarder_id name = Raise (ValueError "Forwarder name cannot be empty"))
  ∧ (name ≠ "" → PyStr.all_char slash name = true →
     filter (λ s, PyStr.nonempty s = true) (PyStr.split slash name) = []
     ∧ extract_forwarder_id name
       = Raise (ValueError ("Invalid forwarder name format: " +:+ name)))
  ∧ (PyStr.all_char slash name = false →
     ∃ seg, seg ≠ "" ∧ PyStr.contains_char slash seg = false
            ∧ extract_forwarder_id name = Ok seg).
Proof.
  repeat split.
  - intros Hne Hc. unfold extract_forwarder_id.
    by rewrite (nonempty_true _ Hne), Hc.
  - intros _ seg Hseg. by apply extract_forwarder_id_last_segment.
  - by intros ->.
  - rewrite (split_all_sep _ _ H0). apply filter_nonempty_replicate.
  - unfold extract_forwarder_id.
    rewrite (nonempty_true _ H), (all_char_contains _ _ H H0). simpl.
    by rewrite (split_all_sep _ _ H0), filter_nonempty_replicate.
  - intros Hall. destruct (last_segment_exists _ Hall) as [seg Hseg].
    exists seg. split_and!; [| |by apply extract_forwarder_id_last_segment];
      by destruct Hseg as (? & ? & ? & ? & ? & ? & ?).
Qed.

Lemma extract_forwarder_id_spec_witness :
  extract_forwarder_id "projects/123/locations/us/instances/abc/forwarders/xyz"
  = Ok "xyz".
Proof.
  refine (proj1 (proj2 (extract_forwarder_id_spec
    "projects/123/locations/us/instances/abc/forwarders/xyz")) eq_refl "xyz" _).
  exists "projects/123/locations/us/instances/abc/forwarders/", "".
  repeat split; [discriminate|by right].
Defined.

(** ** JSON values and the dynamic operations the code applies to them

    A decoded response body. Numbers are integers: none of the modelled
    code reads a fractional number. An object is an association list in
    insertion order; a lookup finds the first binding of a key. *)

#[local] Set Warnings "-register-all".

Inductive json : Type :=
| JNull
| JBool (b : bool)
| JNum (n : Z)
| JStr (s : string)
| JArr (l : list json)
| JObj (d : list (string * json)).

(** [bool(v)]. *)
Definition truthy (v : json) : bool :=
  match v with
  | JNull => false
  | JBool b => b
  | JNum n => negb (n =? 0)
  | JStr s => PyStr.nonempty s
  | JArr l => match l with [] => false | _ => true end
  | JObj d => match d with [] => false | _ => true end
  end.

Section Dict.

Context {V : Type}.

(** [d.get(k)] / [k in d] *)
Fixpoint dict_get (k : string) (d : list (string * V)) : option V :=
  match d with
  | [] => None
  | (k', v) :: r => if String.eqb k' k then Some v else dict_get k r
  end.

(** [d[k] = v]: an existing key keeps its position. *)
Fixpoint dict_set (k : string) (v : V) (d : list (string * V)) : list (string * V) :=
  match d with
  | [] => [(k, v)]
  | (k', v') :: r =>
      if String.eqb k' k then (k, v) :: r else (k', v') :: dict_set k v r
  end.

(** [d.pop(k)] on a dictionary that has the key. *)
Fixpoint dict_pop (k : string) (d : list (string * V)) : list (string * V) :=
  match d with
  | [] => []
  | (k', v) :: r =>
      if String.eqb k' k then dict_pop k r else (k', v) :: dict_pop k r
  end.

End Dict.

Definition is_JStr (k : string) (v : json) : bool :=
  match v with JStr s => String.eqb s k | _ => false end.

(** [k in v] for a string [k]. *)
Definition py_in (k : string) (v : json) : result bool :=
  match v with
  | JObj d => Ok (match dict_get k d with Some _ => true | None => false end)
  | JArr l => Ok (existsb (is_JStr k) l)
  | JStr s => Ok (PyStr.contains k s)
  | JNull | JBool _ | JNum _ => Raise TypeError
  end.

(** [v[k]] for a string [k]. *)
Definition py_getitem (v : json) (k : string) : result json :=
  match v with
  | JObj d => match dict_get k d with Some x => Ok x | None => Raise (KeyError k) end
  | _ => Raise TypeError
  end.

(** [v.get(k)] and [v.get(k, default)]: only a dictionary has [get]. *)
Definition py_get (v : json) (k : string) (default : json) : result json :=
  match v with
  | JObj d => Ok (match dict_get k d with Some x => x | None => default end)
  | _ => Raise AttributeError
  end.

(** The elements a [for] loop or [list.extend] draws from [v]. A string
    yields its characters, a dictionary its keys. *)
Definition py_iter (v : json) : result (list json) :=
  match v with
  | JArr l => Ok l
  | JStr s => Ok (JStr <$> PyStr.chars s)
  | JObj d => Ok ((λ kv, JStr kv.1) <$> d)
  | JNull | JBool _ | JNum _ => Raise TypeError
  end.

(** [xs.extend(ys)]: only a list has [extend]. *)
Definition py_extend (xs ys : json) : result json :=
  match xs with
  | JArr l =>
      match py_iter ys with
      | Ok l' => Ok (JArr (l ++ l'))
      | Raise e => Raise e
      end
  | _ => Raise AttributeError
  end.

(** [v == s] for a string [s]. *)
Definition py_eq_str (v : json) (s : string) : bool := is_JStr s v.

(** ** The session capability *)

Record response : Type := {
  status_code : Z;
  text : string;
  (** the decoded body, [None] when the body is not JSON *)
  json_body : option json;
}.

Inductive request : Type :=
| GET (url : string) (params : list (string * json))
| POST (url : string) (body : json).

(** [response.json()]: a body that does not decode raises a [ValueError]. *)
Definition JSONDecodeError : exn := ValueError "Expecting value".

Definition response_json (r : response) : result json :=
  match json_body r with
  | Some j => Ok j
  | None => Raise JSONDecodeError
  end.

Definition is_APIError {A} (r : result A) : bool :=
  match r with Raise (APIError _) => true | _ => false end.

Definition request_params (r : request) : list (string * json) :=
  match r with GET _ params => params | POST _ _ => [] end.

(** ** Client state *)

Record ChronicleClient : Type := {
  base_url : string;
  instance_id : string;
  project_id : string;
  region : string;
  customer_id : string;
  _default_forwarder_display_name : string;
  _cached_default_forwarder_id : option string;
}.

Definition set_cached_id (c : ChronicleClient) (v : option string) : ChronicleClient :=
  {| base_url := base_url c;
     instance_id := instance_id c;
     project_id := project_id c;
     region := region c;
     customer_id := customer_id c;
     _default_forwarder_display_name := _default_forwarder_display_name c;
     _cached_default_forwarder_id := v |}.

(** ** Objects of the caller: a store of mutable dictionaries and lists *)

Abbreviation loc := nat (only parsing).

Inductive pyval : Type :=
| PNone
| PBool (b : bool)
| PInt (n : Z)
| PStr (s : string)
| PRef (l : loc).

Inductive hobj : Type :=
| HDict (d : list (string * pyval))
| HList (l : list pyval).

(** ** Calendar time *)

Record civil : Type := {
  year : Z; month : Z; day : Z;
  hour : Z; minute : Z; second : Z; microsecond : Z;
}.

(** A [datetime]: its calendar and clock fields, the UTC offset its
    [tzinfo] gives for it in minutes east of UTC ([None] for a naive
    value, and for a [tzinfo] that gives no offset), and the identity of
    its [tzinfo] object ([None] for a naive value): two values share
    their [tzinfo] object exactly when their [zone]s name the same one.
    One object may give different offsets at different times, as a zone
    with daylight saving does. *)
Record datetime : Type := {
  fields : civil;
  tzinfo : option Z;
  zone : option nat;
}.

(** *** Formatting *)

Definition digit_char (n : Z) : ascii := ascii_of_nat (48 + Z.to_nat (n mod 10)).

(** [n] in decimal, zero-padded to [width] digits, most significant digit
    first: the ["%02d"], ["%04d"] and ["%06d"] of the formatting routines,
    on a field that fits its width. *)
Fixpoint pad (width : nat) (n : Z) : string :=
  match width with
  | O => EmptyString
  | S w => String (digit_char (n / 10 ^ Z.of_nat w)) (pad w (n mod 10 ^ Z.of_nat w))
  end.

Definition date_str (c : civil) : string :=
  pad 4 (year c) +:+ "-" +:+ pad 2 (month c) +:+ "-" +:+ pad 2 (day c).

Definition time_str (c : civil) : string :=
  pad 2 (hour c) +:+ ":" +:+ pad 2 (minute c) +:+ ":" +:+ pad 2 (second c).

(** The ["%Y"] of [strftime], which is the C library's: the year in
    decimal with no padding, so a year below 1000 has fewer than four
    digits. (A [datetime] has a year from 1 to 9999.) *)
Definition year_str (y : Z) : string :=
  if y <? 10 then pad 1 y
  else if y <? 100 then pad 2 y
  else if y <? 1000 then pad 3 y
  else pad 4 y.

(** [dt.strftime("%Y-%m-%dT%H:%M:%S.%fZ")]: the fields of [dt] as they
    are, whatever its [tzinfo]. *)
Definition strftime_wire (dt : datetime) : string :=
  let c := fields dt in
  year_str (year c) +:+ "-" +:+ pad 2 (month c) +:+ "-" +:+ pad 2 (day c)
  +:+ "T" +:+ time_str c +:+ "." +:+ pad 6 (microsecond c) +:+ "Z".

(** The UTC offset as [isoformat] prints it: [+HH:MM] or [-HH:MM]. *)
Definition offset_str (off : Z) : string :=
  (if off <? 0 then "-" else "+")
  +:+ pad 2 (Z.abs off / 60) +:+ ":" +:+ pad 2 (Z.abs off mod 60).

(** [dt.isoformat()]: the fraction is printed only when it is not zero,
    the offset only for an aware value. *)
Definition isoformat (dt : datetime) : string :=
  let c := fields dt in
  date_str c +:+ "T" +:+ time_str c
  +:+ (if microsecond c =? 0 then "" else "." +:+ pad 6 (microsecond c))
  +:+ match tzinfo dt with
      | Some off => offset_str off
      | None => ""
      end.

(** [dt.astimezone()] on a naive local time: the same wall clock, now
    carrying the local offset. *)
Definition astimezone (local_utcoffset : Z) (c : civil) : datetime :=
  {| fields := c; tzinfo := Some local_utcoffset; zone := Some 0%nat |}.

(** *** Reading the wire format back

    [parse_wire] accepts exactly the texts of the form
    [YYYY-MM-DDTHH:MM:SS.ffffffZ] and returns the fields they spell. *)

Definition digit_val (a : ascii) : option Z :=
  let n := nat_of_ascii a in
  if (48 <=? n)%nat && (n <=? 57)%nat then Some (Z.of_nat (n - 48)) else None.

Fixpoint read_digits (width : nat) (acc : Z) (s : string) : option (Z * string) :=
  match width with
  | O => Some (acc, s)
  | S w =>
      match s with
      | String a r =>
          match digit_val a with
          | Some d => read_digits w (acc * 10 + d) r
          | None => None
          end
      | EmptyString => None
      end
  end.

Definition expect (c : ascii) (s : string) : option string :=
  match s with
  | String a r => if Ascii.eqb a c then Some r else None
  | EmptyString => None
  end.

Definition parse_wire (s : string) : option civil :=
  '(y, s) ← read_digits 4 0 s;
  s ← expect "-" s;
  '(mo, s) ← read_digits 2 0 s;
  s ← expect "-" s;
  '(d, s) ← read_digits 2 0 s;
  s ← expect "T" s;
  '(h, s) ← read_digits 2 0 s;
  s ← expect ":" s;
  '(mi, s) ← read_digits 2 0 s;
  s ← expect ":" s;
  '(sec, s) ← read_digits 2 0 s;
  s ← expect "." s;
  '(us, s) ← read_digits 6 0 s;
  s ← expect "Z" s;
  match s with
  | EmptyString =>
      Some {| year := y; month := mo; day := d;
              hour := h; minute := mi; second := sec; microsecond := us |}
  | String _ _ => None
  end.

(** *** Instants and comparison *)

Definition is_leap (y : Z) : bool :=
  (y mod 4 =? 0) && (negb (y mod 100 =? 0) || (y mod 400 =? 0)).

Definition days_before_year (y : Z) : Z :=
  let p := y - 1 in p * 365 + p / 4 - p / 100 + p / 400.

Definition days_in_month (y m : Z) : Z :=
  if m =? 2 then (if is_leap y then 29 else 28)
  else if (m =? 4) || (m =? 6) || (m =? 9) || (m =? 11) then 30
  else 31.

Fixpoint days_before_month_go (y : Z) (k : nat) : Z :=
  match k with
  | O => 0
  | S k' => days_before_month_go y k' + days_in_month y (Z.of_nat k)
  end.

Definition days_before_month (y m : Z) : Z :=
  days_before_month_go y (Z.to_nat (m - 1)).

(** Proleptic Gregorian ordinal of a date, as [date.toordinal]. *)
Definition ordinal (c : civil) : Z :=
  days_before_year (year c) + days_before_month (year c) (month c) + day c.

(** Microseconds of the wall clock reading since 0001-01-01T00:00:00. *)
Definition wall_micros (c : civil) : Z :=
  ((((ordinal c - 1) * 24 + hour c) * 60 + minute c) * 60 + second c) * 1000000
  + microsecond c.

(** The instant of a wall clock reading taken [off] minutes east of UTC,
    in microseconds of UTC since 0001-01-01T00:00:00. *)
Definition instant_at (off : Z) (c : civil) : Z :=
  wall_micros c - off * 60 * 1000000.

(** The instant a [datetime] denotes; a naive value is local time. *)
Definition instant (local_utcoffset : Z) (dt : datetime) : Z :=
  instant_at (default local_utcoffset (tzinfo dt)) (fields dt).

(** The instant a text of the wire format denotes: its fields, read as
    UTC (that is what the suffix [Z] says). *)
Definition wire_instant (s : string) : option Z :=
  instant_at 0 <$> parse_wire s.

Definition valid_civil (c : civil) : bool :=
  (1 <=? year c) && (year c <=? 9999)
  && (1 <=? month c) && (month c <=? 12)
  && (1 <=? day c) && (day c <=? days_in_month (year c) (month c))
  && (0 <=? hour c) && (hour c <? 24)
  && (0 <=? minute c) && (minute c <? 60)
  && (0 <=? second c) && (second c <? 60)
  && (0 <=? microsecond c) && (microsecond c <? 1000000).

(** Lexicographic [<] on the field tuples: how two naive values compare. *)
Definition civil_ltb (a b : civil) : bool :=
  let fix lex (l : list (Z * Z)) : bool :=
    match l with
    | [] => false
    | (x, y) :: r => (x <? y) || ((x =? y) && lex r)
    end in
  lex [(year a, year b); (month a, month b); (day a, day b);
       (hour a, hour b); (minute a, minute b); (second a, second b);
       (microsecond a, microsecond b)].

(** [a.tzinfo is b.tzinfo] for two values that have a [tzinfo] object. *)
Definition same_tzinfo (a b : datetime) : bool :=
  match zone a, zone b with
  | Some za, Some zb => (za =? zb)%nat
  | _, _ => false
  end.

(** [a < b] on [datetime]s. Two values that share their [tzinfo] object
    compare by their fields, without regard to the offsets. Otherwise the
    offsets decide: two values without an offset (two naive values) and
    two values with the same offset compare by their fields, two values
    with different offsets by their instants, and a value without an
    offset does not compare with one that has an offset. *)
Definition datetime_lt (a b : datetime) : result bool :=
  if same_tzinfo a b then Ok (civil_ltb (fields a) (fields b))
  else
    match tzinfo a, tzinfo b with
    | None, None => Ok (civil_ltb (fields a) (fields b))
    | Some oa, Some ob =>
        if oa =? ob then Ok (civil_ltb (fields a) (fields b))
        else Ok (instant_at oa (fields a) <? instant_at ob (fields b))
    | _, _ => Raise TypeError
    end.

(** *** Base64 *)

Definition b64_alphabet : string :=
  "ABCDEFGHIJKLMNOPQRSTUVWXYZabcdefghijklmnopqrstuvwxyz0123456789+/".

Definition b64_char (n : nat) : ascii :=
  match String.get n b64_alphabet with
  | Some c => c
  | None => "="%char
  end.

(** [base64.b64encode] on the bytes of a string. *)
Fixpoint b64encode (s : string) : string :=
  match s with
  | EmptyString => EmptyString
  | String a EmptyString =>
      let x := nat_of_ascii a in
      String (b64_char (x / 4)) (String (b64_char (x mod 4 * 16)) "==")
  | String a (String b EmptyString) =>
      let x := nat_of_ascii a in
      let y := nat_of_ascii b in
      String (b64_char (x / 4))
        (String (b64_char (x mod 4 * 16 + y / 16))
           (String (b64_char (y mod 16 * 4)) "="))
  | String a (String b (String c r)) =>
      let x := nat_of_ascii a in
      let y := nat_of_ascii b in
      let z := nat_of_ascii c in
      String (b64_char (x / 4))
        (String (b64_char (x mod 4 * 16 + y / 16))
           (String (b64_char (y mod 16 * 4 + z / 64))
              (String (b64_char (z mod 64)) (b64encode r))))
  end%nat.

(** ** The object store and [copy.deepcopy] *)

Abbreviation store := (list hobj).

(** [isinstance(v, dict)] *)
Definition is_dict (h : store) (v : pyval) : bool :=
  match v with
  | PRef l => match h !! l with Some (HDict _) => true | _ => false end
  | _ => false
  end.

(** [bool(v)] *)
Definition py_truthy (h : store) (v : pyval) : bool :=
  match v with
  | PNone => false
  | PBool b => b
  | PInt n => negb (n =? 0)
  | PStr s => PyStr.nonempty s
  | PRef l =>
      match h !! l with
      | Some (HDict (_ :: _)) | Some (HList (_ :: _)) => true
      | _ => false
      end
  end.

(** The text of [type(v)] inside an f-string. *)
Definition type_repr (h : store) (v : pyval) : string :=
  match v with
  | PNone => "<class 'NoneType'>"
  | PBool _ => "<class 'bool'>"
  | PInt _ => "<class 'int'>"
  | PStr _ => "<class 'str'>"
  | PRef l =>
      match h !! l with
      | Some (HDict _) => "<class 'dict'>"
      | _ => "<class 'list'>"
      end
  end.

(** [y.append(a)] on the list at [y]. *)
Definition list_append_at (y : loc) (a : pyval) (h : store) : store :=
  match h !! y with
  | Some (HList l) => <[y := HList (l ++ [a])]> h
  | _ => h
  end.

(** [y[k] = v] on the dictionary at [y]. *)
Definition dict_set_at (y : loc) (k : string) (v : pyval) (h : store) : store :=
  match h !! y with
  | Some (HDict d) => <[y := HDict (dict_set k v d)]> h
  | _ => h
  end.

Section DeepCopy.

(** The recursive call, one level deeper. *)
Variable rec : pyval → gmap loc loc → store → result pyval * (gmap loc loc * store).

(** [for a in x: y.append(deepcopy(a, memo))] *)
Fixpoint copy_items (y : loc) (xs : list pyval) (memo : gmap loc loc) (h : store)
  : result pyval * (gmap loc loc * store) :=
  match xs with
  | [] => (Ok (PRef y), (memo, h))
  | a :: rest =>
      match rec a memo h with
      | (Ok a', (memo', h')) => copy_items y rest memo' (list_append_at y a' h')
      | (Raise e, st) => (Raise e, st)
      end
  end.

(** [for key, value in x.items(): y[deepcopy(key, memo)] = deepcopy(value, memo)];
    a string key is its own copy. *)
Fixpoint copy_entries (y : loc) (kvs : list (string * pyval)) (memo : gmap loc loc)
    (h : store) : result pyval * (gmap loc loc * store) :=
  match kvs with
  | [] => (Ok (PRef y), (memo, h))
  | (k, v) :: rest =>
      match rec v memo h with
      | (Ok v', (memo', h')) => copy_entries y rest memo' (dict_set_at y k v' h')
      | (Raise e, st) => (Raise e, st)
      end
  end.

End DeepCopy.

(** [copy.deepcopy(x, memo)]. An atomic value is its own copy. A list or a
    dictionary already copied is answered from [memo]; otherwise an empty
    object is allocated and entered into [memo] before its elements are
    copied into it, which is what preserves sharing and cycles. [depth]
    bounds the nesting of calls, as for [list_forwarders]. A reference
    always points into the store; the last case is never reached. *)
Fixpoint deepcopy (depth : nat) (x : pyval) (memo : gmap loc loc) (h : store)
  : result pyval * (gmap loc loc * store) :=
  match depth with
  | O => (Raise RecursionError, (memo, h))
  | S d =>
      match x with
      | PRef l =>
          match memo !! l with
          | Some y => (Ok (PRef y), (memo, h))
          | None =>
              let y := length h in
              match h !! l with
              | Some (HList xs) =>
                  copy_items (deepcopy d) y xs (<[l := y]> memo) (h ++ [HList []])
              | Some (HDict kvs) =>
                  copy_entries (deepcopy d) y kvs (<[l := y]> memo) (h ++ [HDict []])
              | None => (Raise TypeError, (memo, h))
              end
          end
      | _ => (Ok x, (memo, h))
      end
  end.

(** The JSON text a value of the store serialises to, as a tree; [None]
    when the value nests deeper than [depth], in particular when it
    contains itself. *)
Fixpoint reify (depth : nat) (h : store) (v : pyval) : option json :=
  match v with
  | PNone => Some JNull
  | PBool b => Some (JBool b)
  | PInt n => Some (JNum n)
  | PStr s => Some (JStr s)
  | PRef l =>
      match depth with
      | O => None
      | S d =>
          match h !! l with
          | Some (HList xs) => JArr <$> mapM (reify d h) xs
          | Some (HDict kvs) =>
              JObj <$> mapM (λ kv, pair kv.1 <$> reify d h kv.2) kvs
          | None => None
          end
      end
  end.

(** ** The world the client runs in

    [serve] is the session's answer to a request in a backend state; every
    request sent is recorded in [requests], oldest first. [heap] holds the
    caller's mutable objects. [clock_reads] and [uuid_draws] count the
    readings taken from the clock and the random generator. *)

Section Chronicle.

Context {B : Type}.
Variable serve : B → request → response * B.

(** [secops.chronicle.log_types.is_valid_log_type], not part of this core. *)
Variable is_valid_log_type : string → bool.

(** The [n]-th reading of [datetime.now()] (naive local time), the local
    UTC offset in minutes that [astimezone()] attaches, and the text of
    the [n]-th [uuid.uuid4()]. *)
Variable datetime_now : nat → civil.
Variable local_utcoffset : Z.
Variable uuid4 : nat → string.

Record world : Type := {
  client : ChronicleClient;
  session : B;
  requests : list request;
  heap : list hobj;
  clock_reads : nat;
  uuid_draws : nat;
}.

Definition with_client (w : world) (c : ChronicleClient) : world :=
  {| client := c; session := session w; requests := requests w;
     heap := heap w; clock_reads := clock_reads w; uuid_draws := uuid_draws w |}.

Definition with_heap (w : world) (h : list hobj) : world :=
  {| client := client w; session := session w; requests := requests w;
     heap := h; clock_reads := clock_reads w; uuid_draws := uuid_draws w |}.

(** A computation: it ends with a value or a raised exception, in a new
    world. *)
Definition M (A : Type) : Type := world → result A * world.

Definition ret {A} (a : A) : M A := λ w, (Ok a, w).

Definition raise {A} (e : exn) : M A := λ w, (Raise e, w).

Definition bind {A C} (k : A → M C) (m : M A) : M C :=
  λ w, match m w with
       | (Ok a, w') => k a w'
       | (Raise e, w') => (Raise e, w')
       end.

#[local] Instance M_ret : MRet M := @ret.
#[local] Instance M_bind : MBind M := @bind.

Definition lift {A} (r : result A) : M A := λ w, (r, w).

(** The outcome of [m] as a value: the body of a [try]. *)
Definition attempt {A} (m : M A) : M (result A) :=
  λ w, let '(r, w') := m w in (Ok r, w').

(** [try: m except APIError as e: h e] *)
Definition catch_APIError {A} (m : M A) (h : string → M A) : M A :=
  λ w, match m w with
       | (Raise (APIError msg), w') => h msg w'
       | other => other
       end.

Definition get_client : M ChronicleClient := λ w, (Ok (client w), w).

Definition set_cache (v : option string) : M unit :=
  λ w, (Ok tt, with_client w (set_cached_id (client w) v)).

Definition send (r : request) : M response :=
  λ w, let '(resp, b) := serve (session w) r in
       (Ok resp,
        {| client := client w; session := b; requests := requests w ++ [r];
           heap := heap w; clock_reads := clock_reads w;
           uuid_draws := uuid_draws w |}).

(** [client.session.get(url, params=params)] and
    [client.session.post(url, json=body)] *)
Definition session_get (url : string) (params : list (string * json)) : M response :=
  send (GET url params).

Definition session_post (url : string) (body : json) : M response :=
  send (POST url body).

(** ** Forwarder directory *)

Definition forwarders_url (c : ChronicleClient) : string :=
  base_url c +:+ "/" +:+ instance_id c +:+ "/forwarders".

Definition forwarder_url (c : ChronicleClient) (forwarder_id : string) : string :=
  base_url c +:+ "/" +:+ instance_id c +:+ "/forwarders/" +:+ forwarder_id.

(** The request payload of [create_forwarder], lines 56-66. *)
Definition create_payload (display_name : string)
    (metadata : option (list (string * json)))
    (upload_compression enable_server : bool) : json :=
  JObj [("displayName", JStr display_name);
        ("config",
         JObj [("uploadCompression", JBool upload_compression);
               ("metadata",
                JObj (match metadata with Some m => m | None => [] end));
               ("serverSettings",
                JObj [("enabled", JBool enable_server);
                      ("httpSettings", JObj [("routeSettings", JObj [])])])])].

(** [create_forwarder], lines 31-75. *)
Definition create_forwarder (display_name : string)
    (metadata : option (list (string * json)))
    (upload_compression enable_server : bool) : M json :=
  c ← get_client;
  let url := forwarders_url c in
  let payload := create_payload display_name metadata upload_compression enable_server in
  response ← session_post url payload;
  if negb (status_code response =? 200) then
    raise (APIError ("Failed to create forwarder: " +:+ text response))
  else lift (response_json response).

(** The query parameters of a page request, lines 96-101. *)
Definition list_params (page_size : Z) (page_token : json) : list (string * json) :=
  (if negb (page_size =? 0)
   then [("pageSize", JNum (Z.min 1000 (Z.max 1 page_size)))] else [])
  ++ (if truthy page_token then [("pageToken", page_token)] else []).

(** [list_forwarders], lines 78-121. The function calls itself once per
    further page; [depth] is the number of nested calls the interpreter
    still allows, and exhausting it raises [RecursionError]. The page token
    is whatever the previous page carried ([JNull] for [None]). *)
Fixpoint list_forwarders (depth : nat) (page_size : Z) (page_token : json) : M json :=
  match depth with
  | O => raise RecursionError
  | S depth' =>
      c ← get_client;
      let url := forwarders_url c in
      let params := list_params page_size page_token in
      response ← session_get url params;
      if negb (status_code response =? 200) then
        raise (APIError ("Failed to list forwarders: " +:+ text response))
      else
        result ← lift (response_json response);
        has_token ← lift (py_in "nextPageToken" result);
        token ← (if has_token then lift (py_getitem result "nextPageToken")
                  else ret JNull);
        if has_token && truthy token then
          next_page ← list_forwarders depth' page_size token;
          has_forwarders ← lift (py_in "forwarders" next_page);
          more ← (if has_forwarders then lift (py_getitem next_page "forwarders")
                   else ret JNull);
          result ← (if has_forwarders && truthy more then
                       current ← lift (py_getitem result "forwarders");
                       combined ← lift (py_extend current more);
                       match result with
                       | JObj d => ret (JObj (dict_set "forwarders" combined d))
                       | _ => raise TypeError
                       end
                     else ret result);
          match result with
          | JObj d => ret (JObj (dict_pop "nextPageToken" d))
          | _ => raise AttributeError
          end
        else ret result
  end.

(** [get_forwarder], lines 124-146. *)
Definition get_forwarder (forwarder_id : string) : M json :=
  c ← get_client;
  let url := forwarder_url c forwarder_id in
  response ← session_get url [];
  if negb (status_code response =? 200) then
    raise (APIError ("Failed to get forwarder: " +:+ text response))
  else lift (response_json response).

(** The scan of lines 170-173: the first element whose display name is
    [display_name]. *)
Fixpoint scan_display_name (display_name : string) (l : list json)
  : result (option json) :=
  match l with
  | [] => Ok None
  | forwarder :: rest =>
      match py_get forwarder "displayName" JNull with
      | Raise e => Raise e
      | Ok dn =>
          if py_eq_str dn display_name then Ok (Some forwarder)
          else scan_display_name display_name rest
      end
  end.

(** [_find_forwarder_by_display_name], lines 149-176. *)
Definition _find_forwarder_by_display_name (depth : nat) (display_name : string)
  : M (option json) :=
  catch_APIError
    (forwarders_response ← list_forwarders depth 1000 JNull;
     forwarders ← lift (py_get forwarders_response "forwarders" (JArr []));
     elements ← lift (py_iter forwarders);
     lift (scan_display_name display_name elements))
    (λ msg,
       raise (APIError ("Failed to list forwarders while searching for '"
                        +:+ display_name +:+ "': " +:+ msg))).

(** [extract_forwarder_id(forwarder["name"])] on a decoded value. The
    function is declared on strings; a falsy value of another type takes
    its first branch, and a number has no [in]. A non-empty list or
    dictionary as a name is outside the declared type and is not followed
    further: the model stops it with [TypeError]. *)
Definition extract_forwarder_id_of (name : json) : result string :=
  match name with
  | JStr s => extract_forwarder_id s
  | _ => if truthy name then Raise TypeError
         else Raise (ValueError "Forwarder name cannot be empty")
  end.

Definition cached_id_truthy (c : ChronicleClient) : option string :=
  match _cached_default_forwarder_id c with
  | Some id => if PyStr.nonempty id then Some id else None
  | None => None
  end.

(** [if is_default_forwarder_request: client._cached_default_forwarder_id =
    extract_forwarder_id(forwarder["name"])], lines 221-223 and 228-230. *)
Definition cache_if_default (is_default_forwarder_request : bool)
    (forwarder : json) : M unit :=
  if is_default_forwarder_request then
    name ← lift (py_getitem forwarder "name");
    id ← lift (extract_forwarder_id_of name);
    set_cache (Some id)
  else ret tt.

(** Lines 216-236: find by display name, else create; cache the ID when
    resolving the default name; enrich permission errors. *)
Definition find_or_create (depth : nat) (target_display_name : string)
    (is_default_forwarder_request : bool) : M json :=
  catch_APIError
    (found_forwarder ← _find_forwarder_by_display_name depth target_display_name;
     match found_forwarder with
     | Some forwarder =>
         (* a forwarder the scan returns has a display name, so it is a
            non-empty dictionary and [if found_forwarder:] holds *)
         cache_if_default is_default_forwarder_request forwarder;;
         ret forwarder
     | None =>
         created_forwarder ← create_forwarder target_display_name None false false;
         cache_if_default is_default_forwarder_request created_forwarder;;
         ret created_forwarder
     end)
    (λ msg,
       if PyStr.contains "permission" (PyStr.lower msg) then
         raise (APIError ("Insufficient permissions to manage forwarders: " +:+ msg))
       else raise (APIError msg)).

(** [display_name or client._default_forwarder_display_name], line 198. *)
Definition target_of (c : ChronicleClient) (display_name : option string) : string :=
  match display_name with
  | Some s => if PyStr.nonempty s then s else _default_forwarder_display_name c
  | None => _default_forwarder_display_name c
  end.

(** [get_or_create_forwarder], lines 179-236. *)
Definition get_or_create_forwarder (depth : nat) (display_name : option string)
  : M json :=
  c ← get_client;
  let target_display_name := target_of c display_name in
  let is_default_forwarder_request :=
    String.eqb target_display_name (_default_forwarder_display_name c) in
  match (if is_default_forwarder_request then cached_id_truthy c else None) with
  | Some cached =>
      outcome ← attempt (get_forwarder cached);
      match outcome with
      | Ok forwarder =>
          dn ← lift (py_get forwarder "displayName" JNull);
          if py_eq_str dn (_default_forwarder_display_name c) then ret forwarder
          else
            set_cache None;;
            find_or_create depth target_display_name is_default_forwarder_request
      | Raise (APIError _) =>
          set_cache None;;
          find_or_create depth target_display_name is_default_forwarder_request
      | Raise e => raise e
      end
  | None =>
      find_or_create depth target_display_name is_default_forwarder_request
  end.

(** ** Log ingestion *)

(** [log_message]: a single string or a list of strings. *)
Inductive log_message : Type :=
| Single (msg : string)
| Many (msgs : list string).

Definition read_clock : M datetime :=
  λ w, (Ok {| fields := datetime_now (clock_reads w); tzinfo := None;
              zone := None |},
        {| client := client w; session := session w; requests := requests w;
           heap := heap w; clock_reads := S (clock_reads w);
           uuid_draws := uuid_draws w |}).

Definition draw_uuid : M string :=
  λ w, (Ok (uuid4 (uuid_draws w)),
        {| client := client w; session := session w; requests := requests w;
           heap := heap w; clock_reads := clock_reads w;
           uuid_draws := S (uuid_draws w) |}).

(** One entry of the [logs] list, lines 351-369. *)
Definition log_entry (log_entry_time_str collection_time_str : string)
    (namespace : option string) (labels : option (list (string * string)))
    (msg : string) : json :=
  JObj ([("data", JStr (b64encode msg));
         ("log_entry_time", JStr log_entry_time_str);
         ("collection_time", JStr collection_time_str)]
        ++ match namespace with
           | Some ns => if PyStr.nonempty ns
                        then [("environment_namespace", JStr ns)] else []
           | None => []
           end
        ++ match labels with
           | Some (kv :: l) =>
               [("labels",
                 JObj ((λ kv, (kv.1, JObj [("value", JStr kv.2)])) <$> (kv :: l)))]
           | _ => []
           end).

Definition import_logs_url (c : ChronicleClient) (log_type : string) : string :=
  base_url c +:+ "/" +:+ instance_id c +:+ "/logTypes/" +:+ log_type
  +:+ "/logs:import".

Definition import_logs_payload (logs : list json) (forwarder_resource : string) : json :=
  JObj [("inline_source",
         JObj [("logs", JArr logs); ("forwarder", JStr forwarder_resource)])].

(** The forwarder's resource name, lines 337-340. *)
Definition forwarder_resource_of (c : ChronicleClient) (forwarder_id : string) : string :=
  if negb (PyStr.contains_char slash forwarder_id)
  then instance_id c +:+ "/forwarders/" +:+ forwarder_id
  else forwarder_id.

(** [log_message if isinstance(log_message, list) else [log_message]],
    line 346. *)
Definition messages_of (log_message : log_message) : list string :=
  match log_message with Single msg => [msg] | Many msgs => msgs end.

(** [ingest_log], lines 273-381. *)
Definition ingest_log (depth : nat) (log_type : string) (log_message : log_message)
    (log_entry_time collection_time : option datetime)
    (namespace : option string) (labels : option (list (string * string)))
    (forwarder_id : option string) (force_log_type : bool) : M json :=
  if negb (is_valid_log_type log_type) && negb force_log_type then
    raise (ValueError ("Invalid log type: " +:+ log_type
                       +:+ ". Use force_log_type=True to override."))
  else
    now ← read_clock;
    let log_entry_time := default now log_entry_time in
    let collection_time := default now collection_time in
    before ← lift (datetime_lt collection_time log_entry_time);
    if (before : bool) then
      raise (ValueError "Collection time must be same or after log entry time")
    else
      let log_entry_time_str := strftime_wire log_entry_time in
      let collection_time_str := strftime_wire collection_time in
      forwarder_id ←
        match forwarder_id with
        | Some id => ret id
        | None =>
            forwarder ← get_or_create_forwarder depth None;
            name ← lift (py_getitem forwarder "name");
            lift (extract_forwarder_id_of name)
        end;
      c ← get_client;
      let forwarder_resource := forwarder_resource_of c forwarder_id in
      let url := import_logs_url c log_type in
      let log_messages := messages_of log_message in
      let logs :=
        log_entry log_entry_time_str collection_time_str namespace labels
          <$> log_messages in
      let payload := import_logs_payload logs forwarder_resource in
      response ← session_post url payload;
      if negb (status_code response =? 200) then
        raise (APIError ("Failed to ingest log: " +:+ text response))
      else lift (response_json response).

(** ** UDM event ingestion *)

Definition get_heap : M store := λ w, (Ok (heap w), w).

Definition put_heap (h : store) : M unit := λ w, (Ok tt, with_heap w h).

(** [events_copy = copy.deepcopy(udm_events)] *)
Definition deepcopy_events (depth : nat) (udm_events : pyval) : M pyval :=
  λ w, let '(r, (_, h)) := deepcopy depth udm_events ∅ (heap w) in
       (r, with_heap w h).

(** The back-filled timestamp, lines 469-472. *)
Definition backfill_timestamp (now : civil) : string :=
  PyStr.replace "+00:00" "Z" (isoformat (astimezone local_utcoffset now)).

(** The body of the loop over [events_copy], lines 454-476. *)
Definition process_event (add_missing_ids : bool) (event : pyval) : M unit :=
  h ← get_heap;
  match event with
  | PRef le =>
      match h !! le with
      | Some (HDict ed) =>
          match dict_get "metadata" ed with
          | None => raise (ValueError "UDM event missing required 'metadata' section")
          | Some (PRef lm) =>
              match h !! lm with
              | Some (HDict md) =>
                  (if negb (bool_decide (is_Some (dict_get "event_timestamp" md))) then
                     current_time ← read_clock;
                     h ← get_heap;
                     put_heap (dict_set_at lm "event_timestamp"
                                 (PStr (backfill_timestamp (fields current_time))) h)
                   else ret tt);;
                  h ← get_heap;
                  let has_id :=
                    match h !! lm with
                    | Some (HDict md) => bool_decide (is_Some (dict_get "id" md))
                    | _ => false
                    end in
                  if add_missing_ids && negb has_id then
                    id ← draw_uuid;
                    h ← get_heap;
                    put_heap (dict_set_at lm "id" (PStr id) h)
                  else ret tt
              | _ => raise (ValueError "UDM 'metadata' must be a dictionary")
              end
          | Some _ => raise (ValueError "UDM 'metadata' must be a dictionary")
          end
      | _ =>
          raise (ValueError ("Invalid UDM event type: " +:+ type_repr h event
                             +:+ ". Events must be dictionaries."))
      end
  | _ =>
      raise (ValueError ("Invalid UDM event type: " +:+ type_repr h event
                         +:+ ". Events must be dictionaries."))
  end.

Fixpoint process_events (add_missing_ids : bool) (events : list pyval) : M unit :=
  match events with
  | [] => ret tt
  | event :: rest =>
      process_event add_missing_ids event;;
      process_events add_missing_ids rest
  end.

(** The elements [for event in events_copy] visits. *)
Definition events_of (h : store) (events_copy : pyval) : result (list pyval) :=
  match events_copy with
  | PRef l =>
      match h !! l with
      | Some (HList xs) => Ok xs
      | Some (HDict d) => Ok ((λ kv, PStr kv.1) <$> d)
      | None => Raise TypeError
      end
  | PStr s => Ok (PStr <$> PyStr.chars s)
  | PNone | PBool _ | PInt _ => Raise TypeError
  end.

Definition import_events_url (c : ChronicleClient) : string :=
  "https://" +:+ region c +:+ "-chronicle.googleapis.com/v1alpha/"
  +:+ "projects/" +:+ project_id c +:+ "/locations/" +:+ region c
  +:+ "/instances/" +:+ customer_id c +:+ "/events:import".

Definition import_events_body (events : list json) : json :=
  JObj [("inline_source",
         JObj [("events", JArr ((λ event, JObj [("udm", event)]) <$> events))])].

(** [ingest_udm], lines 442-476: normalise the input to a list, reject an
    empty one, copy it and process the copies. The result is the list of
    copied events. *)
Definition prepare_events (depth : nat) (udm_events : pyval) (add_missing_ids : bool)
  : M (list pyval) :=
  h ← get_heap;
  udm_events ←
    (if is_dict h udm_events then
       put_heap (h ++ [HList [udm_events]]);;
       ret (PRef (length h))
     else ret udm_events);
  h ← get_heap;
  if negb (py_truthy h udm_events) then
    raise (ValueError "No UDM events provided")
  else
    events_copy ← deepcopy_events depth udm_events;
    h ← get_heap;
    events ← lift (events_of h events_copy);
    process_events add_missing_ids events;;
    ret events.

(** [ingest_udm], lines 478-503: build the request, send it and read the
    response. The body handed to the session is serialised before it is
    sent; a body that does not serialise (it nests deeper than [depth])
    makes the session raise without sending. *)
Definition submit_events (depth : nat) (events : list pyval) : M json :=
  c ← get_client;
  let url := import_events_url c in
  h ← get_heap;
  match mapM (reify depth h) events with
  | None => raise InvalidJSONError
  | Some evs =>
      let body := import_events_body evs in
      response ← session_post url body;
      if 400 <=? status_code response then
        raise (APIError ("Failed to ingest UDM events: " +:+ text response))
      else if PyStr.strip_nonempty (text response) then
        match response_json response with
        | Ok j => ret j
        | Raise _ => ret (JObj [("raw_response", JStr (text response))])
        end
      else ret (JObj [])
  end.

(** [ingest_udm], lines 384-503. *)
Definition ingest_udm (depth : nat) (udm_events : pyval) (add_missing_ids : bool)
  : M json :=
  events ← prepare_events depth udm_events add_missing_ids;
  submit_events depth events.

(** * Properties *)

(** ** Dictionaries *)

Lemma dict_get_set_eq {V} k (v : V) d : dict_get k (dict_set k v d) = Some v.
Proof.
  induction d as [|[k' v'] d IH]; simpl.
  - by rewrite String.eqb_refl.
  - destruct (String.eqb k' k) eqn:E; simpl.
    + by rewrite String.eqb_refl.
    + by rewrite E.
Qed.

Lemma dict_get_set_ne {V} k k' (v : V) d :
  k ≠ k' → dict_get k' (dict_set k v d) = dict_get k' d.
Proof.
  intros Hne. induction d as [|[k0 v0] d IH]; simpl.
  - by apply String.eqb_neq in Hne as ->.
  - destruct (String.eqb k0 k) eqn:E; simpl.
    + apply String.eqb_eq in E as ->.
      by apply String.eqb_neq in Hne as ->.
    + by rewrite IH.
Qed.

Lemma dict_get_pop_eq {V} k (d : list (string * V)) : dict_get k (dict_pop k d) = None.
Proof.
  induction d as [|[k' v'] d IH]; simpl; [done|].
  destruct (String.eqb k' k) eqn:E; simpl; [done|]. by rewrite E.
Qed.

Lemma dict_get_pop_ne {V} k k' (d : list (string * V)) :
  k ≠ k' → dict_get k' (dict_pop k d) = dict_get k' d.
Proof.
  intros Hne. induction d as [|[k0 v0] d IH]; simpl; [done|].
  destruct (String.eqb k0 k) eqn:E; simpl.
  - apply String.eqb_eq in E as ->.
    by apply String.eqb_neq in Hne as ->.
  - by rewrite IH.
Qed.

(** ** Pagination *)

(** Unfolding of the monad's operations. *)
Ltac munfold :=
  cbv [mbind M_bind bind mret M_ret ret lift raise get_client session_get
       session_post send set_cache attempt catch_APIError get_heap put_heap].

(** From backend state [b], asked with [token], the backend hands out the
    forwarders [pages] page by page, each page but the last carrying a
    next-page token, and ends in state [b']. *)
Inductive serves_pages (c : ChronicleClient) (page_size : Z)
  : B → json → list (list json) → B → Prop :=
| serves_last b token resp b' d fs :
    serve b (GET (forwarders_url c) (list_params page_size token)) = (resp, b') →
    status_code resp = 200 →
    json_body resp = Some (JObj d) →
    dict_get "forwarders" d = Some (JArr fs) →
    dict_get "nextPageToken" d = None →
    serves_pages c page_size b token [fs] b'
| serves_more b token resp b1 d fs next rest b' :
    serve b (GET (forwarders_url c) (list_params page_size token)) = (resp, b1) →
    status_code resp = 200 →
    json_body resp = Some (JObj d) →
    dict_get "forwarders" d = Some (JArr fs) →
    dict_get "nextPageToken" d = Some next →
    truthy next = true →
    serves_pages c page_size b1 next rest b' →
    serves_pages c page_size b token (fs :: rest) b'.

(** From backend state [b], asked with [token], the backend answers [k]
    page requests successfully, each with a next-page token, and the next
    one with the failure [failure]. *)
Inductive fails_after (c : ChronicleClient) (page_size : Z)
  : nat → B → json → response → Prop :=
| fails_now b token resp b' :
    serve b (GET (forwarders_url c) (list_params page_size token)) = (resp, b') →
    status_code resp ≠ 200 →
    fails_after c page_size O b token resp
| fails_later k b token resp b1 d next failure :
    serve b (GET (forwarders_url c) (list_params page_size token)) = (resp, b1) →
    status_code resp = 200 →
    json_body resp = Some (JObj d) →
    dict_get "nextPageToken" d = Some next →
    truthy next = true →
    fails_after c page_size k b1 next failure →
    fails_after c page_size (S k) b token failure.

Lemma list_forwarders_pages c page_size b token pages b' :
  serves_pages c page_size b token pages b' →
  ∀ depth w, client w = c → session w = b → (length pages ≤ depth)%nat →
  ∃ d w',
    list_forwarders depth page_size token w = (Ok (JObj d), w')
    ∧ dict_get "forwarders" d = Some (JArr (concat pages))
    ∧ dict_get "nextPageToken" d = None
    ∧ client w' = c ∧ session w' = b'.
Proof.
  induction 1 as [b token resp b' d fs Hs Hst Hj Hf Hn
                 |b token resp b1 d fs next rest b' Hs Hst Hj Hf Hn Ht Hrest IH];
    intros depth w Hc Hb Hlen; subst c b.
  - destruct depth as [|depth]; [simpl in Hlen; lia|].
    exists d. eexists. simpl. munfold. rewrite Hs. simpl.
    rewrite Hst. simpl. unfold response_json. rewrite Hj. simpl.
    rewrite Hn. simpl. split; [reflexivity|].
    by rewrite app_nil_r.
  - destruct depth as [|depth]; [simpl in Hlen; lia|].
    simpl in Hlen.
    simpl. munfold. rewrite Hs. simpl.
    rewrite Hst. simpl. unfold response_json. rewrite Hj. simpl.
    rewrite Hn. simpl. rewrite Ht. simpl.
    match goal with
    | |- context [list_forwarders depth page_size next ?w1] =>
        destruct (IH depth w1) as (d' & w' & Hrun & Hf' & Hn' & Hc' & Hb');
          [done|done|lia|]
    end.
    rewrite Hrun. simpl. rewrite Hf'. simpl.
    destruct (concat rest) as [|x xs] eqn:Hcat; simpl.
    + eexists _, _. split; [reflexivity|].
      rewrite dict_get_pop_ne by done. rewrite dict_get_pop_eq.
      by rewrite app_nil_r.
    + rewrite Hf. simpl.
      eexists _, _. split; [reflexivity|].
      rewrite dict_get_pop_ne by done. rewrite dict_get_pop_eq.
      by rewrite dict_get_set_eq.
Qed.

Lemma list_forwarders_failure c page_size k b token failure :
  fails_after c page_size k b token failure →
  ∀ depth w, client w = c → session w = b → (k < depth)%nat →
  (list_forwarders depth page_size token w).1
  = Raise (APIError ("Failed to list forwarders: " +:+ text failure)).
Proof.
  induction 1 as [b token resp b' Hs Hst
                 |k b token resp b1 d next failure Hs Hst Hj Hn Ht Hrest IH];
    intros depth w Hc Hb Hlt; subst c b.
  - destruct depth as [|depth]; [lia|].
    simpl. munfold. rewrite Hs. simpl.
    apply Z.eqb_neq in Hst as ->. done.
  - destruct depth as [|depth]; [lia|].
    simpl. munfold. rewrite Hs. simpl.
    rewrite Hst. simpl. unfold response_json. rewrite Hj. simpl.
    rewrite Hn. simpl. rewrite Ht. simpl.
    match goal with
    | |- context [list_forwarders depth page_size next ?w1] =>
        specialize (IH depth w1 eq_refl eq_refl ltac:(lia));
        destruct (list_forwarders depth page_size next w1) as [r w'] eqn:Hrun
    end.
    simpl in IH. subst r. done.
Qed.

(** C2. When the backend hands out its forwarders over several successful
    pages, each but the last with a next-page token, [list_forwarders]
    returns one mapping whose ["forwarders"] list is the concatenation of
    the pages' forwarders in page order and which has no ["nextPageToken"]
    key; when a page request, the first or a later one, is answered with a
    failure status, the whole call raises [APIError]. Both hold as long as
    the number of pages stays within the depth of nested calls the
    interpreter allows. *)
Theorem list_forwarders_paginated (depth : nat) (page_size : Z) (token : json)
    (w : world) :
  (∀ pages b',
     serves_pages (client w) page_size (session w) token pages b' →
     (length pages ≤ depth)%nat →
     ∃ d w',
       list_forwarders depth page_size token w = (Ok (JObj d), w')
       ∧ dict_get "forwarders" d = Some (JArr (concat pages))
       ∧ dict_get "nextPageToken" d = None)
  ∧ (∀ k failure,
       fails_after (client w) page_size k (session w) token failure →
       (k < depth)%nat →
       (list_forwarders depth page_size token w).1
       = Raise (APIError ("Failed to list forwarders: " +:+ text failure))).
Proof.
  split.
  - intros pages b' Hp Hlen.
    destruct (list_forwarders_pages _ _ _ _ _ _ Hp depth w eq_refl eq_refl Hlen)
      as (d & w' & ? & ? & ? & _).
    by exists d, w'.
  - intros k failure Hf Hlt.
    by apply (list_forwarders_failure _ _ _ _ _ _ Hf).
Qed.

(** ** Backend states reached by sending requests *)

Definition backend_step (b b' : B) : Prop := ∃ r, b' = (serve b r).2.

Definition reaches : B → B → Prop := rtc backend_step.

Lemma reaches_serve b r resp b' : serve b r = (resp, b') → reaches b b'.
Proof. intros H. apply rtc_once. exists r. by rewrite H. Qed.

(** ** The page-size parameter *)

Definition clamp_page_size (page_size : Z) : Z := Z.min 1000 (Z.max 1 page_size).

Lemma list_params_page_size page_size token :
  dict_get "pageSize" (list_params page_size token)
  = if page_size =? 0 then None else Some (JNum (clamp_page_size page_size)).
Proof.
  unfold list_params. destruct (page_size =? 0); simpl; [|done].
  by destruct (truthy token).
Qed.

(** The requests [list_forwarders] adds to the record are page requests
    for the caller's [page_size]; the client is left as it was. *)
Lemma list_forwarders_requests depth page_size token w :
  ∃ sent,
    requests (list_forwarders depth page_size token w).2 = requests w ++ sent
    ∧ Forall (λ r, ∃ token', r = GET (forwarders_url (client w))
                                     (list_params page_size token')) sent
    ∧ client (list_forwarders depth page_size token w).2 = client w
    ∧ heap (list_forwarders depth page_size token w).2 = heap w
    ∧ reaches (session w) (session (list_forwarders depth page_size token w).2).
Proof.
  revert token w. induction depth as [|depth IH]; intros token w.
  - exists []. simpl. rewrite app_nil_r. by split_and!.
  - set (P := λ w' : world, ∃ sent,
      requests w' = requests w ++ sent
      ∧ Forall (λ r, ∃ token', r = GET (forwarders_url (client w))
                                       (list_params page_size token')) sent
      ∧ client w' = client w ∧ heap w' = heap w
      ∧ reaches (session w) (session w')).
    change (P (list_forwarders (S depth) page_size token w).2).
    simpl. munfold.
    destruct (serve (session w) _) as [resp b1] eqn:Hs. simpl.
    set (r := GET (forwarders_url (client w)) (list_params page_size token)).
    match goal with
    | |- context [{| client := client w; session := b1; requests := ?rq;
                     heap := ?h; clock_reads := ?cr; uuid_draws := ?ud |}] =>
        set (w1 := {| client := client w; session := b1; requests := rq;
                      heap := h; clock_reads := cr; uuid_draws := ud |})
    end.
    assert (Hone : P w1).
    { exists [r]. simpl. split_and!; [done| |done|done|by eapply reaches_serve].
      constructor; [by exists token|constructor]. }
    destruct (negb (status_code resp =? 200)); [exact Hone|].
    destruct (response_json resp) as [result|e]; simpl; [|exact Hone].
    destruct (py_in "nextPageToken" result) as [has|e]; simpl; [|exact Hone].
    destruct has; simpl; [|exact Hone].
    destruct (py_getitem result "nextPageToken") as [next|e]; simpl; [|exact Hone].
    destruct (truthy next); simpl; [|exact Hone].
    destruct (IH next w1) as (sent & Hreq & Hall & Hcl & Hh & Hreach).
    destruct (list_forwarders depth page_size next w1) as [x w'] eqn:Hrun.
    simpl in Hreq, Hall, Hcl, Hh, Hreach.
    assert (Htail : P w').
    { exists (r :: sent). split_and!; [|by constructor; [exists token|]|done|done|].
      - rewrite Hreq. simpl. by rewrite <-app_assoc.
      - eapply rtc_l; [|exact Hreach]. exists r. unfold r. by rewrite Hs. }
    destruct x as [next_page|e]; simpl; [|exact Htail].
    destruct (py_in "forwarders" next_page) as [hasf|e]; simpl; [|exact Htail].
    destruct hasf; simpl.
    + destruct (py_getitem next_page "forwarders") as [more|e]; simpl; [|exact Htail].
      destruct (truthy more); simpl.
      * destruct (py_getitem result "forwarders") as [cur|e]; simpl; [|exact Htail].
        destruct (py_extend cur more) as [comb|e]; simpl; [|exact Htail].
        destruct result; simpl; exact Htail.
      * destruct result; simpl; exact Htail.
    + destruct result; simpl; exact Htail.
Qed.

(** C9 (as the code has it). A call of [list_forwarders] with a page size
    other than zero sends, on every page request it issues, a [pageSize]
    parameter equal to the page size clamped into [1, 1000]; a page size
    of zero sends no [pageSize] parameter at all, on any page request. *)
Theorem list_forwarders_page_size (depth : nat) (page_size : Z) (token : json)
    (w : world) :
  1 ≤ clamp_page_size page_size ≤ 1000
  ∧ (page_size < 1 → page_size ≠ 0 → clamp_page_size page_size = 1)
  ∧ (1000 < page_size → clamp_page_size page_size = 1000)
  ∧ ∃ sent,
      requests (list_forwarders depth page_size token w).2 = requests w ++ sent
      ∧ Forall (λ r,
          dict_get "pageSize" (request_params r)
          = if page_size =? 0 then None
            else Some (JNum (clamp_page_size page_size))) sent.
Proof.
  unfold clamp_page_size. split_and!; [lia|lia|lia|lia|].
  destruct (list_forwarders_requests depth page_size token w)
    as (sent & Hreq & Hall & _).
  exists sent. split; [done|].
  eapply Forall_impl; [exact Hall|].
  intros r [token' ->]. simpl. apply list_params_page_size.
Qed.

(** ** The default-forwarder cache *)

Section Cache.

(** [exists_fwd b id name]: in backend state [b] there is a forwarder
    whose ID is [id] and whose display name is [name]. *)
Variable exists_fwd : B → string → string → Prop.

(** The base URL and the instance the client talks to. *)
Variables base inst : string.

(** The display name and the resource name a forwarder object carries. *)
Definition names (f : json) (display_name name : string) : Prop :=
  py_get f "displayName" JNull = Ok (JStr display_name)
  ∧ py_getitem f "name" = Ok (JStr name).

(** A backend that answers truthfully: no request of this client deletes
    or renames a forwarder; a successful page of a listing and a
    successful create report forwarders that exist, under the ID their
    resource name ends in. *)
Record honest_directory : Prop := {
  honest_stable b r id d :
    exists_fwd b id d → exists_fwd (serve b r).2 id d;
  honest_list b params resp b' page fs f d n id :
    serve b (GET (base +:+ "/" +:+ inst +:+ "/forwarders") params) = (resp, b') →
    status_code resp = 200 →
    json_body resp = Some (JObj page) →
    dict_get "forwarders" page = Some (JArr fs) →
    f ∈ fs → names f d n → extract_forwarder_id n = Ok id →
    exists_fwd b' id d;
  honest_create b display_name metadata uc es resp b' f n id :
    serve b (POST (base +:+ "/" +:+ inst +:+ "/forwarders")
               (create_payload display_name metadata uc es)) = (resp, b') →
    status_code resp = 200 →
    json_body resp = Some f →
    py_getitem f "name" = Ok (JStr n) → extract_forwarder_id n = Ok id →
    exists_fwd b' id display_name;
}.

(** The invariant of the cache slot: it is empty, or it holds the ID of
    an existing forwarder whose display name is the default one. *)
Definition cache_ok (w : world) : Prop :=
  ∀ id, _cached_default_forwarder_id (client w) = Some id →
        exists_fwd (session w) id (_default_forwarder_display_name (client w)).

(** [f] is reported truthfully in state [b]. *)
Definition truthful (b : B) (f : json) : Prop :=
  ∀ d n id, names f d n → extract_forwarder_id n = Ok id → exists_fwd b id d.

Definition page_truthful (b : B) (res : json) : Prop :=
  ∀ page fs, res = JObj page → dict_get "forwarders" page = Some (JArr fs) →
             Forall (truthful b) fs.

Hypothesis honest : honest_directory.

Lemma exists_fwd_reaches b b' id d :
  reaches b b' → exists_fwd b id d → exists_fwd b' id d.
Proof.
  induction 1 as [|b b1 b' [r ->] _ IH]; [done|].
  intros H. apply IH. by apply honest_stable.
Qed.

Lemma truthful_reaches b b' f : reaches b b' → truthful b f → truthful b' f.
Proof. intros Hr Ht d n id Hn He. eapply exists_fwd_reaches; eauto. Qed.

Lemma truthful_JStr b s : truthful b (JStr s).
Proof. by intros d n id [H _]. Qed.

Lemma py_iter_truthful b v l :
  (∀ fs, v = JArr fs → Forall (truthful b) fs) →
  py_iter v = Ok l → Forall (truthful b) l.
Proof.
  intros Harr. destruct v; simpl; try done.
  - intros [= <-]. apply Forall_fmap, Forall_true. intros; apply truthful_JStr.
  - intros [= <-]. by apply Harr.
  - intros [= <-]. apply Forall_fmap, Forall_true. intros; apply truthful_JStr.
Qed.

Lemma status_ok_inv resp : negb (status_code resp =? 200) = false → status_code resp = 200.
Proof. intros H. apply negb_false_iff in H. by apply Z.eqb_eq. Qed.

Lemma response_json_inv resp j : response_json resp = Ok j → json_body resp = Some j.
Proof. unfold response_json. by destruct (json_body resp); intros [= ->]. Qed.

Lemma py_getitem_inv v k x :
  py_getitem v k = Ok x → ∃ d, v = JObj d ∧ dict_get k d = Some x.
Proof.
  destruct v; simpl; try done.
  destruct (dict_get k d) eqn:E; [|done]. intros [= ->]. eauto.
Qed.

(** Every forwarder in the result of [list_forwarders] is reported
    truthfully in the state the call ends in. *)
Lemma list_forwarders_truthful depth page_size token w res :
  base_url (client w) = base → instance_id (client w) = inst →
  (list_forwarders depth page_size token w).1 = Ok res →
  page_truthful (session (list_forwarders depth page_size token w).2) res.
Proof.
  revert token w res. induction depth as [|depth IH]; intros token w res Hb Hi;
    [done|].
  simpl. munfold.
  destruct (serve (session w) _) as [resp b1] eqn:Hs. simpl.
  unfold forwarders_url in Hs. rewrite Hb, Hi in Hs.
  destruct (negb (status_code resp =? 200)) eqn:Hst; [done|].
  apply status_ok_inv in Hst.
  destruct (response_json resp) as [result|e] eqn:Hj; simpl; [|done].
  apply response_json_inv in Hj.
  assert (Hpage : page_truthful b1 result).
  { intros page fs -> Hf. apply Forall_forall. intros f Hin d n id Hn He.
    eapply honest_list; eauto. }
  destruct (py_in "nextPageToken" result) as [has|e]; simpl; [|done].
  destruct has; simpl; [|by intros [= <-]].
  destruct (py_getitem result "nextPageToken") as [next|e] eqn:Hnext; simpl;
    [|done].
  destruct (truthy next); simpl; [|by intros [= <-]].
  apply py_getitem_inv in Hnext as (d & -> & Hnext).
  match goal with
  | |- context [list_forwarders depth page_size next ?w1] =>
      specialize (IH next w1);
      destruct (list_forwarders_requests depth page_size next w1)
        as (_ & _ & _ & _ & _ & Hreach);
      destruct (list_forwarders depth page_size next w1) as [x w'] eqn:Hrun
  end.
  simpl in IH, Hreach.
  destruct x as [next_page|e]; simpl; [|done].
  specialize (IH next_page Hb Hi eq_refl).
  assert (Hd : ∀ fs, dict_get "forwarders" d = Some (JArr fs) →
                     Forall (truthful (session w')) fs).
  { intros fs Hfs. eapply Forall_impl; [by eapply Hpage|].
    intros f. by apply truthful_reaches. }
  destruct (py_in "forwarders" next_page) as [hasf|e]; simpl; [|done].
  assert (Hkeep : page_truthful (session w') (JObj (dict_pop "nextPageToken" d))).
  { intros page fs [= <-]. rewrite dict_get_pop_ne by done. apply Hd. }
  destruct hasf; simpl; [|by intros [= <-]].
  destruct (py_getitem next_page "forwarders") as [more|e] eqn:Hmore; simpl;
    [|done].
  destruct (truthy more); simpl; [|by intros [= <-]].
  destruct (dict_get "forwarders" d) as [cur|] eqn:Hcur; simpl; [|done].
  unfold py_extend.
  destruct cur as [| | | |l|]; simpl; try done.
  destruct (py_iter more) as [l'|e] eqn:Hiter; simpl; [|done].
  intros [= <-]. intros page fs [= <-].
  rewrite dict_get_pop_ne by done. rewrite dict_get_set_eq.
  intros [= <-]. apply Forall_app. split; [by apply Hd|].
  eapply py_iter_truthful; [|exact Hiter].
  intros fs ->. apply py_getitem_inv in Hmore as (d' & -> & Hmore).
  by eapply IH.
Qed.

Lemma py_eq_str_inv v s : py_eq_str v s = true → v = JStr s.
Proof.
  destruct v; simpl; try done. by intros ->%String.eqb_eq.
Qed.

Lemma scan_display_name_found display_name l f :
  scan_display_name display_name l = Ok (Some f) →
  f ∈ l ∧ py_get f "displayName" JNull = Ok (JStr display_name).
Proof.
  induction l as [|x l IH]; simpl; [done|].
  destruct (py_get x "displayName" JNull) as [dn|e] eqn:Hget; [|done].
  destruct (py_eq_str dn display_name) eqn:Heq.
  - intros [= <-]. apply py_eq_str_inv in Heq as ->.
    split; [by left|done].
  - intros [Hin Hf]%IH. split; [by right|done].
Qed.

(** What a world keeps when only requests are sent. *)
Definition sends_only (w w' : world) : Prop :=
  client w' = client w ∧ heap w' = heap w
  ∧ reaches (session w) (session w').

Lemma send_sends_only r w : sends_only w (send r w).2.
Proof.
  unfold send. destruct (serve (session w) r) as [resp b'] eqn:Hs. simpl.
  split_and!; [done|done|by eapply reaches_serve].
Qed.

Lemma list_forwarders_sends_only depth page_size token w :
  sends_only w (list_forwarders depth page_size token w).2.
Proof.
  destruct (list_forwarders_requests depth page_size token w)
    as (_ & _ & _ & ? & ? & ?).
  by split_and!.
Qed.

Lemma find_sends_only depth display_name w :
  sends_only w (_find_forwarder_by_display_name depth display_name w).2.
Proof.
  unfold _find_forwarder_by_display_name. munfold.
  pose proof (list_forwarders_sends_only depth 1000 JNull w) as H.
  destruct (list_forwarders depth 1000 JNull w) as [[res|e] w']; simpl in *.
  - destruct (py_get res "forwarders" (JArr [])) as [fwds|e]; simpl;
      [|by destruct e].
    destruct (py_iter fwds) as [els|e]; simpl; [|by destruct e].
    by destruct (scan_display_name display_name els) as [[?|]|[]].
  - by destruct e.
Qed.

Lemma find_found depth display_name w f :
  base_url (client w) = base → instance_id (client w) = inst →
  (_find_forwarder_by_display_name depth display_name w).1 = Ok (Some f) →
  py_get f "displayName" JNull = Ok (JStr display_name)
  ∧ truthful (session (_find_forwarder_by_display_name depth display_name w).2) f.
Proof.
  intros Hb Hi. unfold _find_forwarder_by_display_name. munfold.
  pose proof (list_forwarders_truthful depth 1000 JNull w) as Htr.
  destruct (list_forwarders depth 1000 JNull w) as [[res|e] w']; simpl in *;
    [|by destruct e].
  specialize (Htr res Hb Hi eq_refl).
  destruct (py_get res "forwarders" (JArr [])) as [fwds|e] eqn:Hget; simpl;
    [|by destruct e].
  destruct (py_iter fwds) as [els|e] eqn:Hiter; simpl; [|by destruct e].
  destruct (scan_display_name display_name els) as [[g|]|e] eqn:Hscan; simpl;
    [|done|by destruct e].
  intros [= ->]. apply scan_display_name_found in Hscan as [Hin Hdn].
  split; [done|].
  assert (Hall : Forall (truthful (session w')) els).
  { eapply py_iter_truthful; [|exact Hiter].
    intros fs ->. destruct res as [| | | | |page]; simpl in Hget; try done.
    destruct (dict_get "forwarders" page) eqn:Hp;
      [|injection Hget as <-; constructor].
    injection Hget as ->. by eapply Htr. }
  rewrite Forall_forall in Hall. by apply Hall.
Qed.

Lemma create_forwarder_sends_only display_name metadata uc es w :
  sends_only w (create_forwarder display_name metadata uc es w).2.
Proof.
  unfold create_forwarder. munfold.
  pose proof (send_sends_only
    (POST (forwarders_url (client w)) (create_payload display_name metadata uc es)) w)
    as H.
  unfold send in H.
  destruct (serve (session w) _) as [resp b']. simpl in *.
  by destruct (negb (status_code resp =? 200)).
Qed.

Lemma create_forwarder_created display_name metadata uc es w f n id :
  base_url (client w) = base → instance_id (client w) = inst →
  (create_forwarder display_name metadata uc es w).1 = Ok f →
  py_getitem f "name" = Ok (JStr n) → extract_forwarder_id n = Ok id →
  exists_fwd (session (create_forwarder display_name metadata uc es w).2)
    id display_name.
Proof.
  intros Hb Hi. unfold create_forwarder. munfold.
  destruct (serve (session w) _) as [resp b'] eqn:Hs. simpl.
  unfold forwarders_url in Hs. rewrite Hb, Hi in Hs.
  destruct (negb (status_code resp =? 200)) eqn:Hst; [done|].
  apply status_ok_inv in Hst. simpl.
  intros Hj%response_json_inv Hn He. eapply honest_create; eauto.
Qed.

Lemma get_forwarder_sends_only id w : sends_only w (get_forwarder id w).2.
Proof.
  unfold get_forwarder. munfold.
  pose proof (send_sends_only (GET (forwarder_url (client w) id) []) w) as H.
  unfold send in H.
  destruct (serve (session w) _) as [resp b']. simpl in *.
  by destruct (negb (status_code resp =? 200)).
Qed.

Lemma extract_forwarder_id_of_inv v id :
  extract_forwarder_id_of v = Ok id → ∃ n, v = JStr n ∧ extract_forwarder_id n = Ok id.
Proof.
  destruct v; simpl; try done; try (by case_match); eauto.
Qed.

(** The same client but for the cache slot. *)
Definition same_config (c c' : ChronicleClient) : Prop :=
  set_cached_id c' None = set_cached_id c None.

Lemma same_config_fields c c' :
  same_config c c' →
  base_url c' = base_url c ∧ instance_id c' = instance_id c
  ∧ _default_forwarder_display_name c' = _default_forwarder_display_name c.
Proof. unfold same_config, set_cached_id. intros [= -> -> _ _ _ ->]. done. Qed.

(** [cache_if_default] leaves the cache alone, or stores the ID the
    forwarder's resource name ends in; the latter only when resolving the
    default name. *)
Lemma cache_if_default_spec is_default f w :
  let w' := (cache_if_default is_default f w).2 in
  session w' = session w ∧ heap w' = heap w ∧ same_config (client w) (client w')
  ∧ (client w' = client w
     ∨ is_default = true
       ∧ ∃ n id, py_getitem f "name" = Ok (JStr n)
                 ∧ extract_forwarder_id n = Ok id
                 ∧ _cached_default_forwarder_id (client w') = Some id).
Proof.
  unfold cache_if_default. destruct is_default; simpl; [|by split_and!; [..|left]].
  munfold.
  destruct (py_getitem f "name") as [name|e] eqn:Hname; simpl;
    [|by split_and!; [..|left]].
  destruct (extract_forwarder_id_of name) as [id|e] eqn:Hid; simpl;
    [|by split_and!; [..|left]].
  apply extract_forwarder_id_of_inv in Hid as (n & -> & Hid).
  split_and!; [done|done|done|]. right. split; [done|]. by exists n, id.
Qed.

Lemma catch_APIError_world {A} (m : M A) (h : string → M A) w :
  (∀ msg w', (h msg w').2 = w') → (catch_APIError m h w).2 = (m w).2.
Proof.
  intros Hh. unfold catch_APIError.
  destruct (m w) as [[a|e] w']; [done|]. destruct e; simpl; auto.
Qed.

Lemma cache_ok_sends_only w w' : sends_only w w' → cache_ok w → cache_ok w'.
Proof.
  intros (Hc & _ & Hr) Hok id. rewrite Hc. intros Hid.
  eapply exists_fwd_reaches; [exact Hr|]. by apply Hok.
Qed.

(** Caching the ID of a forwarder that exists under the target display
    name keeps the invariant. *)
Lemma cache_if_default_ok is_default f target w :
  (is_default = true → target = _default_forwarder_display_name (client w)) →
  (∀ n id, py_getitem f "name" = Ok (JStr n) → extract_forwarder_id n = Ok id →
           exists_fwd (session w) id target) →
  cache_ok w →
  let w' := (cache_if_default is_default f w).2 in
  cache_ok w' ∧ same_config (client w) (client w')
  ∧ (is_default = false → client w' = client w).
Proof.
  intros Hdef Hex Hok.
  destruct (cache_if_default_spec is_default f w) as (Hs & Hh & Hcfg & Hcase).
  simpl. split_and!.
  - destruct Hcase as [Hc|(Htrue & n & id & Hn & He & Hcache)].
    + intros id. rewrite Hc, Hs. apply Hok.
    + intros id'. rewrite Hcache. intros [= <-]. rewrite Hs.
      apply same_config_fields in Hcfg as (_ & _ & ->).
      rewrite <-(Hdef Htrue). by eapply Hex.
  - done.
  - intros ->. by destruct Hcase as [Hc|[? _]].
Qed.

Lemma find_or_create_cache depth target is_default w :
  base_url (client w) = base → instance_id (client w) = inst →
  (is_default = true → target = _default_forwarder_display_name (client w)) →
  cache_ok w →
  let w' := (find_or_create depth target is_default w).2 in
  cache_ok w' ∧ same_config (client w) (client w')
  ∧ (is_default = false → client w' = client w).
Proof.
  intros Hb Hi Hdef Hok. simpl. unfold find_or_create.
  rewrite catch_APIError_world by (intros; by case_match).
  munfold.
  pose proof (find_sends_only depth target w) as Hfs.
  pose proof (find_found depth target w) as Hff.
  destruct (_find_forwarder_by_display_name depth target w) as [[found|e] w1];
    simpl in *.
  2:{ destruct Hfs as (Hc1 & Hh1 & Hr1).
      split_and!; [by eapply cache_ok_sends_only|by rewrite Hc1|done]. }
  pose proof Hfs as (Hc1 & Hh1 & Hr1).
  assert (Hok1 : cache_ok w1) by by eapply cache_ok_sends_only.
  destruct found as [f|].
  - destruct (Hff f Hb Hi eq_refl) as [Hdn Htr].
    destruct (cache_if_default_ok is_default f target w1)
      as (Hok2 & Hcfg & Hnd); [by rewrite Hc1| |done|].
    { intros n id Hn He. by eapply Htr. }
    rewrite Hc1 in Hcfg.
    destruct (cache_if_default is_default f w1) as [[[]|e] w2]; simpl in *;
      (split_and!; [done|done|intros H; by rewrite (Hnd H)]).
  - pose proof (create_forwarder_sends_only target None false false w1) as Hcs.
    pose proof (create_forwarder_created target None false false w1) as Hcc.
    destruct (create_forwarder target None false false w1) as [[created|e] w2];
      simpl in *.
    2:{ destruct Hcs as (Hc2 & Hh2 & Hr2).
        split_and!; [by eapply cache_ok_sends_only
                    |by rewrite Hc2, Hc1|by rewrite Hc2]. }
    pose proof Hcs as (Hc2 & Hh2 & Hr2).
    assert (Hok2 : cache_ok w2) by by eapply cache_ok_sends_only.
    destruct (cache_if_default_ok is_default created target w2)
      as (Hok3 & Hcfg & Hnd); [by rewrite Hc2, Hc1| |done|].
    { intros n id Hn He. eapply Hcc; eauto; by rewrite Hc1. }
    rewrite Hc2, Hc1 in Hcfg.
    destruct (cache_if_default is_default created w2) as [[[]|e] w3]; simpl in *;
      (split_and!; [done|done|intros H; by rewrite (Hnd H), Hc2]).
Qed.

Lemma py_eq_str_false v s : v ≠ JStr s → py_eq_str v s = false.
Proof.
  intros Hne. destruct v; simpl; try done.
  apply String.eqb_neq. congruence.
Qed.

(** The world after a failed look-up through the cache: the slot is
    cleared. *)
Definition cleared (w : world) : world :=
  with_client w (set_cached_id (client w) None).

(** C3. The cache slot is empty or holds the ID of an existing forwarder
    whose display name is the default one, and every execution of
    [get_or_create_forwarder] against a truthful backend preserves this,
    whatever its outcome. With a warm cache and the default name as target
    it returns the directly fetched forwarder when its [displayName] is the
    default one, leaving the slot as it is; on a mismatch, and when the get
    fails with [APIError], it clears the slot and continues with the
    search-or-create path. It writes the slot only when the target is the
    default name. *)
Theorem get_or_create_forwarder_cache (depth : nat) (display_name : option string)
    (w : world) :
  base_url (client w) = base → instance_id (client w) = inst →
  cache_ok w →
  let c := client w in
  let default_name := _default_forwarder_display_name c in
  let target := target_of c display_name in
  let w' := (get_or_create_forwarder depth display_name w).2 in
  cache_ok w'
  ∧ same_config c (client w')
  ∧ (target ≠ default_name → client w' = c)
  ∧ (∀ cached f,
       target = default_name → cached_id_truthy c = Some cached →
       (get_forwarder cached w).1 = Ok f →
       py_get f "displayName" JNull = Ok (JStr default_name) →
       get_or_create_forwarder depth display_name w
       = (Ok f, (get_forwarder cached w).2)
       ∧ client (get_forwarder cached w).2 = c)
  ∧ (∀ cached,
       target = default_name → cached_id_truthy c = Some cached →
       (∃ msg, (get_forwarder cached w).1 = Raise (APIError msg))
       ∨ (∃ f dn, (get_forwarder cached w).1 = Ok f
                  ∧ py_get f "displayName" JNull = Ok dn
                  ∧ dn ≠ JStr default_name) →
       get_or_create_forwarder depth display_name w
       = find_or_create depth target true (cleared (get_forwarder cached w).2)).
Proof.
  intros Hb Hi Hok c default_name target w'.
  assert (Hmain : cache_ok w' ∧ same_config c (client w')
                  ∧ (target ≠ default_name → client w' = c)).
  { subst w'. unfold get_or_create_forwarder. munfold.
    fold c. fold target. fold default_name.
    destruct (String.eqb target default_name) eqn:Heq.
    - apply String.eqb_eq in Heq.
      destruct (cached_id_truthy c) as [cached|] eqn:Hcached.
      + pose proof (get_forwarder_sends_only cached w) as Hg.
        destruct (get_forwarder cached w) as [out w1]. simpl in *.
        pose proof Hg as (Hc1 & Hh1 & Hr1).
        assert (Hok1 : cache_ok w1) by by eapply cache_ok_sends_only.
        assert (Hfall :
          let w2 := (find_or_create depth target true (cleared w1)).2 in
          cache_ok w2 ∧ same_config c (client w2)
          ∧ (target ≠ default_name → client w2 = c)).
        { destruct (find_or_create_cache depth target true (cleared w1))
            as (Hok2 & Hcfg & _).
          - simpl. by rewrite Hc1.
          - simpl. by rewrite Hc1.
          - intros _. simpl. by rewrite Hc1.
          - by intros id.
          - simpl. split_and!; [done| |done].
            unfold same_config in *. rewrite Hcfg. simpl. by rewrite Hc1. }
        destruct out as [f|e]; simpl.
        * destruct (py_get f "displayName" JNull) as [dn|e]; simpl;
            [|by rewrite Hc1].
          destruct (py_eq_str dn default_name); simpl; [by rewrite Hc1|].
          apply Hfall.
        * destruct e; simpl; try by rewrite Hc1. apply Hfall.
      + destruct (find_or_create_cache depth target true w) as (? & ? & _);
          try done.
    - apply String.eqb_neq in Heq.
      destruct (find_or_create_cache depth target false w) as (? & ? & Hnd);
        try done.
      split_and!; [done|done|]. intros _. by apply Hnd. }
  destruct Hmain as (H1 & H2 & H3). split_and!; try done.
  - intros cached f Ht Hcached Hget Hdn.
    pose proof (get_forwarder_sends_only cached w) as (Hc1 & _).
    split; [|done].
    unfold get_or_create_forwarder. munfold.
    fold c. fold target. fold default_name.
    rewrite Ht, String.eqb_refl, Hcached.
    destruct (get_forwarder cached w) as [out w1]. simpl in *. subst out.
    rewrite Hdn. simpl. by rewrite String.eqb_refl.
  - intros cached Ht Hcached Hcase.
    unfold get_or_create_forwarder. munfold.
    fold c. fold target. fold default_name.
    rewrite Ht, String.eqb_refl, Hcached.
    destruct (get_forwarder cached w) as [out w1]. simpl in *.
    destruct Hcase as [[msg ->]|(f & dn & -> & Hdn & Hne)]; [done|].
    rewrite Hdn. simpl. by rewrite (py_eq_str_false _ _ Hne).
Qed.

End Cache.

(** ** Which exceptions a computation can raise *)

Definition raises_only {A} (P : exn → Prop) (m : M A) : Prop :=
  ∀ w e, (m w).1 = Raise e → P e.

Section RaisesOnly.

Variable P : exn → Prop.

Lemma raises_only_ret {A} (a : A) : raises_only P (mret a).
Proof. by intros w e. Qed.

Lemma raises_only_raise {A} e : P e → raises_only P (raise (A:=A) e).
Proof. intros He w e'. by intros [= <-]. Qed.

Lemma raises_only_lift {A} (r : result A) :
  (∀ e, r = Raise e → P e) → raises_only P (lift r).
Proof. intros H w e. simpl. apply H. Qed.

Lemma raises_only_bind {A C} (m : M A) (k : A → M C) :
  raises_only P m → (∀ a, raises_only P (k a)) → raises_only P (m ≫= k).
Proof.
  intros Hm Hk w e. unfold mbind, M_bind, bind.
  specialize (Hm w). destruct (m w) as [[a|e'] w']; simpl in *.
  - apply Hk.
  - intros [= <-]. by apply Hm.
Qed.

Lemma raises_only_catch {A} (m : M A) (h : string → M A) :
  raises_only P m → (∀ msg, raises_only P (h msg)) →
  raises_only P (catch_APIError m h).
Proof.
  intros Hm Hh w e. unfold catch_APIError.
  specialize (Hm w). destruct (m w) as [[a|e'] w']; simpl in *; [done|].
  destruct e'; simpl; try (intros [= <-]; by apply Hm). apply Hh.
Qed.

Lemma raises_only_send {A} r (k : response → M A) :
  (∀ resp, raises_only P (k resp)) → raises_only P (send r ≫= k).
Proof.
  intros Hk w e. unfold mbind, M_bind, bind, send.
  destruct (serve (session w) r) as [resp b]. apply Hk.
Qed.

Lemma raises_only_get_client {A} (k : ChronicleClient → M A) :
  (∀ c, raises_only P (k c)) → raises_only P (get_client ≫= k).
Proof. intros Hk w e. unfold mbind, M_bind, bind, get_client. apply Hk. Qed.

End RaisesOnly.

(** The failure of the time-order check, line 325. *)
Definition time_order_error : exn :=
  ValueError "Collection time must be same or after log entry time".

(** An exception other than the failure of the time-order check. *)
Definition other_error (e : exn) : Prop := e ≠ time_order_error.

(** The exceptions of the dynamic operations: anything but an [APIError]
    and the failure of the time-order check. *)
Definition local_error (e : exn) : Prop :=
  match e with
  | APIError _ => False
  | ValueError msg => ValueError msg ≠ time_order_error
  | _ => True
  end.

Lemma local_error_other e : local_error e → other_error e.
Proof. unfold other_error. destruct e; simpl; try done. Qed.

Lemma local_error_not_api {A} e : local_error e → is_APIError (A:=A) (Raise e) = false.
Proof. by destruct e. Qed.

Lemma local_error_response_json resp e :
  response_json resp = Raise e → local_error e.
Proof. unfold response_json. destruct (json_body resp); [done|]. by intros [= <-]. Qed.

Lemma local_error_py_in k v e : py_in k v = Raise e → local_error e.
Proof. destruct v; simpl; try done; by intros [= <-]. Qed.

Lemma local_error_py_getitem v k e : py_getitem v k = Raise e → local_error e.
Proof.
  destruct v; simpl; try (by intros [= <-]).
  destruct (dict_get k d); [done|]. by intros [= <-].
Qed.

Lemma local_error_py_get v k dflt e : py_get v k dflt = Raise e → local_error e.
Proof. destruct v; simpl; try done; by intros [= <-]. Qed.

Lemma local_error_py_iter v e : py_iter v = Raise e → local_error e.
Proof. destruct v; simpl; try done; by intros [= <-]. Qed.

Lemma local_error_py_extend xs ys e : py_extend xs ys = Raise e → local_error e.
Proof.
  destruct xs; simpl; try (by intros [= <-]).
  destruct (py_iter ys) eqn:E; [done|]. intros [= <-].
  by eapply local_error_py_iter.
Qed.

Lemma local_error_scan display_name l e :
  scan_display_name display_name l = Raise e → local_error e.
Proof.
  induction l as [|x l IH]; simpl; [done|].
  destruct (py_get x "displayName" JNull) eqn:E.
  - by case_match.
  - intros [= <-]. by eapply local_error_py_get.
Qed.

Lemma local_error_extract v e :
  extract_forwarder_id_of v = Raise e → local_error e.
Proof.
  assert (H : ∀ s, extract_forwarder_id s = Raise e → local_error e).
  { intros s. unfold extract_forwarder_id.
    repeat case_match; try done; by intros [= <-]. }
  destruct v; simpl; try apply H; try case_match; by intros [= <-].
Qed.

(** One step of a proof that a computation raises only exceptions in [P],
    where [conv] says that local errors are in [P]. *)
Ltac raises_step_with conv :=
  first
    [ apply raises_only_get_client; intros ?
    | apply raises_only_send; intros ?
    | apply raises_only_ret
    | apply raises_only_raise; done
    | apply raises_only_lift; intros ? ?; apply conv;
      first [ eapply local_error_response_json; eassumption
            | eapply local_error_py_in; eassumption
            | eapply local_error_py_getitem; eassumption
            | eapply local_error_py_get; eassumption
            | eapply local_error_py_iter; eassumption
            | eapply local_error_py_extend; eassumption
            | eapply local_error_scan; eassumption
            | eapply local_error_extract; eassumption ]
    | apply raises_only_bind; [|intros ?]
    | apply raises_only_catch; [|intros ?] ].

Ltac raises_step := raises_step_with local_error_other.

Lemma other_error_list_forwarders depth page_size token :
  raises_only other_error (list_forwarders depth page_size token).
Proof.
  revert token. induction depth as [|depth IH]; intros token; simpl.
  - by apply raises_only_raise.
  - repeat (raises_step || case_match || apply IH).
Qed.

Lemma other_error_create display_name metadata uc es :
  raises_only other_error (create_forwarder display_name metadata uc es).
Proof. unfold create_forwarder. repeat (raises_step || case_match). Qed.

Lemma other_error_get_forwarder id : raises_only other_error (get_forwarder id).
Proof. unfold get_forwarder. repeat (raises_step || case_match). Qed.

Lemma other_error_find_or_create depth target is_default :
  raises_only other_error (find_or_create depth target is_default).
Proof.
  unfold find_or_create, _find_forwarder_by_display_name, cache_if_default.
  repeat (raises_step || case_match || apply other_error_list_forwarders
          || apply other_error_create).
Qed.

Lemma other_error_get_or_create depth display_name :
  raises_only other_error (get_or_create_forwarder depth display_name).
Proof.
  unfold get_or_create_forwarder.
  apply raises_only_get_client. intros c.
  case_match; [|apply other_error_find_or_create].
  intros w e. unfold mbind, M_bind, bind, attempt.
  pose proof (other_error_get_forwarder s w) as Hg.
  destruct (get_forwarder s w) as [[f|e'] w1]; simpl in *.
  - revert w1 e. change (raises_only other_error
      (dn ← lift (py_get f "displayName" JNull);
       if py_eq_str dn (_default_forwarder_display_name c) then mret f
       else set_cache None;;
            find_or_create depth (target_of c display_name)
              (String.eqb (target_of c display_name)
                 (_default_forwarder_display_name c)))).
    repeat (raises_step || case_match || apply other_error_find_or_create
            || apply other_error_list_forwarders || apply other_error_create).
  - destruct e'; simpl; try (intros [= <-]; by apply Hg).
    apply other_error_find_or_create.
Qed.

(** ** Log ingestion: the time-order check *)

(** The reading [datetime.now()] returns in [w], and [w] after it. *)
Definition now_of (w : world) : datetime :=
  {| fields := datetime_now (clock_reads w); tzinfo := None; zone := None |}.

Definition ticked (w : world) : world :=
  {| client := client w; session := session w; requests := requests w;
     heap := heap w; clock_reads := S (clock_reads w);
     uuid_draws := uuid_draws w |}.

Lemma bind_read_clock {A} (k : datetime → M A) w :
  (read_clock ≫= k) w = k (now_of w) (ticked w).
Proof. reflexivity. Qed.

Lemma bind_lift_ok {A C} (a : A) (k : A → M C) w : (lift (Ok a) ≫= k) w = k a w.
Proof. reflexivity. Qed.

Lemma bind_lift_raise {A C} e (k : A → M C) w :
  (lift (Raise e) ≫= k) w = (Raise e, w).
Proof. reflexivity. Qed.

Lemma bind_ret {A C} (a : A) (k : A → M C) w : (ret a ≫= k) w = k a w.
Proof. reflexivity. Qed.

Lemma bind_get_client {A} (k : ChronicleClient → M A) w :
  (get_client ≫= k) w = k (client w) w.
Proof. reflexivity. Qed.

Lemma bind_send {A} r (k : response → M A) w :
  (send r ≫= k) w
  = k (serve (session w) r).1
      {| client := client w; session := (serve (session w) r).2;
         requests := requests w ++ [r]; heap := heap w;
         clock_reads := clock_reads w; uuid_draws := uuid_draws w |}.
Proof.
  unfold mbind, M_bind, bind, send. by destruct (serve (session w) r).
Qed.

Lemma civil_ltb_irrefl c : civil_ltb c c = false.
Proof.
  unfold civil_ltb. by rewrite !Z.ltb_irrefl, !Z.eqb_refl.
Qed.

Lemma datetime_lt_naive_irrefl c :
  datetime_lt {| fields := c; tzinfo := None; zone := None |}
    {| fields := c; tzinfo := None; zone := None |}
  = Ok false.
Proof. unfold datetime_lt. simpl. by rewrite civil_ltb_irrefl. Qed.

Lemma datetime_lt_now w : datetime_lt (now_of w) (now_of w) = Ok false.
Proof. apply datetime_lt_naive_irrefl. Qed.

(** How [<] decides for two aware values: by the wall clock when they
    share their [tzinfo] object, whatever the offsets are. *)
Lemma datetime_lt_same_zone a b z :
  zone a = Some z → zone b = Some z →
  datetime_lt a b = Ok (civil_ltb (fields a) (fields b)).
Proof.
  intros Ha Hb. unfold datetime_lt, same_tzinfo.
  by rewrite Ha, Hb, Nat.eqb_refl.
Qed.

(** Each timestamp left unspecified takes, on its own, the one reading of
    the clock. *)
Lemma ingest_log_defaults depth log_type log_message log_entry_time
    collection_time namespace labels forwarder_id force_log_type w :
  ingest_log depth log_type log_message log_entry_time collection_time
    namespace labels forwarder_id force_log_type w
  = ingest_log depth log_type log_message
      (Some (default (now_of w) log_entry_time))
      (Some (default (now_of w) collection_time))
      namespace labels forwarder_id force_log_type w.
Proof.
  unfold ingest_log.
  destruct (negb (is_valid_log_type log_type) && negb force_log_type);
    [done|].
  by rewrite !bind_read_clock.
Qed.

Lemma ingest_log_before depth log_type log_message log_entry_time
    collection_time namespace labels forwarder_id force_log_type w :
  datetime_lt (default (now_of w) collection_time)
    (default (now_of w) log_entry_time) = Ok true →
  let r := ingest_log depth log_type log_message log_entry_time
             collection_time namespace labels forwarder_id force_log_type w in
  (∃ msg, r.1 = Raise (ValueError msg))
  ∧ requests r.2 = requests w ∧ session r.2 = session w.
Proof.
  intros Hlt. simpl. unfold ingest_log.
  destruct (negb (is_valid_log_type log_type) && negb force_log_type).
  - simpl. eauto.
  - rewrite bind_read_clock. rewrite Hlt, bind_lift_ok. simpl. eauto.
Qed.

(** C4 (as the code has it). When the collection time compares below the
    log entry time under [<], [ingest_log] raises [ValueError] (the
    spec's InvalidArgument) and no request has been sent: the record of
    requests and the backend are as before the call. Two aware values that
    share their [tzinfo] object are compared by their wall clock fields,
    not by their instants. Each timestamp left unspecified takes, on its
    own, the one reading of the clock: with both unspecified the check does
    not fire and the call never ends in its failure; with one unspecified
    the other is checked against that reading, and the call fails when the
    supplied log entry time is after it or the supplied collection time is
    before it. With a valid or forced log type the call ends in the
    failure of the check exactly when [<] holds of the two times so
    completed. *)
Theorem ingest_log_time_order (depth : nat) (log_type : string)
    (log_message : log_message) (namespace : option string)
    (labels : option (list (string * string))) (forwarder_id : option string)
    (force_log_type : bool) (w : world) :
  (∀ log_entry_time collection_time,
     datetime_lt collection_time log_entry_time = Ok true →
     let r := ingest_log depth log_type log_message (Some log_entry_time)
                (Some collection_time) namespace labels forwarder_id
                force_log_type w in
     (∃ msg, r.1 = Raise (ValueError msg))
     ∧ requests r.2 = requests w ∧ session r.2 = session w)
  ∧ (∀ a b z,
       zone a = Some z → zone b = Some z →
       datetime_lt a b = Ok (civil_ltb (fields a) (fields b)))
  ∧ (∀ log_entry_time collection_time,
       ingest_log depth log_type log_message log_entry_time collection_time
         namespace labels forwarder_id force_log_type w
       = ingest_log depth log_type log_message
           (Some (default (now_of w) log_entry_time))
           (Some (default (now_of w) collection_time))
           namespace labels forwarder_id force_log_type w)
  ∧ (datetime_lt (now_of w) (now_of w) = Ok false
     ∧ (ingest_log depth log_type log_message None None namespace labels
          forwarder_id force_log_type w).1 ≠ Raise time_order_error)
  ∧ (∀ log_entry_time,
       datetime_lt (now_of w) log_entry_time = Ok true →
       let r := ingest_log depth log_type log_message (Some log_entry_time)
                  None namespace labels forwarder_id force_log_type w in
       (∃ msg, r.1 = Raise (ValueError msg))
       ∧ requests r.2 = requests w ∧ session r.2 = session w)
  ∧ (∀ collection_time,
       datetime_lt collection_time (now_of w) = Ok true →
       let r := ingest_log depth log_type log_message None
                  (Some collection_time) namespace labels forwarder_id
                  force_log_type w in
       (∃ msg, r.1 = Raise (ValueError msg))
       ∧ requests r.2 = requests w ∧ session r.2 = session w)
  ∧ (is_valid_log_type log_type || force_log_type = true →
     ∀ log_entry_time collection_time,
       (ingest_log depth log_type log_message log_entry_time collection_time
          namespace labels forwarder_id force_log_type w).1
       = Raise time_order_error
       ↔ datetime_lt (default (now_of w) collection_time)
           (default (now_of w) log_entry_time) = Ok true).
Proof.
  assert (Hrest : ∀ et ct,
    datetime_lt ct et ≠ Ok true →
    is_valid_log_type log_type || force_log_type = true →
    (ingest_log depth log_type log_message (Some et) (Some ct) namespace labels
       forwarder_id force_log_type w).1 ≠ Raise time_order_error).
  { intros et ct Hlt Hvalid. unfold ingest_log.
    replace (negb (is_valid_log_type log_type) && negb force_log_type)
      with false
      by (destruct (is_valid_log_type log_type), force_log_type; done).
    rewrite bind_read_clock. simpl default.
    destruct (datetime_lt ct et) as [[]|e] eqn:Hcmp; [done| |].
    - rewrite bind_lift_ok.
      match goal with
      | |- (?m ?w1).1 ≠ _ => assert (Hother : raises_only other_error m)
      end.
      { repeat (apply other_error_get_or_create || raises_step || case_match). }
      intros Hr. by apply (Hother _ _ Hr).
    - rewrite bind_lift_raise. simpl. intros [= ->].
      revert Hcmp. unfold datetime_lt. by repeat case_match. }
  split_and!.
  - intros et ct Hlt. by apply ingest_log_before.
  - apply datetime_lt_same_zone.
  - intros et ct. apply ingest_log_defaults.
  - apply datetime_lt_now.
  - destruct (is_valid_log_type log_type || force_log_type) eqn:Hvalid.
    + rewrite ingest_log_defaults. simpl default.
      apply Hrest; [|done]. by rewrite datetime_lt_now.
    + unfold ingest_log.
      replace (negb (is_valid_log_type log_type) && negb force_log_type)
        with true
        by (destruct (is_valid_log_type log_type), force_log_type; done).
      done.
  - intros et Hlt. by apply ingest_log_before.
  - intros ct Hlt. by apply ingest_log_before.
  - intros Hvalid et ct. rewrite ingest_log_defaults.
    set (et' := default (now_of w) et). set (ct' := default (now_of w) ct).
    split.
    + intros Hr. destruct (datetime_lt ct' et') as [[]|e] eqn:Hcmp; [done|..];
        exfalso; (eapply Hrest; [|done|exact Hr]); by rewrite Hcmp.
    + intros Hlt. unfold ingest_log.
      replace (negb (is_valid_log_type log_type) && negb force_log_type)
        with false
        by (destruct (is_valid_log_type log_type), force_log_type; done).
      rewrite bind_read_clock. simpl default. by rewrite Hlt, bind_lift_ok.
Qed.

(** ** Log ingestion: the import request *)

(** The import request of a call whose forwarder is given. *)
Definition import_request (c : ChronicleClient) (log_type : string)
    (log_message : log_message) (log_entry_time collection_time : datetime)
    (namespace : option string) (labels : option (list (string * string)))
    (forwarder_id : string) : request :=
  POST (import_logs_url c log_type)
    (import_logs_payload
       (log_entry (strftime_wire log_entry_time) (strftime_wire collection_time)
          namespace labels <$> messages_of log_message)
       (forwarder_resource_of c forwarder_id)).

(** A call that passes the two checks and is given its forwarder reads the
    clock, sends the import request and decides on the status of the
    response. *)
Lemma ingest_log_sends depth log_type log_message log_entry_time collection_time
    namespace labels forwarder_id force_log_type w :
  is_valid_log_type log_type || force_log_type = true →
  let et := default (now_of w) log_entry_time in
  let ct := default (now_of w) collection_time in
  datetime_lt ct et = Ok false →
  let req := import_request (client w) log_type log_message et ct namespace
               labels forwarder_id in
  let resp := (serve (session w) req).1 in
  ingest_log depth log_type log_message log_entry_time collection_time namespace
    labels (Some forwarder_id) force_log_type w
  = (if negb (status_code resp =? 200)
     then Raise (APIError ("Failed to ingest log: " +:+ text resp))
     else response_json resp,
     {| client := client w; session := (serve (session w) req).2;
        requests := requests w ++ [req]; heap := heap w;
        clock_reads := S (clock_reads w); uuid_draws := uuid_draws w |}).
Proof.
  intros Hvalid et ct Hlt req resp. unfold ingest_log.
  replace (negb (is_valid_log_type log_type) && negb force_log_type) with false
    by (destruct (is_valid_log_type log_type), force_log_type; done).
  rewrite bind_read_clock. fold et. fold ct. rewrite Hlt, bind_lift_ok.
  rewrite bind_ret, bind_get_client. unfold session_post.
  rewrite bind_send. subst req resp. unfold import_request.
  cbn [ticked client session requests heap clock_reads uuid_draws].
  by case_match.
Qed.

(** C10. [ingest_log] accepts an empty list of log messages: with a valid
    or forced log type, timestamps in order and a forwarder ID, it sends
    exactly one request, the import request whose [logs] list is empty, and
    on a successful response returns the decoded body. [ingest_udm], in
    contrast, rejects an empty list of events with [ValueError] and sends
    nothing. *)
Theorem ingest_log_empty_list (depth : nat) (log_type : string)
    (log_entry_time collection_time : option datetime)
    (namespace : option string) (labels : option (list (string * string)))
    (forwarder_id : string) (force_log_type : bool) (w : world) :
  is_valid_log_type log_type || force_log_type = true →
  datetime_lt (default (now_of w) collection_time)
    (default (now_of w) log_entry_time) = Ok false →
  let req := POST (import_logs_url (client w) log_type)
               (import_logs_payload []
                  (forwarder_resource_of (client w) forwarder_id)) in
  let resp := (serve (session w) req).1 in
  let r := ingest_log depth log_type (Many []) log_entry_time collection_time
             namespace labels (Some forwarder_id) force_log_type w in
  requests r.2 = requests w ++ [req]
  ∧ (∀ body, status_code resp = 200 → json_body resp = Some body → r.1 = Ok body)
  ∧ (∀ l add_missing_ids,
       heap w !! l = Some (HList []) →
       ingest_udm depth (PRef l) add_missing_ids w
       = (Raise (ValueError "No UDM events provided"), w)).
Proof.
  intros Hvalid Hlt req resp r. subst r.
  rewrite (ingest_log_sends _ _ _ _ _ _ _ _ _ _ Hvalid Hlt).
  unfold import_request.
  change (log_entry _ _ _ _ <$> messages_of (Many [])) with (@nil json).
  fold req. fold resp. cbn [fst snd requests].
  split_and!.
  - done.
  - intros body Hst Hj. rewrite Hst. simpl.
    unfold response_json. by rewrite Hj.
  - intros l add Hl. unfold ingest_udm, prepare_events. munfold. simpl.
    rewrite Hl. simpl. rewrite Hl. by destruct w.
Qed.

(** ** The wire format of timestamps *)

Lemma digit_val_char q : 0 ≤ q ≤ 9 → digit_val (digit_char q) = Some q.
Proof.
  intros Hq.
  assert (q = 0 ∨ q = 1 ∨ q = 2 ∨ q = 3 ∨ q = 4 ∨ q = 5 ∨ q = 6 ∨ q = 7
          ∨ q = 8 ∨ q = 9) as Hcases by lia.
  repeat destruct Hcases as [->|Hcases]; try subst q; reflexivity.
Qed.

Lemma read_digits_pad width n acc rest :
  0 ≤ n < 10 ^ Z.of_nat width →
  read_digits width acc (pad width n +:+ rest)
  = Some (acc * 10 ^ Z.of_nat width + n, rest).
Proof.
  revert n acc. induction width as [|w IH]; intros n acc Hn.
  - simpl in *. f_equal. f_equal. lia.
  - rewrite Nat2Z.inj_succ, Z.pow_succ_r in * by lia.
    set (p := 10 ^ Z.of_nat w) in *.
    assert (0 < p) by (apply Z.pow_pos_nonneg; lia).
    cbn [pad read_digits String.append]. fold p.
    assert (0 ≤ n / p ≤ 9) as Hq.
    { split; [apply Z.div_pos; lia|].
      assert (n / p < 10); [apply Z.div_lt_upper_bound; lia|lia]. }
    rewrite (digit_val_char _ Hq).
    rewrite IH by (apply Z.mod_pos_bound; lia).
    fold p. f_equal. f_equal.
    pose proof (Z.div_mod n p ltac:(lia)). lia.
Qed.

Lemma expect_app c rest : expect c (String c "" +:+ rest) = Some rest.
Proof. simpl. by rewrite Ascii.eqb_refl. Qed.

Lemma days_in_month_le y m : days_in_month y m ≤ 31.
Proof. unfold days_in_month. repeat case_match; lia. Qed.

Lemma valid_civil_bounds c :
  valid_civil c = true →
  0 ≤ year c < 10 ^ 4 ∧ 0 ≤ month c < 10 ^ 2 ∧ 0 ≤ day c < 10 ^ 2
  ∧ 0 ≤ hour c < 10 ^ 2 ∧ 0 ≤ minute c < 10 ^ 2 ∧ 0 ≤ second c < 10 ^ 2
  ∧ 0 ≤ microsecond c < 10 ^ 6.
Proof.
  unfold valid_civil. rewrite !andb_true_iff, !Z.leb_le, !Z.ltb_lt.
  pose proof (days_in_month_le (year c) (month c)). lia.
Qed.

Lemma year_str_four y : 1000 ≤ y → year_str y = pad 4 y.
Proof.
  intros Hy. unfold year_str.
  destruct (Z.ltb_spec y 10); [lia|].
  destruct (Z.ltb_spec y 100); [lia|].
  by destruct (Z.ltb_spec y 1000); [lia|].
Qed.

Lemma pad_length width n : String.length (pad width n) = width.
Proof. revert n. induction width as [|w IH]; intros n; simpl; [done|]. by rewrite IH. Qed.

Lemma str_app_length s t :
  String.length (s +:+ t) = (String.length s + String.length t)%nat.
Proof. induction s as [|a s IH]; simpl; [done|]. by rewrite IH. Qed.

Lemma year_str_length y :
  String.length (year_str y)
  = if y <? 10 then 1%nat else if y <? 100 then 2%nat
    else if y <? 1000 then 3%nat else 4%nat.
Proof. unfold year_str. repeat case_match; by rewrite pad_length. Qed.

(** The text of a timestamp is the digits of its year and 23 characters
    more. *)
Lemma strftime_wire_length dt :
  String.length (strftime_wire dt)
  = (String.length (year_str (year (fields dt))) + 23)%nat.
Proof.
  unfold strftime_wire, time_str. rewrite !str_app_length, !pad_length.
  simpl. lia.
Qed.

(** A formatted timestamp with a year of four digits reads back as the
    fields it was formatted from: it has exactly the form
    [YYYY-MM-DDTHH:MM:SS.ffffffZ]. *)
Lemma parse_wire_strftime dt :
  valid_civil (fields dt) = true → 1000 ≤ year (fields dt) →
  parse_wire (strftime_wire dt) = Some (fields dt).
Proof.
  intros (Hy & Hmo & Hd & Hh & Hmi & Hs & Hus)%valid_civil_bounds Hy4.
  unfold strftime_wire, time_str, parse_wire.
  rewrite (year_str_four _ Hy4).
  rewrite !str_app_assoc.
  repeat (first [ rewrite (read_digits_pad 4) by exact Hy
                | rewrite (read_digits_pad 6) by exact Hus
                | rewrite (read_digits_pad 2) by assumption
                | rewrite expect_app ];
          cbn [mbind option_bind]).
  by destruct (fields dt).
Qed.

Lemma wire_instant_strftime dt :
  valid_civil (fields dt) = true → 1000 ≤ year (fields dt) →
  wire_instant (strftime_wire dt) = Some (instant_at 0 (fields dt)).
Proof. intros H H4. unfold wire_instant. by rewrite parse_wire_strftime. Qed.

(** C7 (as the code has it). [ingest_log] puts both timestamps on the wire
    as [strftime] prints the [datetime]'s own calendar and clock fields,
    with microsecond precision and a literal [Z]: no conversion to UTC
    takes place. For a year of four digits the text has exactly the form
    [YYYY-MM-DDTHH:MM:SS.ffffffZ], and it denotes the instant of the
    [datetime] exactly when the UTC offset that applies to it (its own, or
    the local one for a naive value) is zero. For a year below 1000 the
    year is printed without padding and the text is shorter than the
    form. *)
Theorem ingest_log_wire_timestamps (depth : nat) (log_type : string)
    (log_message : log_message) (log_entry_time collection_time : option datetime)
    (namespace : option string) (labels : option (list (string * string)))
    (forwarder_id : string) (force_log_type : bool) (w : world) :
  is_valid_log_type log_type || force_log_type = true →
  let et := default (now_of w) log_entry_time in
  let ct := default (now_of w) collection_time in
  datetime_lt ct et = Ok false →
  let r := ingest_log depth log_type log_message log_entry_time collection_time
             namespace labels (Some forwarder_id) force_log_type w in
  requests r.2
  = requests w ++ [import_request (client w) log_type log_message et ct
                     namespace labels forwarder_id]
  ∧ (∀ msg,
       py_getitem (log_entry (strftime_wire et) (strftime_wire ct) namespace
                     labels msg) "log_entry_time" = Ok (JStr (strftime_wire et))
       ∧ py_getitem (log_entry (strftime_wire et) (strftime_wire ct) namespace
                       labels msg) "collection_time" = Ok (JStr (strftime_wire ct)))
  ∧ (∀ dt, valid_civil (fields dt) = true → 1000 ≤ year (fields dt) →
       parse_wire (strftime_wire dt) = Some (fields dt)
       ∧ String.length (strftime_wire dt) = 27%nat
       ∧ (wire_instant (strftime_wire dt) = Some (instant local_utcoffset dt)
          ↔ default local_utcoffset (tzinfo dt) = 0))
  ∧ (∀ dt, year (fields dt) < 1000 →
       (String.length (strftime_wire dt) < 27)%nat
       ∧ parse_wire (strftime_wire dt) = None).
Proof.
  intros Hvalid et ct Hlt r. subst r.
  rewrite (ingest_log_sends _ _ _ _ _ _ _ _ _ _ Hvalid Hlt).
  split_and!; [done|done| |].
  - intros dt Hv Hy4. split_and!.
    + by apply parse_wire_strftime.
    + rewrite strftime_wire_length, year_str_four, pad_length by done. done.
    + rewrite wire_instant_strftime by done.
      unfold instant, instant_at. split.
      * intros [= H]. lia.
      * intros ->. f_equal; lia.
  - intros dt Hy. split.
    + rewrite strftime_wire_length, year_str_length.
      repeat case_match; lia.
    + unfold strftime_wire, parse_wire, year_str.
      destruct (Z.ltb_spec (year (fields dt)) 10);
        [|destruct (Z.ltb_spec (year (fields dt)) 100);
          [|destruct (Z.ltb_spec (year (fields dt)) 1000); [|lia]]];
        cbn [pad String.append read_digits];
        change (digit_val "-") with (@None Z);
        by repeat (destruct (digit_val (digit_char _)); [|done]).
Qed.

(** ** UDM ingestion: the caller's objects are left alone *)

(** A value that does not refer below location [n]. *)
Definition fresh_val (n : nat) (v : pyval) : Prop :=
  match v with PRef l => (n ≤ l)%nat | _ => True end.

Definition fresh_obj (n : nat) (o : hobj) : Prop :=
  match o with
  | HDict d => Forall (λ kv, fresh_val n kv.2) d
  | HList l => Forall (fresh_val n) l
  end.

(** The objects from location [n] on refer only to each other. *)
Definition closed_above (n : nat) (h : store) : Prop :=
  ∀ l o, (n ≤ l)%nat → h !! l = Some o → fresh_obj n o.

Definition memo_fresh (n : nat) (memo : gmap loc loc) : Prop :=
  ∀ l y, memo !! l = Some y → (n ≤ y)%nat.

(** The invariant of a copy in progress: the store [h0] the caller handed
    over is an untouched prefix, and everything allocated since (from [n]
    on) is closed. *)
Record copy_inv (h0 : store) (n : nat) (memo : gmap loc loc) (h : store) : Prop := {
  ci_prefix : h0 `prefix_of` h;
  ci_len : (n ≤ length h)%nat;
  ci_closed : closed_above n h;
  ci_memo : memo_fresh n memo;
}.

Definition copy_post (h0 : store) (n : nat)
    (res : result pyval * (gmap loc loc * store)) : Prop :=
  copy_inv h0 n res.2.1 res.2.2 ∧ ∀ v, res.1 = Ok v → fresh_val n v.

Lemma prefix_insert_ge (h0 h : store) y o :
  (length h0 ≤ y)%nat → h0 `prefix_of` h → h0 `prefix_of` <[y := o]> h.
Proof.
  intros Hy [k ->]. exists (<[(y - length h0)%nat := o]> k).
  by rewrite insert_app_r_alt.
Qed.

Lemma closed_above_insert n h y o :
  closed_above n h → fresh_obj n o → closed_above n (<[y := o]> h).
Proof.
  intros Hc Ho l o' Hl Hlook.
  apply list_lookup_insert_Some in Hlook as [(-> & -> & _)|[_ Hlook]];
    [done|by eapply Hc].
Qed.

Lemma copy_inv_insert h0 n memo h y o :
  (length h0 ≤ y)%nat → fresh_obj n o →
  copy_inv h0 n memo h → copy_inv h0 n memo (<[y := o]> h).
Proof.
  intros Hy Ho [Hp Hl Hc Hm]. split.
  - by apply prefix_insert_ge.
  - by rewrite length_insert.
  - by apply closed_above_insert.
  - done.
Qed.

Lemma fresh_dict_set n k v (d : list (string * pyval)) :
  fresh_val n v → Forall (λ kv, fresh_val n kv.2) d →
  Forall (λ kv, fresh_val n kv.2) (dict_set k v d).
Proof.
  intros Hv. induction 1 as [|[k' v'] d Hkv Hd IH]; simpl.
  - by repeat constructor.
  - destruct (String.eqb k' k); by constructor.
Qed.

Lemma copy_inv_append h0 n memo h y a :
  (length h0 ≤ n)%nat → (n ≤ y)%nat → fresh_val n a →
  copy_inv h0 n memo h → copy_inv h0 n memo (list_append_at y a h).
Proof.
  intros Hn Hy Ha Hinv. unfold list_append_at.
  destruct (h !! y) as [[d|l]|] eqn:Hlook; try done.
  apply copy_inv_insert; [lia| |done].
  simpl. apply Forall_app. split; [|by repeat constructor].
  by apply (ci_closed _ _ _ _ Hinv y (HList l)).
Qed.

Lemma copy_inv_dict_set h0 n memo h y k v :
  (length h0 ≤ n)%nat → (n ≤ y)%nat → fresh_val n v →
  copy_inv h0 n memo h → copy_inv h0 n memo (dict_set_at y k v h).
Proof.
  intros Hn Hy Hv Hinv. unfold dict_set_at.
  destruct (h !! y) as [[d|l]|] eqn:Hlook; try done.
  apply copy_inv_insert; [lia| |done].
  simpl. apply fresh_dict_set; [done|].
  by apply (ci_closed _ _ _ _ Hinv y (HDict d)).
Qed.

Section CopyLoops.

Variables (h0 : store) (n : nat).
Hypothesis Hn : (length h0 ≤ n)%nat.
Variable rec : pyval → gmap loc loc → store → result pyval * (gmap loc loc * store).
Hypothesis Hrec :
  ∀ a memo h, copy_inv h0 n memo h → copy_post h0 n (rec a memo h).

Lemma copy_items_inv y xs memo h :
  (n ≤ y)%nat → copy_inv h0 n memo h →
  copy_post h0 n (copy_items rec y xs memo h).
Proof.
  intros Hy. revert memo h. induction xs as [|a xs IH]; intros memo h Hinv; simpl.
  - split; [done|]. by intros v [= <-].
  - destruct (Hrec a memo h Hinv) as [Hinv' Hfresh].
    destruct (rec a memo h) as [[a'|e] [memo' h']]; simpl in *.
    + apply IH. apply copy_inv_append; auto.
    + by split.
Qed.

Lemma copy_entries_inv y kvs memo h :
  (n ≤ y)%nat → copy_inv h0 n memo h →
  copy_post h0 n (copy_entries rec y kvs memo h).
Proof.
  intros Hy. revert memo h.
  induction kvs as [|[k v] kvs IH]; intros memo h Hinv; simpl.
  - split; [done|]. by intros v [= <-].
  - destruct (Hrec v memo h Hinv) as [Hinv' Hfresh].
    destruct (rec v memo h) as [[v'|e] [memo' h']]; simpl in *.
    + apply IH. apply copy_inv_dict_set; auto.
    + by split.
Qed.

End CopyLoops.

Lemma copy_inv_alloc h0 n memo h l o :
  fresh_obj n o → copy_inv h0 n memo h →
  copy_inv h0 n (<[l := length h]> memo) (h ++ [o]).
Proof.
  intros Ho [Hp Hl Hc Hm]. split.
  - by apply prefix_app_r.
  - rewrite length_app. simpl. lia.
  - intros l' o' Hl' Hlook.
    apply lookup_app_Some in Hlook as [Hlook|[_ Hlook]]; [by eapply Hc|].
    apply list_lookup_singleton_Some in Hlook as [_ <-]. done.
  - intros l' y. rewrite lookup_insert_Some.
    intros [[_ <-]|[_ Hlook]]; [done|by eapply Hm].
Qed.

(** [deepcopy] only allocates: it keeps the invariant, and what it returns
    does not refer to the caller's objects. *)
Lemma deepcopy_inv h0 n depth x memo h :
  (length h0 ≤ n)%nat → copy_inv h0 n memo h →
  copy_post h0 n (deepcopy depth x memo h).
Proof.
  intros Hn. revert x memo h.
  induction depth as [|d IH]; intros x memo h Hinv; simpl; [by split|].
  destruct x as [| | | |l]; try (split; [done|]; by intros v [= <-]).
  destruct (memo !! l) as [y|] eqn:Hmemo.
  - split; [done|]. intros v [= <-]. simpl. by eapply (ci_memo _ _ _ _ Hinv).
  - destruct (h !! l) as [[kvs|xs]|] eqn:Hlook; [| |by split].
    + apply copy_entries_inv; [done|done|by apply (ci_len _ _ _ _ Hinv)|].
      apply copy_inv_alloc; [by constructor|done].
    + apply copy_items_inv; [done|done|by apply (ci_len _ _ _ _ Hinv)|].
      apply copy_inv_alloc; [by constructor|done].
Qed.

(** What the preparation of the events keeps: it sends nothing, and the
    store the caller handed over ([h0], below location [n]) is an untouched
    prefix of the current one. *)
Record prep_inv (w0 : world) (n : nat) (w : world) : Prop := {
  pi_client : client w = client w0;
  pi_session : session w = session w0;
  pi_requests : requests w = requests w0;
  pi_store : copy_inv (heap w0) n ∅ (heap w);
}.

Lemma dict_get_Forall {V} (P : string * V → Prop) k d v :
  dict_get k d = Some v → Forall P d → ∃ k', P (k', v).
Proof.
  induction d as [|[k' v'] d IH]; simpl; [done|].
  intros Hget Hall. inversion Hall as [|? ? Hkv Hd]; subst.
  destruct (String.eqb k' k).
  - injection Hget as <-. by exists k'.
  - by apply IH.
Qed.

Lemma prep_inv_dict_set w0 n w lm k s :
  (length (heap w0) ≤ n)%nat → (n ≤ lm)%nat → prep_inv w0 n w →
  prep_inv w0 n (with_heap w (dict_set_at lm k (PStr s) (heap w))).
Proof.
  intros Hn Hlm [Hc Hs Hr Hst]. split; simpl; try done.
  by apply copy_inv_dict_set.
Qed.

Lemma prep_inv_ticked w0 n w : prep_inv w0 n w → prep_inv w0 n (ticked w).
Proof. by intros [Hc Hs Hr Hst]. Qed.

Lemma process_event_inv add event w0 n w :
  (length (heap w0) ≤ n)%nat → fresh_val n event → prep_inv w0 n w →
  prep_inv w0 n (process_event add event w).2.
Proof.
  intros Hn Hev Hinv. unfold process_event. munfold.
  destruct event as [| | | |le]; try done. simpl in Hev.
  destruct (heap w !! le) as [[ed|?]|] eqn:Hle; try done.
  destruct (dict_get "metadata" ed) as [m|] eqn:Hm; [|done].
  assert (Hfm : fresh_val n m).
  { pose proof (ci_closed _ _ _ _ (pi_store _ _ _ Hinv) le (HDict ed) Hev Hle)
      as Hed.
    by destruct (dict_get_Forall _ _ _ _ Hm Hed) as [k' ?]. }
  destruct m as [| | | |lm]; try done. simpl in Hfm.
  destruct (heap w !! lm) as [[md|?]|] eqn:Hlm; try done.
  destruct (negb (bool_decide (is_Some (dict_get "event_timestamp" md)))); simpl.
  - set (w1 := with_heap _ _).
    assert (Hinv1 : prep_inv w0 n w1).
    { apply (prep_inv_dict_set w0 n (ticked w)); [done|done|].
      by apply prep_inv_ticked. }
    clearbody w1.
    destruct (add && negb _); simpl; [|done].
    by apply (prep_inv_dict_set w0 n
      {| client := client w1; session := session w1; requests := requests w1;
         heap := heap w1; clock_reads := clock_reads w1;
         uuid_draws := S (uuid_draws w1) |}); [..|destruct Hinv1].
  - destruct (add && negb _); simpl; [|done].
    by apply (prep_inv_dict_set w0 n
      {| client := client w; session := session w; requests := requests w;
         heap := heap w; clock_reads := clock_reads w;
         uuid_draws := S (uuid_draws w) |}); [..|destruct Hinv].
Qed.

Lemma process_events_inv add events w0 n w :
  (length (heap w0) ≤ n)%nat → Forall (fresh_val n) events → prep_inv w0 n w →
  prep_inv w0 n (process_events add events w).2.
Proof.
  intros Hn Hall. revert w.
  induction Hall as [|event events Hev Hall IH]; intros w Hinv; simpl; [done|].
  unfold mbind, M_bind, bind.
  pose proof (process_event_inv add event w0 n w Hn Hev Hinv) as Hinv1.
  destruct (process_event add event w) as [[[]|e] w1]; simpl in *; [|done].
  by apply IH.
Qed.

Lemma events_of_fresh n h events_copy events :
  closed_above n h → fresh_val n events_copy →
  events_of h events_copy = Ok events → Forall (fresh_val n) events.
Proof.
  intros Hc Hv. destruct events_copy as [| | |s|l]; simpl; try done.
  - intros [= <-]. apply Forall_fmap, Forall_true. done.
  - destruct (h !! l) as [[d|xs]|] eqn:Hl; try done.
    + intros [= <-]. apply Forall_fmap, Forall_true. done.
    + intros [= <-]. by apply (Hc l (HList xs)).
Qed.

Lemma copy_inv_start (h : store) : copy_inv h (length h) ∅ h.
Proof.
  split; [done|done| |done].
  intros l o Hl Hlook. apply lookup_lt_Some in Hlook. lia.
Qed.

Lemma bind_get_heap {A} (k : store → M A) w : (get_heap ≫= k) w = k (heap w) w.
Proof. reflexivity. Qed.

(** What a world keeps while the events are prepared. *)
Definition prepared (w w' : world) : Prop :=
  client w' = client w ∧ session w' = session w ∧ requests w' = requests w
  ∧ heap w `prefix_of` heap w'.

(** The preparation sends nothing and leaves the caller's store as a
    prefix of the final one. *)
Lemma prepare_events_inv depth udm_events add w :
  prepared w (prepare_events depth udm_events add w).2.
Proof.
  unfold prepare_events. rewrite bind_get_heap.
  match goal with |- context [mbind ?K _] => set (k := K) end.
  assert (Htail : ∀ v1 w1, prepared w w1 → prepared w (k v1 w1).2).
  { intros v1 w1 (Hc1 & Hs1 & Hr1 & Hp1). subst k. simpl.
    rewrite bind_get_heap.
    destruct (negb (py_truthy (heap w1) v1)); [done|].
    unfold mbind at 1, M_bind at 1, bind at 1. unfold deepcopy_events.
    pose proof (deepcopy_inv (heap w1) (length (heap w1)) depth v1 ∅ (heap w1)
                  ltac:(done) (copy_inv_start _)) as [Hinv Hfresh].
    destruct (deepcopy depth v1 ∅ (heap w1)) as [r [memo h2]]. simpl in *.
    assert (Hp2 : heap w `prefix_of` h2).
    { etrans; [exact Hp1|]. apply (ci_prefix _ _ _ _ Hinv). }
    destruct r as [events_copy|e]; simpl; [|done].
    rewrite bind_get_heap. simpl heap.
    destruct (events_of h2 events_copy) as [events|e] eqn:Hev;
      [rewrite bind_lift_ok|by rewrite bind_lift_raise].
    assert (Hall : Forall (fresh_val (length (heap w1))) events).
    { eapply events_of_fresh; [|by apply Hfresh|exact Hev].
      apply (ci_closed _ _ _ _ Hinv). }
    pose proof (process_events_inv add events w1 (length (heap w1))
                  (with_heap w1 h2) ltac:(done) Hall) as Hloop.
    destruct Hloop as [Hc Hs Hr Hst].
    { split; simpl; try done. destruct Hinv. by split. }
    unfold mbind, M_bind, bind.
    destruct (process_events add events (with_heap w1 h2)) as [[[]|e] w3];
      simpl in *;
      (split_and!; [congruence|congruence|congruence|];
       etrans; [exact Hp1|]; apply (ci_prefix _ _ _ _ Hst)). }
  destruct (is_dict (heap w) udm_events).
  - unfold mbind, M_bind, bind, put_heap, mret, M_ret, ret.
    apply Htail. split_and!; try done. simpl. by apply prefix_app_r.
  - rewrite bind_ret. by apply Htail.
Qed.

Lemma reify_prefix depth (h h' : store) v j :
  h `prefix_of` h' → reify depth h v = Some j → reify depth h' v = Some j.
Proof.
  intros Hp. revert v j. induction depth as [|d IH]; intros v j;
    destruct v as [| | | |l]; simpl; try done.
  destruct (h !! l) as [o|] eqn:Hl; [|done].
  rewrite (prefix_lookup_Some _ _ _ _ Hl Hp).
  destruct o as [kvs|xs].
  - destruct (mapM _ kvs) as [js|] eqn:Hm; [|done]. intros [= <-].
    apply mapM_Some in Hm.
    assert (Hm' : mapM (λ kv, pair kv.1 <$> reify d h' kv.2) kvs = Some js).
    { apply mapM_Some. eapply Forall2_impl; [exact Hm|].
      intros [k x] y. simpl.
      destruct (reify d h x) as [jx|] eqn:Hx; [|done].
      by rewrite (IH _ _ Hx). }
    by rewrite Hm'.
  - destruct (mapM _ xs) as [js|] eqn:Hm; [|done]. intros [= <-].
    apply mapM_Some in Hm.
    assert (Hm' : mapM (reify d h') xs = Some js).
    { apply mapM_Some. eapply Forall2_impl; [exact Hm|]. intros x y. apply IH. }
    by rewrite Hm'.
Qed.

(** The submission leaves the store alone; it either fails to serialise
    the events and sends nothing, or sends one import request and raises
    [APIError] exactly on a status of 400 or more. *)
Lemma submit_events_spec depth events w :
  let r := submit_events depth events w in
  heap r.2 = heap w
  ∧ match mapM (reify depth (heap w)) events with
    | None => r = (Raise InvalidJSONError, w)
    | Some evs =>
        let req := POST (import_events_url (client w)) (import_events_body evs) in
        requests r.2 = requests w ++ [req]
        ∧ is_APIError r.1 = (400 <=? status_code (serve (session w) req).1)
    end.
Proof.
  simpl. unfold submit_events.
  rewrite bind_get_client, bind_get_heap.
  destruct (mapM (reify depth (heap w)) events) as [evs|]; [|done].
  unfold session_post. rewrite bind_send. simpl.
  set (resp := (serve (session w) _).1).
  destruct (400 <=? status_code resp); [done|].
  destruct (PyStr.strip_nonempty (text resp)); [|done].
  by destruct (response_json resp).
Qed.

(** C6. [ingest_udm] never changes an object of the caller: whatever the
    outcome of the call (a response, a rejected event partway through the
    list, a failed request), the store the caller handed over is a prefix
    of the store after the call, the back-filled fields having gone to
    copies allocated behind it; in particular the input reads back as the
    same value before and after the call. *)
Theorem ingest_udm_frame (depth : nat) (udm_events : pyval) (add_missing_ids : bool)
    (w : world) :
  let w' := (ingest_udm depth udm_events add_missing_ids w).2 in
  heap w `prefix_of` heap w'
  ∧ take (length (heap w)) (heap w') = heap w
  ∧ ∀ d j, reify d (heap w) udm_events = Some j →
           reify d (heap w') udm_events = Some j.
Proof.
  simpl.
  assert (Hp : heap w `prefix_of`
                 heap (ingest_udm depth udm_events add_missing_ids w).2).
  { unfold ingest_udm. unfold mbind, M_bind, bind.
    pose proof (prepare_events_inv depth udm_events add_missing_ids w)
      as (_ & _ & _ & Hp).
    destruct (prepare_events depth udm_events add_missing_ids w)
      as [[events|e] w1]; simpl in *; [|done].
    destruct (submit_events_spec depth events w1) as [Hh _]. simpl in Hh.
    by rewrite Hh. }
  split_and!; [done| |].
  - destruct Hp as [k ->]. by rewrite take_app_length.
  - intros d j. by apply reify_prefix.
Qed.

(** ** Status checks *)

(** C5 (as the code has it). [create_forwarder], [get_forwarder],
    [list_forwarders] and [ingest_log] treat the status 200, and no other,
    as success: they raise [APIError] exactly when the status of the
    response differs from 200. [ingest_udm] treats every status below 400
    as success: it raises [APIError] exactly when the status of the
    response to its request is 400 or more. For [list_forwarders] the
    status is that of a page request: a failed first page raises at any
    depth, and with a single page request allowed the equivalence is
    exact. *)
Theorem status_checks (w : world) :
  (∀ display_name metadata uc es,
     let resp := (serve (session w)
                    (POST (forwarders_url (client w))
                       (create_payload display_name metadata uc es))).1 in
     is_APIError (create_forwarder display_name metadata uc es w).1
     = negb (status_code resp =? 200))
  ∧ (∀ forwarder_id,
       let resp := (serve (session w)
                      (GET (forwarder_url (client w) forwarder_id) [])).1 in
       is_APIError (get_forwarder forwarder_id w).1
       = negb (status_code resp =? 200))
  ∧ (∀ depth page_size token,
       let resp := (serve (session w)
                      (GET (forwarders_url (client w))
                         (list_params page_size token))).1 in
       (status_code resp ≠ 200 →
        (list_forwarders (S depth) page_size token w).1
        = Raise (APIError ("Failed to list forwarders: " +:+ text resp)))
       ∧ is_APIError (list_forwarders 1 page_size token w).1
         = negb (status_code resp =? 200))
  ∧ (∀ depth log_type log_message log_entry_time collection_time namespace
       labels forwarder_id force_log_type,
       is_valid_log_type log_type || force_log_type = true →
       let et := default (now_of w) log_entry_time in
       let ct := default (now_of w) collection_time in
       datetime_lt ct et = Ok false →
       let resp := (serve (session w)
                      (import_request (client w) log_type log_message et ct
                         namespace labels forwarder_id)).1 in
       is_APIError (ingest_log depth log_type log_message log_entry_time
                      collection_time namespace labels (Some forwarder_id)
                      force_log_type w).1
       = negb (status_code resp =? 200))
  ∧ (∀ depth udm_events add_missing_ids req,
       requests (ingest_udm depth udm_events add_missing_ids w).2
       = requests w ++ [req] →
       is_APIError (ingest_udm depth udm_events add_missing_ids w).1
       = (400 <=? status_code (serve (session w) req).1)).
Proof.
  split_and!.
  - intros dn md uc es resp. unfold create_forwarder.
    rewrite bind_get_client. unfold session_post. rewrite bind_send.
    fold resp. destruct (negb (status_code resp =? 200)); [done|].
    simpl. unfold response_json. by case_match.
  - intros id resp. unfold get_forwarder.
    rewrite bind_get_client. unfold session_get. rewrite bind_send.
    fold resp. destruct (negb (status_code resp =? 200)); [done|].
    simpl. unfold response_json. by case_match.
  - intros depth page_size token resp. split.
    + intros Hst. simpl. rewrite bind_get_client. unfold session_get.
      rewrite bind_send. fold resp.
      apply Z.eqb_neq in Hst. by rewrite Hst.
    + simpl. rewrite bind_get_client. unfold session_get.
      rewrite bind_send. fold resp.
      destruct (negb (status_code resp =? 200)); [done|].
      match goal with
      | |- is_APIError (?m ?w1).1 = false =>
          assert (Htail : raises_only
                    (λ e, is_APIError (A:=json) (Raise e) = false) m)
      end.
      { repeat (raises_step_with (local_error_not_api (A:=json)) || case_match). }
      match goal with
      | |- is_APIError (?m ?w1).1 = false =>
          specialize (Htail w1); destruct (m w1) as [[a|e] w2]; simpl in *;
            [done|by apply Htail]
      end.
  - intros depth lt msg et0 ct0 ns labels fid force Hvalid et ct Hlt resp.
    rewrite (ingest_log_sends _ _ _ _ _ _ _ _ _ _ Hvalid Hlt).
    simpl. fold et ct resp.
    destruct (negb (status_code resp =? 200)); [done|].
    unfold response_json. by case_match.
  - intros depth v add req Hreq. revert Hreq.
    unfold ingest_udm. unfold mbind, M_bind, bind.
    pose proof (prepare_events_inv depth v add w) as (Hc & Hs & Hr & _).
    destruct (prepare_events depth v add w) as [[events|e] w1]; simpl in *.
    + pose proof (submit_events_spec depth events w1) as [_ Hsub].
      simpl in Hsub.
      destruct (mapM (reify depth (heap w1)) events) as [evs|].
      * destruct Hsub as [Hreq' Hapi]. rewrite Hreq', Hr.
        intros [= <-]%(inj (app (requests w))). by rewrite Hapi, Hs.
      * rewrite Hsub. simpl. rewrite Hr. intros Habs.
        apply (f_equal length) in Habs. rewrite length_app in Habs.
        simpl in Habs. lia.
    + rewrite Hr. intros Habs.
      apply (f_equal length) in Habs. rewrite length_app in Habs.
      simpl in Habs. lia.
Qed.

(** * Further properties of the forwarder directory *)

(** ** The requests of a listing *)

(** The token [list_forwarders] follows after a page: the page's
    [nextPageToken] when the page is a success and the token is truthy. *)
Definition next_page_token (resp : response) : option json :=
  if status_code resp =? 200 then
    match json_body resp with
    | Some result =>
        match py_in "nextPageToken" result with
        | Ok true =>
            match py_getitem result "nextPageToken" with
            | Ok token => if truthy token then Some token else None
            | Raise _ => None
            end
        | _ => None
        end
    | None => None
    end
  else None.

(** From state [b], asked with [token], the backend's pages lead through
    the tokens [rest] and the last page (a failure, or a page without a
    truthy token) ends the chain in state [b']. *)
Inductive serves_tokens (c : ChronicleClient) (page_size : Z)
  : B → json → list json → B → Prop :=
| tokens_last b token resp b' :
    serve b (GET (forwarders_url c) (list_params page_size token)) = (resp, b') →
    next_page_token resp = None →
    serves_tokens c page_size b token [] b'
| tokens_more b token resp b1 next rest b' :
    serve b (GET (forwarders_url c) (list_params page_size token)) = (resp, b1) →
    next_page_token resp = Some next →
    serves_tokens c page_size b1 next rest b' →
    serves_tokens c page_size b token (next :: rest) b'.

Lemma next_page_token_truthy resp token :
  next_page_token resp = Some token → truthy token = true.
Proof.
  unfold next_page_token. repeat case_match; try done. by intros [= <-].
Qed.

Lemma list_params_page_token page_size token :
  dict_get "pageToken" (list_params page_size token)
  = if truthy token then Some token else None.
Proof.
  unfold list_params.
  destruct (negb (page_size =? 0)); simpl; by destruct (truthy token).
Qed.

(** The world a listing ends in: that of the page request when the chain
    stops there, that of the nested call otherwise. Nothing after the
    nested call touches the world. *)
Lemma list_forwarders_world depth page_size token w :
  let r := GET (forwarders_url (client w)) (list_params page_size token) in
  let w1 := {| client := client w; session := (serve (session w) r).2;
               requests := requests w ++ [r]; heap := heap w;
               clock_reads := clock_reads w; uuid_draws := uuid_draws w |} in
  (list_forwarders (S depth) page_size token w).2
  = match next_page_token (serve (session w) r).1 with
    | Some next => (list_forwarders depth page_size next w1).2
    | None => w1
    end.
Proof.
  intros r w1. simpl. rewrite bind_get_client. unfold session_get.
  rewrite bind_send. fold r. fold w1. unfold next_page_token.
  set (resp := (serve (session w) r).1).
  destruct (status_code resp =? 200); simpl; [|done].
  unfold response_json. destruct (json_body resp) as [body|]; [|done].
  rewrite bind_lift_ok.
  destruct (py_in "nextPageToken" body) as [[]|e];
    [|by rewrite bind_lift_ok, bind_ret|by rewrite bind_lift_raise].
  rewrite bind_lift_ok.
  destruct (py_getitem body "nextPageToken") as [next|e];
    [|by rewrite bind_lift_raise].
  rewrite bind_lift_ok. destruct (truthy next); [|done]. simpl.
  unfold mbind at 1, M_bind at 1, bind at 1.
  destruct (list_forwarders depth page_size next w1) as [[next_page|e] w'];
    [|done].
  unfold mbind, M_bind, bind, lift, mret, M_ret, ret, raise. simpl.
  repeat (case_match; simplify_eq/=); done.
Qed.

Lemma list_forwarders_chain c page_size b token rest b' :
  serves_tokens c page_size b token rest b' →
  ∀ depth w, client w = c → session w = b → (length rest < depth)%nat →
  requests (list_forwarders depth page_size token w).2
  = requests w
    ++ ((λ t, GET (forwarders_url c) (list_params page_size t)) <$> token :: rest)
  ∧ session (list_forwarders depth page_size token w).2 = b'.
Proof.
  induction 1 as [b token resp b' Hs Hnone
                 |b token resp b1 next rest b' Hs Hnext Hrest IH];
    intros depth w Hc Hb Hlen; subst c b;
    (destruct depth as [|depth]; [simpl in Hlen; lia|]);
    rewrite list_forwarders_world, Hs; cbn [fst snd].
  - by rewrite Hnone.
  - rewrite Hnext. simpl in Hlen.
    match goal with
    | |- context [list_forwarders depth page_size next ?w1] =>
        destruct (IH depth w1 eq_refl eq_refl ltac:(lia)) as [Hreq Hsess]
    end.
    split; [|done]. rewrite Hreq. simpl. by rewrite <-app_assoc.
Qed.

(** X1. [list_forwarders] sends one page request per page and nothing
    else: the first with the caller's token, each later one with the token
    of the page before it as [pageToken], and it stops at the first page
    that is a failure or carries no truthy token. *)
Theorem list_forwarders_request_chain (depth : nat) (page_size : Z) (token : json)
    (rest : list json) (b' : B) (w : world) :
  serves_tokens (client w) page_size (session w) token rest b' →
  (length rest < depth)%nat →
  requests (list_forwarders depth page_size token w).2
  = requests w
    ++ ((λ t, GET (forwarders_url (client w)) (list_params page_size t))
          <$> token :: rest)
  ∧ Forall (λ t, dict_get "pageToken" (list_params page_size t) = Some t) rest
  ∧ session (list_forwarders depth page_size token w).2 = b'.
Proof.
  intros Hchain Hlen.
  destruct (list_forwarders_chain _ _ _ _ _ _ Hchain depth w eq_refl eq_refl Hlen)
    as [Hreq Hsess].
  split_and!; [done| |done].
  clear Hreq Hsess Hlen. induction Hchain as [|b token resp b1 next rest b' Hs Hnext _ IH];
    [constructor|].
  constructor; [|done].
  rewrite list_params_page_token.
  by rewrite (next_page_token_truthy _ _ Hnext).
Qed.

(** X2. A page that carries a next-page token but no ["forwarders"] key,
    followed by pages that do hold forwarders, makes [list_forwarders]
    raise [KeyError]: the later forwarders are appended to the list of the
    earlier page, which is looked up without a default. *)
Theorem list_forwarders_missing_key (depth : nat) (page_size : Z) (token : json)
    (resp : response) (b1 b' : B) (d : list (string * json)) (next : json)
    (rest : list (list json)) (w : world) :
  serve (session w) (GET (forwarders_url (client w)) (list_params page_size token))
  = (resp, b1) →
  status_code resp = 200 →
  json_body resp = Some (JObj d) →
  dict_get "nextPageToken" d = Some next → truthy next = true →
  dict_get "forwarders" d = None →
  serves_pages (client w) page_size b1 next rest b' →
  concat rest ≠ [] →
  (length rest < depth)%nat →
  (list_forwarders depth page_size token w).1 = Raise (KeyError "forwarders").
Proof.
  intros Hs Hst Hj Hn Ht Hf Hrest Hne Hlen.
  destruct depth as [|depth]; [lia|].
  simpl. rewrite bind_get_client. unfold session_get. rewrite bind_send.
  rewrite Hs. cbn [fst snd]. rewrite Hst. simpl.
  unfold response_json. rewrite Hj, bind_lift_ok. simpl py_in.
  rewrite Hn, bind_lift_ok. simpl py_getitem. rewrite Hn, bind_lift_ok, Ht.
  simpl.
  unfold mbind at 1, M_bind at 1, bind at 1.
  match goal with
  | |- context [list_forwarders depth page_size next ?w1] =>
      destruct (list_forwarders_pages _ _ _ _ _ _ Hrest depth w1 eq_refl eq_refl
                  ltac:(lia)) as (d' & w' & Hrun & Hf' & _)
  end.
  rewrite Hrun. munfold. simpl. rewrite Hf'. simpl.
  destruct (concat rest) as [|x xs]; [done|]. simpl. by rewrite Hf.
Qed.


(** ** Finding a forwarder by its display name *)

(** [g] is a mapping whose display name is missing or is not [display_name]. *)
Definition other_display_name (display_name : string) (g : json) : Prop :=
  ∃ v, py_get g "displayName" JNull = Ok v ∧ v ≠ JStr display_name.

(** [f] is the first element of [l] whose display name is [display_name],
    and the elements before it are mappings. *)
Definition first_match (display_name : string) (l : list json) (f : json) : Prop :=
  ∃ pre post,
    l = pre ++ f :: post
    ∧ py_get f "displayName" JNull = Ok (JStr display_name)
    ∧ Forall (other_display_name display_name) pre.

Lemma py_eq_str_true_iff v s : py_eq_str v s = true ↔ v = JStr s.
Proof.
  split; [apply py_eq_str_inv|]. intros ->. apply String.eqb_refl.
Qed.

Lemma scan_display_name_first display_name l f :
  scan_display_name display_name l = Ok (Some f) ↔ first_match display_name l f.
Proof.
  split.
  - revert f. induction l as [|x l IH]; intros f; simpl; [done|].
    destruct (py_get x "displayName" JNull) as [v|e] eqn:Hget; [|done].
    destruct (py_eq_str v display_name) eqn:Heq.
    + intros [= <-]. apply py_eq_str_inv in Heq as ->.
      by exists [], l.
    + intros (pre & post & -> & Hf & Hpre)%IH.
      exists (x :: pre), post. split_and!; [done|done|].
      constructor; [|done]. exists v. split; [done|].
      intros ->. simpl in Heq. by rewrite String.eqb_refl in Heq.
  - intros (pre & post & -> & Hf & Hpre).
    induction Hpre as [|x pre (v & Hv & Hne) _ IH]; simpl.
    + rewrite Hf. simpl. by rewrite String.eqb_refl.
    + rewrite Hv. by rewrite (py_eq_str_false _ _ Hne).
Qed.

Lemma scan_display_name_none display_name l :
  scan_display_name display_name l = Ok None
  ↔ Forall (other_display_name display_name) l.
Proof.
  split.
  - induction l as [|x l IH]; simpl; [by constructor|].
    destruct (py_get x "displayName" JNull) as [v|e] eqn:Hget; [|done].
    destruct (py_eq_str v display_name) eqn:Heq; [done|].
    intros H. constructor; [|by apply IH].
    exists v. split; [done|]. intros ->.
    simpl in Heq. by rewrite String.eqb_refl in Heq.
  - induction 1 as [|x l (v & Hv & Hne) _ IH]; simpl; [done|].
    rewrite Hv. by rewrite (py_eq_str_false _ _ Hne).
Qed.

(** X3. Given the listing, [_find_forwarder_by_display_name] returns the
    first forwarder, in listing order, whose display name is exactly the
    one asked for; it returns [None] exactly when the listed forwarders are
    mappings none of which has that display name, and also when the
    listing has no ["forwarders"] key at all. *)
Theorem find_forwarder_first_match (depth : nat) (display_name : string)
    (d : list (string * json)) (w w' : world) :
  list_forwarders depth 1000 JNull w = (Ok (JObj d), w') →
  (dict_get "forwarders" d = None →
   _find_forwarder_by_display_name depth display_name w = (Ok None, w'))
  ∧ (∀ l, dict_get "forwarders" d = Some (JArr l) →
       (∀ f, _find_forwarder_by_display_name depth display_name w
             = (Ok (Some f), w') ↔ first_match display_name l f)
       ∧ (_find_forwarder_by_display_name depth display_name w = (Ok None, w')
          ↔ Forall (other_display_name display_name) l)).
Proof.
  intros Hrun.
  assert (Hfind : ∀ l,
    py_iter match dict_get "forwarders" d with
            | Some x => x
            | None => JArr []
            end = Ok l →
    _find_forwarder_by_display_name depth display_name w
    = (scan_display_name display_name l, w')).
  { intros l Hl. unfold _find_forwarder_by_display_name. munfold.
    rewrite Hrun. simpl. rewrite Hl.
    pose proof (local_error_scan display_name l) as Hlocal.
    destruct (scan_display_name display_name l) as [?|e]; [done|].
    specialize (Hlocal e eq_refl). by destruct e. }
  split.
  - intros Hnone. rewrite (Hfind []); [done|by rewrite Hnone].
  - intros l Hl. rewrite (Hfind l) by by rewrite Hl. split.
    + intros f. rewrite <-scan_display_name_first. split; [by intros [= ->]|].
      by intros ->.
    + rewrite <-scan_display_name_none. split; [by intros [= ->]|]. by intros ->.
Qed.

(** ** Failures while resolving a forwarder *)

(** The message [_find_forwarder_by_display_name] wraps a listing failure
    in, line 176, and the one [get_or_create_forwarder] raises for it,
    lines 234-236. *)
Definition search_failure (display_name msg : string) : string :=
  "Failed to list forwarders while searching for '" +:+ display_name
  +:+ "': " +:+ msg.

Definition resolve_failure (msg : string) : string :=
  if PyStr.contains "permission" (PyStr.lower msg)
  then "Insufficient permissions to manage forwarders: " +:+ msg
  else msg.

(** X4. When the listing fails with [APIError], the search raises an
    [APIError] that names the display name searched for, and the
    find-or-create path raises that error unchanged, or with the
    insufficient-permissions prefix when its text contains "permission" in
    any letter case; no create request is sent and the cache slot is left
    as it was. The display name is part of the text that is searched. *)
Theorem find_or_create_listing_failure (depth : nat) (target : string)
    (is_default : bool) (msg : string) (w : world) :
  (list_forwarders depth 1000 JNull w).1 = Raise (APIError msg) →
  (_find_forwarder_by_display_name depth target w).1
  = Raise (APIError (search_failure target msg))
  ∧ find_or_create depth target is_default w
    = (Raise (APIError (resolve_failure (search_failure target msg))),
       (list_forwarders depth 1000 JNull w).2)
  ∧ client (list_forwarders depth 1000 JNull w).2 = client w.
Proof.
  intros Hfail.
  pose proof (list_forwarders_sends_only depth 1000 JNull w) as (Hc & _).
  assert (Hfind : _find_forwarder_by_display_name depth target w
                  = (Raise (APIError (search_failure target msg)),
                     (list_forwarders depth 1000 JNull w).2)).
  { unfold _find_forwarder_by_display_name. munfold.
    destruct (list_forwarders depth 1000 JNull w) as [r w1]. simpl in *.
    by subst r. }
  split_and!; [by rewrite Hfind| |done].
  unfold find_or_create, catch_APIError at 1.
  unfold mbind at 1, M_bind at 1, bind at 1. rewrite Hfind.
  unfold resolve_failure. by case_match.
Qed.

(** ** The two paths of the default forwarder *)

Lemma get_forwarder_ok forwarder_id resp b' f w :
  serve (session w) (GET (forwarder_url (client w) forwarder_id) []) = (resp, b') →
  status_code resp = 200 →
  json_body resp = Some f →
  get_forwarder forwarder_id w
  = (Ok f,
     {| client := client w; session := b';
        requests := requests w ++ [GET (forwarder_url (client w) forwarder_id) []];
        heap := heap w; clock_reads := clock_reads w;
        uuid_draws := uuid_draws w |}).
Proof.
  intros Hs Hst Hj. unfold get_forwarder.
  rewrite bind_get_client. unfold session_get. rewrite bind_send, Hs.
  cbn [fst snd]. rewrite Hst. simpl. unfold response_json. by rewrite Hj.
Qed.

Lemma create_forwarder_ok display_name metadata uc es resp b' f w :
  serve (session w)
    (POST (forwarders_url (client w)) (create_payload display_name metadata uc es))
  = (resp, b') →
  status_code resp = 200 →
  json_body resp = Some f →
  create_forwarder display_name metadata uc es w
  = (Ok f,
     {| client := client w; session := b';
        requests := requests w
          ++ [POST (forwarders_url (client w))
                (create_payload display_name metadata uc es)];
        heap := heap w; clock_reads := clock_reads w;
        uuid_draws := uuid_draws w |}).
Proof.
  intros Hs Hst Hj. unfold create_forwarder.
  rewrite bind_get_client. unfold session_post. rewrite bind_send, Hs.
  cbn [fst snd]. rewrite Hst. simpl. unfold response_json. by rewrite Hj.
Qed.

(** X5. A warm cache and a direct get that returns a forwarder with the
    default display name: [get_or_create_forwarder] returns that forwarder
    after exactly one request, the get of the cached ID, and leaves the
    client, its cache slot included, as it was. *)
Theorem get_or_create_forwarder_warm (depth : nat) (display_name : option string)
    (cached : string) (resp : response) (b' : B) (f : json) (w : world) :
  target_of (client w) display_name = _default_forwarder_display_name (client w) →
  cached_id_truthy (client w) = Some cached →
  serve (session w) (GET (forwarder_url (client w) cached) []) = (resp, b') →
  status_code resp = 200 →
  json_body resp = Some f →
  py_get f "displayName" JNull
  = Ok (JStr (_default_forwarder_display_name (client w))) →
  get_or_create_forwarder depth display_name w
  = (Ok f,
     {| client := client w; session := b';
        requests := requests w ++ [GET (forwarder_url (client w) cached) []];
        heap := heap w; clock_reads := clock_reads w;
        uuid_draws := uuid_draws w |}).
Proof.
  intros Ht Hcached Hs Hst Hj Hdn.
  unfold get_or_create_forwarder. munfold.
  rewrite Ht, String.eqb_refl, Hcached.
  rewrite (get_forwarder_ok _ _ _ _ _ Hs Hst Hj), Hdn.
  simpl. by rewrite String.eqb_refl.
Qed.

(** X6. A cold cache and no forwarder with the default display name in the
    listing: [get_or_create_forwarder] sends exactly one create request
    after the listing, returns the created forwarder, and stores the ID its
    resource name ends in into the cache slot. *)
Theorem get_or_create_forwarder_cold (depth : nat) (display_name : option string)
    (resp : response) (b2 : B) (f : json) (name id : string) (w w1 : world) :
  let c := client w in
  let default_name := _default_forwarder_display_name c in
  let create := POST (forwarders_url c)
                  (create_payload default_name None false false) in
  target_of c display_name = default_name →
  cached_id_truthy c = None →
  _find_forwarder_by_display_name depth default_name w = (Ok None, w1) →
  serve (session w1) create = (resp, b2) →
  status_code resp = 200 →
  json_body resp = Some f →
  py_getitem f "name" = Ok (JStr name) →
  extract_forwarder_id name = Ok id →
  get_or_create_forwarder depth display_name w
  = (Ok f,
     {| client := set_cached_id c (Some id); session := b2;
        requests := requests w1 ++ [create];
        heap := heap w1; clock_reads := clock_reads w1;
        uuid_draws := uuid_draws w1 |}).
Proof.
  intros c default_name create Ht Hcached Hfind Hs Hst Hj Hname Hid.
  pose proof (find_sends_only depth default_name w) as (Hc1 & _).
  rewrite Hfind in Hc1. simpl in Hc1. fold c in Hc1.
  subst create. rewrite <-Hc1 in Hs.
  unfold get_or_create_forwarder, find_or_create, cache_if_default. munfold.
  fold c. fold default_name. rewrite Ht, String.eqb_refl, Hcached, Hfind.
  rewrite (create_forwarder_ok _ _ _ _ _ _ _ _ Hs Hst Hj), Hname.
  simpl. rewrite Hid. simpl. by rewrite Hc1.
Qed.


(** X19. A forwarder with the display name asked for is in the listing,
    and the cache does not answer: [get_or_create_forwarder] returns the
    listed forwarder and sends nothing after the listing, so no forwarder
    is created. When the name is the default one the cache slot receives
    the ID the forwarder's resource name ends in; for any other name the
    client is left as it was. *)
Theorem get_or_create_forwarder_found (depth : nat) (display_name : option string)
    (f : json) (name id : string) (w w1 : world) :
  let c := client w in
  let target := target_of c display_name in
  let is_default := String.eqb target (_default_forwarder_display_name c) in
  (is_default = true → cached_id_truthy c = None) →
  _find_forwarder_by_display_name depth target w = (Ok (Some f), w1) →
  py_getitem f "name" = Ok (JStr name) →
  extract_forwarder_id name = Ok id →
  get_or_create_forwarder depth display_name w
  = (Ok f, if is_default then with_client w1 (set_cached_id c (Some id)) else w1)
  ∧ requests w1 = requests (list_forwarders depth 1000 JNull w).2.
Proof.
  intros c target is_default Hcached Hfind Hname Hid.
  pose proof (find_sends_only depth target w) as (Hc1 & _).
  rewrite Hfind in Hc1. simpl in Hc1. fold c in Hc1.
  split.
  - unfold get_or_create_forwarder, find_or_create, cache_if_default. munfold.
    fold c. fold target. fold is_default.
    destruct is_default.
    + rewrite Hcached by done. rewrite Hfind, Hname. simpl. rewrite Hid.
      simpl. by rewrite Hc1.
    + by rewrite Hfind.
  - revert Hfind. unfold _find_forwarder_by_display_name. munfold.
    destruct (list_forwarders depth 1000 JNull w) as [[res|e] w']; simpl.
    + destruct (py_get res "forwarders" (JArr [])) as [fwds|e]; simpl;
        [|by destruct e].
      destruct (py_iter fwds) as [els|e]; simpl; [|by destruct e].
      destruct (scan_display_name target els) as [[?|]|[]]; simpl;
        intros Heq; by simplify_eq.
    + by destruct e.
Qed.

(** * Further properties of log ingestion *)

(** ** The forwarder's resource name *)

Lemma ends_with_char_app c s : PyStr.ends_with_char c (s +:+ String c "") = true.
Proof.
  induction s as [|a s IH]; simpl; [apply Ascii.eqb_refl|].
  destruct (s +:+ String c "") eqn:E; [by destruct s|done].
Qed.

Lemma contains_char_app c s t :
  PyStr.contains_char c (s +:+ t)
  = PyStr.contains_char c s || PyStr.contains_char c t.
Proof.
  induction s as [|a s IH]; simpl; [done|]. by destruct (Ascii.eqb a c).
Qed.

(** X7. The resource name [ingest_log] builds from a bare forwarder ID is
    the instance's [forwarders/] path of that ID, and
    [extract_forwarder_id] gives the ID back from it; a forwarder ID that
    already contains a slash is used as it is, so building the resource
    name twice is building it once. *)
Theorem forwarder_resource_round_trip (c : ChronicleClient) (forwarder_id : string) :
  (forwarder_id ≠ "" → PyStr.contains_char slash forwarder_id = false →
   forwarder_resource_of c forwarder_id
   = instance_id c +:+ "/forwarders/" +:+ forwarder_id
   ∧ extract_forwarder_id (forwarder_resource_of c forwarder_id) = Ok forwarder_id)
  ∧ (PyStr.contains_char slash forwarder_id = true →
     forwarder_resource_of c forwarder_id = forwarder_id)
  ∧ forwarder_resource_of c (forwarder_resource_of c forwarder_id)
    = forwarder_resource_of c forwarder_id.
Proof.
  split_and!.
  - intros Hne Hc. unfold forwarder_resource_of. rewrite Hc. simpl.
    split; [done|]. apply extract_forwarder_id_last_segment.
    exists ((instance_id c +:+ "/forwarders") +:+ "/"), "".
    split_and!; [|done|done|done|right; apply ends_with_char_app].
    by rewrite str_app_nil_r, !str_app_assoc.
  - intros Hc. unfold forwarder_resource_of. by rewrite Hc.
  - unfold forwarder_resource_of.
    destruct (PyStr.contains_char slash forwarder_id) eqn:Hc; simpl.
    + by rewrite Hc.
    + rewrite !contains_char_app. simpl. by rewrite orb_true_r.
Qed.

(** ** When a request is sent *)

Definition is_local_failure {A} (r : result A) : Prop :=
  ∃ e, r = Raise e ∧ (e = TypeError ∨ ∃ msg, e = ValueError msg).

(** The check of line 324 lets the call through: the two times compare,
    and the collection time is not before the log entry time. *)
Definition in_order (collection_time log_entry_time : datetime) : bool :=
  match datetime_lt collection_time log_entry_time with
  | Ok false => true
  | _ => false
  end.

(** X8. With the forwarder given, [ingest_log] sends its import request,
    and nothing else, exactly when the log type is valid or forced and the
    collection time compares as not before the log entry time. In every
    other case (an unknown log type, a collection time before the log entry
    time, two times that do not compare) it raises [ValueError] or
    [TypeError] and the record of requests and the backend are as before
    the call. *)
Theorem ingest_log_request_iff (depth : nat) (log_type : string)
    (log_message : log_message) (log_entry_time collection_time : option datetime)
    (namespace : option string) (labels : option (list (string * string)))
    (forwarder_id : string) (force_log_type : bool) (w : world) :
  let et := default (now_of w) log_entry_time in
  let ct := default (now_of w) collection_time in
  let r := ingest_log depth log_type log_message log_entry_time collection_time
             namespace labels (Some forwarder_id) force_log_type w in
  if (is_valid_log_type log_type || force_log_type) && in_order ct et
  then requests r.2
       = requests w ++ [import_request (client w) log_type log_message et ct
                          namespace labels forwarder_id]
  else requests r.2 = requests w ∧ session r.2 = session w
       ∧ is_local_failure r.1.
Proof.
  intros et ct r. subst r.
  destruct (is_valid_log_type log_type || force_log_type) eqn:Hvalid; simpl.
  - unfold in_order.
    destruct (datetime_lt ct et) as [[]|e] eqn:Hcmp.
    + unfold ingest_log.
      replace (negb (is_valid_log_type log_type) && negb force_log_type)
        with false
        by (destruct (is_valid_log_type log_type), force_log_type; done).
      rewrite bind_read_clock. fold et. fold ct. rewrite Hcmp, bind_lift_ok.
      simpl. split_and!; [done|done|].
      eexists. split; [done|]. right. by eexists.
    + by rewrite (ingest_log_sends _ _ _ _ _ _ _ _ _ _ Hvalid Hcmp).
    + unfold ingest_log.
      replace (negb (is_valid_log_type log_type) && negb force_log_type)
        with false
        by (destruct (is_valid_log_type log_type), force_log_type; done).
      rewrite bind_read_clock. fold et. fold ct. rewrite Hcmp, bind_lift_raise.
      simpl. split_and!; [done|done|].
      exists e. split; [done|]. left.
      revert Hcmp. unfold datetime_lt.
      repeat case_match; try done; by intros [= <-].
  - unfold ingest_log.
    replace (negb (is_valid_log_type log_type) && negb force_log_type)
      with true
      by (destruct (is_valid_log_type log_type), force_log_type; done).
    simpl. split_and!; [done|done|].
    eexists. split; [done|]. right. by eexists.
Qed.

(** X9. A timezone-aware timestamp for one of the two times and none for
    the other makes [ingest_log] raise [TypeError] before any request: the
    missing one defaults to the naive reading of the clock, and a naive
    value does not compare with an aware one. *)
Theorem ingest_log_mixed_awareness (depth : nat) (log_type : string)
    (log_message : log_message) (dt : datetime) (off : Z)
    (namespace : option string) (labels : option (list (string * string)))
    (forwarder_id : option string) (force_log_type : bool) (w : world) :
  is_valid_log_type log_type || force_log_type = true →
  tzinfo dt = Some off →
  ingest_log depth log_type log_message (Some dt) None namespace labels
    forwarder_id force_log_type w = (Raise TypeError, ticked w)
  ∧ ingest_log depth log_type log_message None (Some dt) namespace labels
      forwarder_id force_log_type w = (Raise TypeError, ticked w).
Proof.
  intros Hvalid Htz. unfold ingest_log.
  replace (negb (is_valid_log_type log_type) && negb force_log_type) with false
    by (destruct (is_valid_log_type log_type), force_log_type; done).
  rewrite !bind_read_clock. simpl default.
  assert (H1 : datetime_lt (now_of w) dt = Raise TypeError).
  { unfold datetime_lt, same_tzinfo. rewrite Htz. simpl. by destruct (zone dt). }
  assert (H2 : datetime_lt dt (now_of w) = Raise TypeError).
  { unfold datetime_lt, same_tzinfo. rewrite Htz. simpl. by destruct (zone dt). }
  by rewrite H1, H2, !bind_lift_raise.
Qed.

(** X10. Without a forwarder ID, [ingest_log] resolves the default
    forwarder after its checks and sends the import request to the
    resource of the ID that forwarder's name ends in, in the world the
    resolution left. *)
Theorem ingest_log_default_forwarder (depth : nat) (log_type : string)
    (log_message : log_message) (log_entry_time collection_time : option datetime)
    (namespace : option string) (labels : option (list (string * string)))
    (force_log_type : bool) (f : json) (name id : string) (w w2 : world) :
  is_valid_log_type log_type || force_log_type = true →
  let et := default (now_of w) log_entry_time in
  let ct := default (now_of w) collection_time in
  datetime_lt ct et = Ok false →
  get_or_create_forwarder depth None (ticked w) = (Ok f, w2) →
  py_getitem f "name" = Ok (JStr name) →
  extract_forwarder_id name = Ok id →
  let req := import_request (client w2) log_type log_message et ct namespace
               labels id in
  let resp := (serve (session w2) req).1 in
  ingest_log depth log_type log_message log_entry_time collection_time namespace
    labels None force_log_type w
  = (if negb (status_code resp =? 200)
     then Raise (APIError ("Failed to ingest log: " +:+ text resp))
     else response_json resp,
     {| client := client w2; session := (serve (session w2) req).2;
        requests := requests w2 ++ [req]; heap := heap w2;
        clock_reads := clock_reads w2; uuid_draws := uuid_draws w2 |}).
Proof.
  intros Hvalid et ct Hlt Hres Hname Hid req resp. unfold ingest_log.
  replace (negb (is_valid_log_type log_type) && negb force_log_type) with false
    by (destruct (is_valid_log_type log_type), force_log_type; done).
  rewrite bind_read_clock. fold et. fold ct. rewrite Hlt, bind_lift_ok.
  cbv iota.
  unfold mbind at 1, M_bind at 1, bind at 1.
  unfold mbind at 1, M_bind at 1, bind at 1. rewrite Hres.
  rewrite Hname, bind_lift_ok. simpl extract_forwarder_id_of. rewrite Hid.
  unfold lift at 1. rewrite bind_get_client. unfold session_post.
  rewrite bind_send. subst req resp. unfold import_request.
  by case_match.
Qed.


(** * Further properties of UDM ingestion *)

(** ** One event or a list of events *)

(** X11. A single event given as a mapping is handled as the list holding
    that one event: the call is the call on a fresh one-element list placed
    behind the caller's objects. So an empty mapping is not "no events": it
    is rejected for its missing ["metadata"] section. *)
Theorem ingest_udm_single_event (depth : nat) (l : loc) (d : list (string * pyval))
    (add_missing_ids : bool) (w : world) :
  heap w !! l = Some (HDict d) →
  ingest_udm depth (PRef l) add_missing_ids w
  = ingest_udm depth (PRef (length (heap w))) add_missing_ids
      (with_heap w (heap w ++ [HList [PRef l]]))
  ∧ (d = [] →
     (ingest_udm (S (S depth)) (PRef l) add_missing_ids w).1
     = Raise (ValueError "UDM event missing required 'metadata' section")).
Proof.
  intros Hl.
  assert (Hlen : (l < length (heap w))%nat) by by eapply lookup_lt_Some.
  assert (Hnew : (heap w ++ [HList [PRef l]]) !! length (heap w)
                 = Some (HList [PRef l])).
  { by rewrite lookup_app_r, Nat.sub_diag by lia. }
  assert (Hstep : ∀ depth,
    prepare_events depth (PRef l) add_missing_ids w
    = prepare_events depth (PRef (length (heap w))) add_missing_ids
        (with_heap w (heap w ++ [HList [PRef l]]))).
  { intros depth'. unfold prepare_events. rewrite !bind_get_heap.
    simpl is_dict. rewrite Hl. simpl heap. rewrite Hnew. by destruct w. }
  split.
  - unfold ingest_udm, mbind, M_bind, bind. by rewrite Hstep.
  - intros ->. unfold ingest_udm. unfold mbind at 1, M_bind at 1, bind at 1.
    rewrite Hstep. unfold prepare_events. rewrite !bind_get_heap.
    cbn [is_dict heap with_heap]. rewrite Hnew, bind_ret, bind_get_heap.
    cbn [heap with_heap py_truthy]. rewrite Hnew. cbv iota. cbn [negb].
    cbv iota.
    unfold mbind at 1, M_bind at 1, bind at 1. unfold deepcopy_events.
    cbv beta. cbn [heap with_heap deepcopy]. rewrite lookup_empty, Hnew.
    cbn [copy_items deepcopy].
    rewrite lookup_insert_ne by lia. rewrite lookup_empty.
    rewrite lookup_app_l by (rewrite length_app; simpl; lia).
    rewrite lookup_app_l by lia. rewrite Hl. cbn [copy_entries].
    set (h := heap w) in *.
    set (n := length h) in *.
    assert (Hn1 : length ((h ++ [HList [PRef l]]) ++ [HList []]) = S (S n)).
    { rewrite !length_app. simpl. lia. }
    assert (Hn0 : length (h ++ [HList [PRef l]]) = S n).
    { rewrite length_app. simpl. subst n. lia. }
    rewrite Hn1, !Hn0.
    unfold list_append_at.
    assert (Hat : (((h ++ [HList [PRef l]]) ++ [HList []]) ++ [HDict []])
                    !! S n = Some (HList [])).
    { rewrite lookup_app_l by (rewrite !length_app; simpl; lia).
      apply list_lookup_middle. rewrite length_app. simpl. subst n. lia. }
    rewrite Hat. simpl.
    rewrite bind_get_heap. simpl heap.
    set (h3 := <[S n := _]> _).
    assert (H3 : h3 !! S n = Some (HList [PRef (S (S n))])).
    { subst h3. apply list_lookup_insert_eq. rewrite !length_app. simpl. lia. }
    rewrite H3, bind_lift_ok. simpl process_events.
    unfold mbind at 1, M_bind at 1, bind at 1.
    unfold mbind at 1, M_bind at 1, bind at 1.
    unfold process_event. rewrite bind_get_heap. cbn [heap with_heap].
    assert (H4 : h3 !! S (S n) = Some (HDict [])).
    { subst h3. rewrite list_lookup_insert_ne by lia.
      apply list_lookup_middle. rewrite !length_app. simpl. subst n. lia. }
    by rewrite H4.
Qed.

(** ** Validation comes before the request *)

Definition import_events_request (c : ChronicleClient) (events : list json)
  : request :=
  POST (import_events_url c) (import_events_body events).

Lemma process_event_counters add event w :
  let w' := (process_event add event w).2 in
  (add = false → uuid_draws w' = uuid_draws w)
  ∧ client w' = client w.
Proof.
  unfold process_event. munfold.
  destruct event as [| | | |le]; try done.
  destruct (heap w !! le) as [[ed|?]|]; try done.
  destruct (dict_get "metadata" ed) as [m|]; [|done].
  destruct m as [| | | |lm]; try done.
  destruct (heap w !! lm) as [[md|?]|]; try done.
  destruct (negb (bool_decide (is_Some (dict_get "event_timestamp" md))));
    simpl; (destruct add; simpl; [|done]); by case_match.
Qed.

Lemma process_events_counters add events w :
  let w' := (process_events add events w).2 in
  (add = false → uuid_draws w' = uuid_draws w)
  ∧ client w' = client w.
Proof.
  revert w. induction events as [|event events IH]; intros w; simpl; [done|].
  unfold mbind, M_bind, bind.
  pose proof (process_event_counters add event w) as [Hu Hc]. simpl in *.
  destruct (process_event add event w) as [[[]|e] w1]; simpl in *; [|done].
  destruct (IH w1) as [Hu1 Hc1].
  split; [|congruence]. intros Hadd. rewrite Hu1, Hu; done.
Qed.

Lemma prepare_events_counters depth udm_events add w :
  add = false →
  uuid_draws (prepare_events depth udm_events add w).2 = uuid_draws w.
Proof.
  intros Hadd. unfold prepare_events. rewrite bind_get_heap.
  match goal with |- context [mbind ?K _] => set (k := K) end.
  assert (Htail : ∀ v1 w1, uuid_draws w1 = uuid_draws w →
                           uuid_draws (k v1 w1).2 = uuid_draws w).
  { intros v1 w1 Hw1. subst k. simpl. rewrite bind_get_heap.
    destruct (negb (py_truthy (heap w1) v1)); [done|].
    unfold mbind at 1, M_bind at 1, bind at 1. unfold deepcopy_events.
    destruct (deepcopy depth v1 ∅ (heap w1)) as [r [memo h2]]. simpl.
    destruct r as [events_copy|e]; simpl; [|done].
    rewrite bind_get_heap. simpl heap.
    destruct (events_of h2 events_copy) as [events|e];
      [rewrite bind_lift_ok|by rewrite bind_lift_raise].
    unfold mbind, M_bind, bind.
    pose proof (process_events_counters add events (with_heap w1 h2)) as [Hu _].
    simpl in Hu. specialize (Hu Hadd).
    destruct (process_events add events (with_heap w1 h2)) as [[[]|e] w3];
      simpl in *; congruence. }
  destruct (is_dict (heap w) udm_events).
  - unfold mbind, M_bind, bind, put_heap, mret, M_ret, ret. by apply Htail.
  - rewrite bind_ret. by apply Htail.
Qed.

(** The failures of [ingest_udm] that are not the backend's: a rejected
    input or event, an input that is not iterable, a nesting too deep to
    copy, a body that does not serialise. *)
Definition udm_local_error (e : exn) : Prop :=
  match e with
  | ValueError _ | TypeError | RecursionError | InvalidJSONError => True
  | _ => False
  end.

Definition copy_error (r : result pyval * (gmap loc loc * store)) : Prop :=
  ∀ e, r.1 = Raise e → udm_local_error e.

Lemma copy_items_error rec y xs memo h :
  (∀ a memo h, copy_error (rec a memo h)) →
  copy_error (copy_items rec y xs memo h).
Proof.
  intros Hrec. revert memo h. induction xs as [|a xs IH]; intros memo h; simpl.
  - by intros e [=].
  - specialize (Hrec a memo h).
    destruct (rec a memo h) as [[a'|e] [memo' h']]; [apply IH|done].
Qed.

Lemma copy_entries_error rec y kvs memo h :
  (∀ a memo h, copy_error (rec a memo h)) →
  copy_error (copy_entries rec y kvs memo h).
Proof.
  intros Hrec. revert memo h.
  induction kvs as [|[k v] kvs IH]; intros memo h; simpl.
  - by intros e [=].
  - specialize (Hrec v memo h).
    destruct (rec v memo h) as [[v'|e] [memo' h']]; [apply IH|done].
Qed.

Lemma deepcopy_error depth x memo h : copy_error (deepcopy depth x memo h).
Proof.
  revert x memo h. induction depth as [|d IH]; intros x memo h; simpl.
  - by intros e [= <-].
  - destruct x as [| | | |l]; try by intros e [=].
    destruct (memo !! l); [by intros e [=]|].
    destruct (h !! l) as [[kvs|xs]|].
    + by apply copy_entries_error.
    + by apply copy_items_error.
    + by intros e [= <-].
Qed.

Lemma process_event_error add event w e :
  (process_event add event w).1 = Raise e → udm_local_error e.
Proof.
  unfold process_event. munfold.
  destruct event as [| | | |le]; try by intros [= <-].
  destruct (heap w !! le) as [[ed|?]|]; try by intros [= <-].
  destruct (dict_get "metadata" ed) as [m|]; [|by intros [= <-]].
  destruct m as [| | | |lm]; try by intros [= <-].
  destruct (heap w !! lm) as [[md|?]|]; try by intros [= <-].
  destruct (negb (bool_decide (is_Some (dict_get "event_timestamp" md))));
    simpl; by case_match.
Qed.

Lemma process_events_error add events w e :
  (process_events add events w).1 = Raise e → udm_local_error e.
Proof.
  revert w. induction events as [|event events IH]; intros w; simpl; [done|].
  unfold mbind, M_bind, bind.
  pose proof (process_event_error add event w) as He.
  destruct (process_event add event w) as [[[]|e'] w1]; simpl in *.
  - apply IH.
  - intros [= <-]. by apply He.
Qed.

Lemma prepare_events_error depth udm_events add w e :
  (prepare_events depth udm_events add w).1 = Raise e → udm_local_error e.
Proof.
  unfold prepare_events. rewrite bind_get_heap.
  match goal with |- context [mbind ?K _] => set (k := K) end.
  assert (Htail : ∀ v1 w1, (k v1 w1).1 = Raise e → udm_local_error e).
  { intros v1 w1. subst k. simpl. rewrite bind_get_heap.
    destruct (negb (py_truthy (heap w1) v1)); [by intros [= <-]|].
    unfold mbind at 1, M_bind at 1, bind at 1. unfold deepcopy_events.
    pose proof (deepcopy_error depth v1 ∅ (heap w1)) as Hcopy.
    destruct (deepcopy depth v1 ∅ (heap w1)) as [r [memo h2]]. simpl in *.
    destruct r as [events_copy|e']; simpl; [|intros [= <-]; by apply Hcopy].
    rewrite bind_get_heap. simpl heap.
    destruct (events_of h2 events_copy) as [events|e'] eqn:Hev;
      [rewrite bind_lift_ok|rewrite bind_lift_raise].
    - unfold mbind, M_bind, bind.
      pose proof (process_events_error add events (with_heap w1 h2)) as Hloop.
      destruct (process_events add events (with_heap w1 h2)) as [[[]|e'] w3];
        simpl in *; [done|]. intros [= <-]. by apply Hloop.
    - simpl. intros [= <-]. revert Hev. unfold events_of.
      repeat case_match; try done; by intros [= <-]. }
  destruct (is_dict (heap w) udm_events).
  - unfold mbind, M_bind, bind, put_heap, mret, M_ret, ret. by apply Htail.
  - rewrite bind_ret. by apply Htail.
Qed.

(** X12. [ingest_udm] sends at most one request, and only after every
    event has been checked and the body serialised. A call that ends in a
    failure other than [APIError] has sent nothing and left the backend as
    it was, and the failure is a [ValueError], a [TypeError], a
    [RecursionError] or the serialisation failure. A call that returns a
    value or raises [APIError] has sent exactly one import request. *)
Theorem ingest_udm_validates_first (depth : nat) (udm_events : pyval)
    (add_missing_ids : bool) (w : world) :
  let r := ingest_udm depth udm_events add_missing_ids w in
  client r.2 = client w
  ∧ (∀ e, r.1 = Raise e → is_APIError r.1 = false →
          udm_local_error e
          ∧ requests r.2 = requests w ∧ session r.2 = session w)
  ∧ ((∃ j, r.1 = Ok j) ∨ is_APIError r.1 = true →
     ∃ events,
       requests r.2 = requests w ++ [import_events_request (client w) events]
       ∧ session r.2
         = (serve (session w) (import_events_request (client w) events)).2).
Proof.
  simpl. unfold ingest_udm. unfold mbind, M_bind, bind.
  pose proof (prepare_events_inv depth udm_events add_missing_ids w)
    as (Hc & Hs & Hr & _).
  pose proof (prepare_events_error depth udm_events add_missing_ids w) as Herr.
  destruct (prepare_events depth udm_events add_missing_ids w)
    as [[events|e] w1]; simpl in *.
  - clear Herr. unfold submit_events. rewrite bind_get_client, bind_get_heap.
    destruct (mapM (reify depth (heap w1)) events) as [evs|]; simpl.
    + unfold session_post. rewrite bind_send. simpl.
      unfold import_events_request. rewrite <-Hc, <-Hs, <-Hr.
      set (resp := (serve (session w1) _).1).
      destruct (400 <=? status_code resp); simpl.
      * split_and!; [done|by intros ? _ [=]|]. intros _. by exists evs.
      * destruct (PyStr.strip_nonempty (text resp)); simpl;
          [destruct (response_json resp); simpl|];
          (split_and!; [done|by intros ? [=]|]; intros _; by exists evs).
    + split_and!; [done|by intros ? [= <-] _|]. intros [[j [=]]|[=]].
  - specialize (Herr e eq_refl).
    split_and!; [done|by intros ? [= <-] _|]. intros [[j [=]]|Hapi].
    by destruct e.
Qed.

(** X13. Once the response has come back with a status below 400,
    [ingest_udm] returns and does not raise: the decoded body when the
    text is not blank and decodes, the text itself under ["raw_response"]
    when it does not decode, and the empty mapping when the text is empty
    or blank. *)
Theorem ingest_udm_response (depth : nat) (udm_events : pyval)
    (add_missing_ids : bool) (req : request) (w : world) :
  requests (ingest_udm depth udm_events add_missing_ids w).2
  = requests w ++ [req] →
  let resp := (serve (session w) req).1 in
  status_code resp < 400 →
  (ingest_udm depth udm_events add_missing_ids w).1
  = Ok (if PyStr.strip_nonempty (text resp)
        then match json_body resp with
             | Some j => j
             | None => JObj [("raw_response", JStr (text resp))]
             end
        else JObj []).
Proof.
  unfold ingest_udm. unfold mbind, M_bind, bind.
  pose proof (prepare_events_inv depth udm_events add_missing_ids w)
    as (Hc & Hs & Hr & _).
  destruct (prepare_events depth udm_events add_missing_ids w)
    as [[events|e] w1]; simpl in *.
  - unfold submit_events. rewrite bind_get_client, bind_get_heap.
    destruct (mapM (reify depth (heap w1)) events) as [evs|]; simpl.
    + unfold session_post. rewrite bind_send. simpl. rewrite Hr, Hs.
      set (resp := (serve (session w) _).1).
      assert (Hreq : ∀ (x : result json * world) y,
                requests x.2 = requests w ++ [y] →
                requests x.2 = requests w ++ [req] → y = req).
      { intros x y -> [=]%(inj (app (requests w))). done. }
      intros Hsent Hst.
      assert (req = POST (import_events_url (client w1)) (import_events_body evs))
        as ->.
      { revert Hsent.
        destruct (400 <=? status_code resp); simpl;
          [|destruct (PyStr.strip_nonempty (text resp)); simpl;
            [destruct (response_json resp); simpl|]];
          by intros [=]%(inj (app (requests w))). }
      fold resp in Hst. fold resp.
      apply Z.leb_gt in Hst as ->.
      destruct (PyStr.strip_nonempty (text resp)); [|done].
      unfold response_json. by destruct (json_body resp).
    + rewrite Hr. intros Habs. apply (f_equal length) in Habs.
      rewrite length_app in Habs. simpl in Habs. lia.
  - rewrite Hr. intros Habs. apply (f_equal length) in Habs.
    rewrite length_app in Habs. simpl in Habs. lia.
Qed.

(** X14. With [add_missing_ids] false, [ingest_udm] draws no UUID, on any
    input and whatever the outcome. *)
Theorem ingest_udm_no_ids (depth : nat) (udm_events : pyval) (w : world) :
  uuid_draws (ingest_udm depth udm_events false w).2 = uuid_draws w.
Proof.
  unfold ingest_udm. unfold mbind, M_bind, bind.
  pose proof (prepare_events_counters depth udm_events false w eq_refl) as Hu.
  destruct (prepare_events depth udm_events false w) as [[events|e] w1];
    simpl in *; [|done].
  rewrite <-Hu. unfold submit_events. rewrite bind_get_client, bind_get_heap.
  destruct (mapM (reify depth (heap w1)) events) as [evs|]; [|done].
  unfold session_post. rewrite bind_send. simpl.
  by repeat case_match.
Qed.

(** ** Back-filling one event *)

(** The run of the loop body on a well-formed event, written out. *)
Lemma process_event_run add le lm ed md w :
  heap w !! le = Some (HDict ed) →
  dict_get "metadata" ed = Some (PRef lm) →
  heap w !! lm = Some (HDict md) →
  let has_ts := bool_decide (is_Some (dict_get "event_timestamp" md)) in
  let has_id := bool_decide (is_Some (dict_get "id" md)) in
  let md1 :=
    if has_ts then md
    else dict_set "event_timestamp"
           (PStr (backfill_timestamp (datetime_now (clock_reads w)))) md in
  let md2 :=
    if add && negb has_id
    then dict_set "id" (PStr (uuid4 (uuid_draws w))) md1 else md1 in
  process_event add (PRef le) w
  = (Ok tt,
     {| client := client w; session := session w; requests := requests w;
        heap := <[lm := HDict md2]> (heap w);
        clock_reads := if has_ts then clock_reads w else S (clock_reads w);
        uuid_draws := if add && negb has_id
                      then S (uuid_draws w) else uuid_draws w |}).
Proof.
  intros Hle Hm Hlm has_ts has_id md1 md2.
  assert (Hlen : (lm < length (heap w))%nat) by by eapply lookup_lt_Some.
  assert (Hid1 : bool_decide (is_Some (dict_get "id" md1)) = has_id).
  { subst md1. destruct has_ts; [done|]. by rewrite dict_get_set_ne. }
  unfold process_event. munfold. rewrite Hle, Hm, Hlm. fold has_ts.
  destruct has_ts; simpl.
  - rewrite Hlm. fold has_id. subst md2.
    destruct (add && negb has_id); simpl.
    + unfold dict_set_at. by rewrite Hlm.
    + rewrite list_insert_id by done. by destruct w.
  - unfold dict_set_at. rewrite !Hlm.
    rewrite list_lookup_insert_eq by done. fold md1. rewrite Hid1. subst md2.
    destruct (add && negb has_id); simpl.
    + rewrite list_lookup_insert_eq by done.
      by rewrite list_insert_insert_eq.
    + done.
Qed.

(** X15. The loop body on a well-formed event (a mapping whose
    ["metadata"] is a mapping) succeeds and writes to the metadata object
    only. Every key the metadata had keeps its value: a timestamp or an ID
    that is present is never replaced. Afterwards ["event_timestamp"] is
    present, and ["id"] is present exactly when it was before or
    [add_missing_ids] is set. The clock is read exactly when the timestamp
    was missing, and a UUID is drawn exactly when the ID was missing and
    [add_missing_ids] is set. *)
Theorem process_event_backfill (add_missing_ids : bool) (le lm : loc)
    (ed md : list (string * pyval)) (w : world) :
  heap w !! le = Some (HDict ed) →
  dict_get "metadata" ed = Some (PRef lm) →
  heap w !! lm = Some (HDict md) →
  ∃ md',
    let w' := (process_event add_missing_ids (PRef le) w).2 in
    (process_event add_missing_ids (PRef le) w).1 = Ok tt
    ∧ heap w' = <[lm := HDict md']> (heap w)
    ∧ (∀ k v, dict_get k md = Some v → dict_get k md' = Some v)
    ∧ (∀ k, k ≠ "event_timestamp" → k ≠ "id" → dict_get k md' = dict_get k md)
    ∧ is_Some (dict_get "event_timestamp" md')
    ∧ (is_Some (dict_get "id" md')
       ↔ add_missing_ids = true ∨ is_Some (dict_get "id" md))
    ∧ (clock_reads w' = clock_reads w ↔ is_Some (dict_get "event_timestamp" md))
    ∧ (uuid_draws w' = uuid_draws w
       ↔ add_missing_ids = false ∨ is_Some (dict_get "id" md)).
Proof.
  intros Hle Hm Hlm.
  pose proof (process_event_run add_missing_ids le lm ed md w Hle Hm Hlm) as Hrun.
  cbv zeta in Hrun.
  destruct (dict_get "event_timestamp" md) as [ts|] eqn:Hts;
    destruct (dict_get "id" md) as [i|] eqn:Hid;
    destruct add_missing_ids;
    simpl in Hrun; eexists; cbv zeta; rewrite Hrun;
    cbn [fst snd heap clock_reads uuid_draws];
    (split_and!; [done|done|..]).
  all: try (intros k v Hk;
            destruct (decide (k = "id")) as [?|?];
            destruct (decide (k = "event_timestamp")) as [?|?];
            simplify_eq;
            rewrite ?dict_get_set_eq, ?dict_get_set_ne by done; congruence).
  all: try (intros k ? ?; by rewrite ?dict_get_set_ne by done).
  all: rewrite ?dict_get_set_eq, ?dict_get_set_ne, ?dict_get_set_eq by done;
    rewrite ?Hts, ?Hid.
  all: try done.
  all: try (split; [by auto|done]).
  all: try (split; [lia|by intros [? ?]]).
  all: try (split; [lia|by intros [?|[? ?]]]).
  all: try (split; [by intros [? ?]|by intros [?|[? ?]]]).
Qed.


(** ** The data of a log entry *)

(** Decoding of Base64 as RFC 4648 has it: groups of four characters of
    the alphabet, the last group padded with [=]. *)
Definition b64_index (c : ascii) : option nat :=
  let fix go (n : nat) (s : string) : option nat :=
    match s with
    | EmptyString => None
    | String a r => if Ascii.eqb a c then Some n else go (S n) r
    end in
  go 0%nat b64_alphabet.

Fixpoint b64decode (s : string) : option string :=
  match s with
  | EmptyString => Some EmptyString
  | String c1 (String c2 (String c3 (String c4 r))) =>
      match b64_index c1, b64_index c2 with
      | Some i1, Some i2 =>
          let b1 := ascii_of_nat (i1 * 4 + i2 / 16) in
          if Ascii.eqb c3 "=" then
            if Ascii.eqb c4 "=" && String.eqb r "" then Some (String b1 "")
            else None
          else
            match b64_index c3 with
            | Some i3 =>
                let b2 := ascii_of_nat (i2 mod 16 * 16 + i3 / 4) in
                if Ascii.eqb c4 "=" then
                  if String.eqb r "" then Some (String b1 (String b2 ""))
                  else None
                else
                  match b64_index c4, b64decode r with
                  | Some i4, Some t =>
                      let b3 := ascii_of_nat (i3 mod 4 * 64 + i4) in
                      Some (String b1 (String b2 (String b3 t)))
                  | _, _ => None
                  end
            | None => None
            end
      | _, _ => None
      end
  | _ => None
  end%nat.

Lemma string_triple_ind (P : string → Prop) :
  P "" → (∀ a, P (String a "")) → (∀ a b, P (String a (String b ""))) →
  (∀ a b c r, P r → P (String a (String b (String c r)))) → ∀ s, P s.
Proof.
  intros H0 H1 H2 H3. fix IH 1. intros [|a [|b [|c r]]].
  - exact H0.
  - apply H1.
  - apply H2.
  - apply H3, IH.
Qed.

Lemma b64_index_char n : (n < 64)%nat → b64_index (b64_char n) = Some n.
Proof.
  intros Hn.
  assert (H : forallb (λ n, match b64_index (b64_char n) with
                            | Some m => Nat.eqb m n
                            | None => false
                            end) (seq 0 64) = true) by by vm_compute.
  rewrite forallb_forall in H. specialize (H n).
  destruct (b64_index (b64_char n)) as [m|].
  - f_equal. apply Nat.eqb_eq, H, in_seq. lia.
  - discriminate H. apply in_seq. lia.
Qed.

Lemma b64_char_not_pad n : (n < 64)%nat → Ascii.eqb (b64_char n) "=" = false.
Proof.
  intros Hn.
  assert (H : forallb (λ n, negb (Ascii.eqb (b64_char n) "=")) (seq 0 64) = true)
    by by vm_compute.
  rewrite forallb_forall in H. apply negb_true_iff, H, in_seq. lia.
Qed.

(** Quotients and remainders by a constant, named and bounded, for [lia]. *)
Ltac name_div_mod :=
  repeat match goal with
    | |- context [Nat.div ?a ?b] =>
        pose proof (Nat.div_mod_eq a b);
        pose proof (Nat.mod_upper_bound a b ltac:(lia));
        generalize dependent (Nat.modulo a b);
        generalize dependent (Nat.div a b); intros
    | |- context [Nat.modulo ?a ?b] =>
        pose proof (Nat.div_mod_eq a b);
        pose proof (Nat.mod_upper_bound a b ltac:(lia));
        generalize dependent (Nat.modulo a b);
        generalize dependent (Nat.div a b); intros
    | H : context [Nat.div ?a ?b] |- _ =>
        pose proof (Nat.div_mod_eq a b);
        pose proof (Nat.mod_upper_bound a b ltac:(lia));
        generalize dependent (Nat.modulo a b);
        generalize dependent (Nat.div a b); intros
    | H : context [Nat.modulo ?a ?b] |- _ =>
        pose proof (Nat.div_mod_eq a b);
        pose proof (Nat.mod_upper_bound a b ltac:(lia));
        generalize dependent (Nat.modulo a b);
        generalize dependent (Nat.div a b); intros
    end.

Lemma b64_bytes x y z :
  (x < 256 → y < 256 → z < 256 →
   (x / 4 < 64 ∧ x mod 4 * 16 < 64 ∧ x mod 4 * 16 + y / 16 < 64
    ∧ y mod 16 * 4 < 64 ∧ y mod 16 * 4 + z / 64 < 64 ∧ z mod 64 < 64)
   ∧ x / 4 * 4 + (x mod 4 * 16) / 16 = x
   ∧ x / 4 * 4 + (x mod 4 * 16 + y / 16) / 16 = x
   ∧ (x mod 4 * 16 + y / 16) mod 16 * 16 + (y mod 16 * 4) / 4 = y
   ∧ (x mod 4 * 16 + y / 16) mod 16 * 16 + (y mod 16 * 4 + z / 64) / 4 = y
   ∧ (y mod 16 * 4 + z / 64) mod 4 * 64 + z mod 64 = z)%nat.
Proof. intros Hx Hy Hz. name_div_mod. lia. Qed.

Lemma b64decode_encode s : b64decode (b64encode s) = Some s.
Proof.
  induction s as [|a|a b|a b c r IH] using string_triple_ind; [done|..].
  - pose proof (b64_bytes _ _ _ (nat_ascii_bounded a) (nat_ascii_bounded a)
                  (nat_ascii_bounded a)) as ((?&?&?&?&?&?)&Hb1&_).
    cbn [b64encode b64decode]. rewrite !b64_index_char by done.
    cbn -[Nat.div Nat.modulo]. by rewrite Hb1, ascii_nat_embedding.
  - pose proof (b64_bytes _ _ _ (nat_ascii_bounded a) (nat_ascii_bounded b)
                  (nat_ascii_bounded b)) as ((?&?&?&?&?&?)&_&Hb1&Hb2&_).
    cbn [b64encode b64decode].
    rewrite !b64_index_char, b64_char_not_pad by done.
    cbn -[Nat.div Nat.modulo]. by rewrite Hb1, Hb2, !ascii_nat_embedding.
  - pose proof (b64_bytes _ _ _ (nat_ascii_bounded a) (nat_ascii_bounded b)
                  (nat_ascii_bounded c)) as ((?&?&?&?&?&?)&_&Hb1&_&Hb2&Hb3).
    cbn [b64encode b64decode].
    rewrite !b64_index_char, !b64_char_not_pad, IH by done.
    cbv zeta. by rewrite Hb1, Hb2, Hb3, !ascii_nat_embedding.
Qed.

Lemma b64encode_length s :
  String.length (b64encode s) = (4 * ((String.length s + 2) / 3))%nat.
Proof.
  induction s as [|a|a b|a b c r IH] using string_triple_ind; [done..|].
  cbn [b64encode String.length]. rewrite IH.
  replace (S (S (S (String.length r))) + 2)%nat
    with (1 * 3 + (String.length r + 2))%nat by lia.
  rewrite Nat.div_add_l by done. lia.
Qed.

(** X16. The ["data"] of a log entry is the Base64 text of the message:
    it decodes back to the message, byte for byte, so two messages that
    differ give entries that differ; it is four characters for every three
    bytes of the message, rounded up. *)
Theorem log_entry_data (log_entry_time_str collection_time_str : string)
    (namespace : option string) (labels : option (list (string * string)))
    (msg : string) :
  (∃ data,
     py_getitem (log_entry log_entry_time_str collection_time_str namespace
                   labels msg) "data" = Ok (JStr data)
     ∧ b64decode data = Some msg
     ∧ String.length data = (4 * ((String.length msg + 2) / 3))%nat)
  ∧ ∀ msg',
      log_entry log_entry_time_str collection_time_str namespace labels msg'
      = log_entry log_entry_time_str collection_time_str namespace labels msg →
      msg' = msg.
Proof.
  split.
  - exists (b64encode msg).
    split_and!; [done|apply b64decode_encode|apply b64encode_length].
  - intros msg' H.
    apply (f_equal (λ e, py_getitem e "data")) in H. simpl in H.
    injection H as H.
    apply (f_equal b64decode) in H. rewrite !b64decode_encode in H.
    by injection H.
Qed.


(** * The copy of the events is faithful *)

(** ** Reading a value with more fuel *)

Lemma reify_mono d d' (h : store) v j :
  (d ≤ d')%nat → reify d h v = Some j → reify d' h v = Some j.
Proof.
  revert d' v j. induction d as [|d IH]; intros d' v j Hle;
    destruct v as [| | | |l]; simpl; try (by destruct d'); try done.
  destruct d' as [|d']; [lia|]. simpl.
  destruct (h !! l) as [[kvs|xs]|]; [| |done].
  - destruct (mapM _ kvs) as [js|] eqn:Hm; [|done]. intros [= <-].
    apply mapM_Some in Hm.
    assert (Hm' : mapM (λ kv, pair kv.1 <$> reify d' h kv.2) kvs = Some js).
    { apply mapM_Some. eapply Forall2_impl; [exact Hm|].
      intros [k x] y. simpl.
      destruct (reify d h x) as [jx|] eqn:Hx; [|done].
      by rewrite (IH d' _ _ ltac:(lia) Hx). }
    by rewrite Hm'.
  - destruct (mapM _ xs) as [js|] eqn:Hm; [|done]. intros [= <-].
    apply mapM_Some in Hm.
    assert (Hm' : mapM (reify d' h) xs = Some js).
    { apply mapM_Some. eapply Forall2_impl; [exact Hm|].
      intros x y. apply IH. lia. }
    by rewrite Hm'.
Qed.

(** The least fuel with which an object is read. *)
Lemma reify_min d (h : store) l j :
  reify d h (PRef l) = Some j →
  ∃ dm, (dm < d)%nat ∧ reify (S dm) h (PRef l) = Some j
        ∧ reify dm h (PRef l) = None.
Proof.
  induction d as [|d IH]; [done|]. intros Hd.
  destruct (reify d h (PRef l)) as [j0|] eqn:E.
  - pose proof (reify_mono d (S d) h _ _ ltac:(lia) E) as E'.
    rewrite Hd in E'. injection E' as ->.
    destruct (IH eq_refl) as (dm & Hlt & H1 & H2).
    exists dm. split_and!; [lia|done|done].
  - exists d. split_and!; [lia|done|done].
Qed.

Lemma reify_atom d d' (h h' : store) v :
  match v with PRef _ => False | _ => True end →
  reify d h v = reify d' h' v.
Proof. destruct v, d, d'; done. Qed.

(** ** Values that read the same whatever the objects in progress hold *)

(** [h'] holds every object of [h] outside [I] as [h] has it. *)
Definition agree (I : loc → Prop) (h h' : store) : Prop :=
  ∀ k o, h !! k = Some o → ¬ I k → h' !! k = Some o.

Definition sturdy (I : loc → Prop) (h : store) (v : pyval) (d : nat) (j : json)
  : Prop :=
  ∀ h', agree I h h' → reify d h' v = Some j.

Lemma agree_refl I h : agree I h h.
Proof. by intros k o. Qed.

Lemma agree_trans I h1 h2 h3 : agree I h1 h2 → agree I h2 h3 → agree I h1 h3.
Proof. intros H12 H23 k o Hk HI. apply H23; [|done]. by apply H12. Qed.

Lemma agree_weaken (I I' : loc → Prop) h h' :
  (∀ k, I k → I' k) → agree I h h' → agree I' h h'.
Proof. intros HI Ha k o Hk HI'. apply Ha; [done|]. intros ?. apply HI'. auto. Qed.

Lemma agree_prefix I (h h' : store) : h `prefix_of` h' → agree I h h'.
Proof. intros Hp k o Hk _. by eapply prefix_lookup_Some. Qed.

Lemma agree_insert (I : loc → Prop) (h : store) y o : I y → agree I h (<[y := o]> h).
Proof.
  intros Hy k o' Hk HI. rewrite list_lookup_insert_ne; [done|]. by intros ->.
Qed.

Lemma sturdy_agree I h h' v d j :
  agree I h h' → sturdy I h v d j → sturdy I h' v d j.
Proof. intros Ha Hs h'' Ha'. apply Hs. by eapply agree_trans. Qed.

Lemma sturdy_weaken (I I' : loc → Prop) h v d j :
  (∀ k, I k → I' k) → sturdy I' h v d j → sturdy I h v d j.
Proof. intros HI Hs h' Ha. apply Hs. by eapply agree_weaken. Qed.

Lemma sturdy_reify I h v d j : sturdy I h v d j → reify d h v = Some j.
Proof. intros Hs. apply Hs, agree_refl. Qed.

Lemma lookup_incl_prefix (h h' : store) :
  (∀ k o, h !! k = Some o → h' !! k = Some o) → h `prefix_of` h'.
Proof.
  intros Hincl. exists (drop (length h) h').
  rewrite <-(take_drop (length h) h') at 1. f_equal.
  apply list_eq. intros k.
  destruct (h !! k) as [o|] eqn:Hk.
  - rewrite lookup_take_lt by by eapply lookup_lt_Some. by apply Hincl.
  - apply lookup_ge_None in Hk. rewrite lookup_take_ge; done.
Qed.

(** ** The invariant of the memo *)

(** Every dictionary of the store has each key once. *)
Definition wf_store (h : store) : Prop :=
  ∀ l kvs, h !! l = Some (HDict kvs) → NoDup kvs.*1.

(** An entry of the memo is the copy of an object still being copied (one
    of [LI]), or a finished copy: it reads as the original does. *)
Definition memo_inv (h0 : store) (LI I : loc → Prop) (memo : gmap loc loc)
    (h : store) : Prop :=
  ∀ l y, memo !! l = Some y →
    LI l ∨ ∀ d j, reify d h0 (PRef l) = Some j → sturdy I h (PRef y) d j.

Lemma memo_inv_agree h0 LI I memo h h' :
  agree I h h' → memo_inv h0 LI I memo h → memo_inv h0 LI I memo h'.
Proof.
  intros Ha Hm l y Hl. destruct (Hm l y Hl) as [?|Hc]; [by left|right].
  intros d j Hd. eapply sturdy_agree; [done|]. by apply Hc.
Qed.

Definition faithful (h0 : store) (LI I : loc → Prop) (d : nat) (j : json)
    (memo : gmap loc loc) (h : store)
    (res : result pyval * (gmap loc loc * store)) : Prop :=
  ∃ x' memo' h',
    res = (Ok x', (memo', h')) ∧ h `prefix_of` h' ∧ memo ⊆ memo'
    ∧ memo_inv h0 LI I memo' h' ∧ sturdy I h' x' d j.

Lemma dict_set_fresh {V} k (v : V) d :
  k ∉ d.*1 → dict_set k v d = d ++ [(k, v)].
Proof.
  induction d as [|[k' v'] d IH]; simpl; [done|].
  intros Hk. apply not_elem_of_cons in Hk as [Hne Hk].
  destruct (String.eqb k' k) eqn:E.
  - by apply String.eqb_eq in E.
  - by rewrite IH.
Qed.

Section CopyFaithful.

Variables (h0 : store) (dm : nat).
Variable rec : pyval → gmap loc loc → store → result pyval * (gmap loc loc * store).
Hypothesis Hrec :
  ∀ x memo h LI I j,
    reify dm h0 x = Some j → h0 `prefix_of` h →
    (∀ l, LI l → reify dm h0 (PRef l) = None) →
    (∀ k, I k → (k < length h)%nat) →
    memo_inv h0 LI I memo h →
    faithful h0 LI I dm j memo h (rec x memo h).

Lemma copy_items_faithful (LI I : loc → Prop) y xs :
  (length h0 ≤ y)%nat → I y →
  (∀ l, LI l → reify dm h0 (PRef l) = None) →
  ∀ js memo h cs cjs,
    Forall2 (λ x j, reify dm h0 x = Some j) xs js →
    h0 `prefix_of` h →
    (∀ k, I k → (k < length h)%nat) →
    memo_inv h0 LI I memo h →
    h !! y = Some (HList cs) →
    Forall2 (λ c j, sturdy I h c dm j) cs cjs →
    ∃ memo' h' cs',
      copy_items rec y xs memo h = (Ok (PRef y), (memo', h'))
      ∧ (∀ k o, k ≠ y → h !! k = Some o → h' !! k = Some o)
      ∧ memo ⊆ memo'
      ∧ memo_inv h0 LI I memo' h'
      ∧ h' !! y = Some (HList cs')
      ∧ Forall2 (λ c j, sturdy I h' c dm j) cs' (cjs ++ js).
Proof.
  intros Hy HIy HLI.
  induction xs as [|a xs IH]; intros js memo h cs cjs Hxs Hp HI Hm Hcs Hst.
  - inversion Hxs; subst. exists memo, h, cs. rewrite app_nil_r.
    split_and!; done.
  - inversion Hxs as [|? ja ? js' Ha Hxs']; subst. simpl.
    destruct (Hrec a memo h LI I ja Ha Hp HLI HI Hm)
      as (a' & memo1 & h1 & -> & Hp1 & Hsub1 & Hm1 & Hsa).
    assert (Hcs1 : h1 !! y = Some (HList cs)) by by eapply prefix_lookup_Some.
    unfold list_append_at. rewrite Hcs1.
    set (h2 := <[y := HList (cs ++ [a'])]> h1).
    assert (Hylt : (y < length h1)%nat) by by eapply lookup_lt_Some.
    assert (Ha12 : agree I h1 h2) by by apply agree_insert.
    assert (Hlen : (length h ≤ length h1)%nat) by by apply prefix_length.
    destruct (IH js' memo1 h2 (cs ++ [a']) (cjs ++ [ja]) Hxs')
      as (memo' & h' & cs' & Hrun & Hframe & Hsub & Hm' & Hcs' & Hst').
    + apply prefix_insert_ge; [done|]. by etrans.
    + intros k Hk. subst h2. rewrite length_insert.
      specialize (HI k Hk). lia.
    + by eapply memo_inv_agree.
    + subst h2. by apply list_lookup_insert_eq.
    + apply Forall2_app.
      * eapply Forall2_impl; [exact Hst|]. intros c j Hc.
        eapply sturdy_agree; [exact Ha12|].
        eapply sturdy_agree; [|exact Hc]. by apply agree_prefix.
      * constructor; [|constructor]. by eapply sturdy_agree.
    + exists memo', h', cs'. split_and!; try done.
      * intros k o Hne Hk. apply Hframe; [done|]. subst h2.
        rewrite list_lookup_insert_ne by done. by eapply prefix_lookup_Some.
      * by etrans.
      * by rewrite <-app_assoc in Hst'.
Qed.

Lemma copy_entries_faithful (LI I : loc → Prop) y kvs :
  (length h0 ≤ y)%nat → I y →
  (∀ l, LI l → reify dm h0 (PRef l) = None) →
  ∀ js memo h cs cjs,
    Forall2 (λ kv kj, kj.1 = kv.1 ∧ reify dm h0 kv.2 = Some kj.2) kvs js →
    NoDup (cs.*1 ++ kvs.*1) →
    h0 `prefix_of` h →
    (∀ k, I k → (k < length h)%nat) →
    memo_inv h0 LI I memo h →
    h !! y = Some (HDict cs) →
    Forall2 (λ c kj, kj.1 = c.1 ∧ sturdy I h c.2 dm kj.2) cs cjs →
    ∃ memo' h' cs',
      copy_entries rec y kvs memo h = (Ok (PRef y), (memo', h'))
      ∧ (∀ k o, k ≠ y → h !! k = Some o → h' !! k = Some o)
      ∧ memo ⊆ memo'
      ∧ memo_inv h0 LI I memo' h'
      ∧ h' !! y = Some (HDict cs')
      ∧ Forall2 (λ c kj, kj.1 = c.1 ∧ sturdy I h' c.2 dm kj.2) cs' (cjs ++ js).
Proof.
  intros Hy HIy HLI.
  induction kvs as [|[k v] kvs IH];
    intros js memo h cs cjs Hkvs Hnd Hp HI Hm Hcs Hst.
  - inversion Hkvs; subst. exists memo, h, cs. rewrite app_nil_r.
    split_and!; done.
  - inversion Hkvs as [|? [k' jv] ? js' [Hk Hv] Hkvs']; subst. simpl in *.
    subst k'.
    destruct (Hrec v memo h LI I jv Hv Hp HLI HI Hm)
      as (v' & memo1 & h1 & -> & Hp1 & Hsub1 & Hm1 & Hsv).
    assert (Hcs1 : h1 !! y = Some (HDict cs)) by by eapply prefix_lookup_Some.
    unfold dict_set_at. rewrite Hcs1.
    assert (Hfresh : k ∉ cs.*1).
    { apply NoDup_app in Hnd as (_ & Hdisj & _). intros Hin.
      apply (Hdisj k Hin). by left. }
    rewrite dict_set_fresh by done.
    set (h2 := <[y := HDict (cs ++ [(k, v')])]> h1).
    assert (Hylt : (y < length h1)%nat) by by eapply lookup_lt_Some.
    assert (Ha12 : agree I h1 h2) by by apply agree_insert.
    assert (Hlen : (length h ≤ length h1)%nat) by by apply prefix_length.
    destruct (IH js' memo1 h2 (cs ++ [(k, v')]) (cjs ++ [(k, jv)]) Hkvs')
      as (memo' & h' & cs' & Hrun & Hframe & Hsub & Hm' & Hcs' & Hst').
    + rewrite fmap_app. simpl. rewrite <-app_assoc. done.
    + apply prefix_insert_ge; [done|]. by etrans.
    + intros k0 Hk0. subst h2. rewrite length_insert.
      specialize (HI k0 Hk0). lia.
    + by eapply memo_inv_agree.
    + subst h2. by apply list_lookup_insert_eq.
    + apply Forall2_app.
      * eapply Forall2_impl; [exact Hst|]. intros c j [Hc1 Hc2].
        split; [done|].
        eapply sturdy_agree; [exact Ha12|].
        eapply sturdy_agree; [|exact Hc2]. by apply agree_prefix.
      * constructor; [|constructor]. split; [done|]. by eapply sturdy_agree.
    + exists memo', h', cs'. split_and!; try done.
      * intros k0 o Hne Hk0. apply Hframe; [done|]. subst h2.
        rewrite list_lookup_insert_ne by done. by eapply prefix_lookup_Some.
      * by etrans.
      * by rewrite <-app_assoc in Hst'.
Qed.

End CopyFaithful.

(** [copy.deepcopy] on a value that reads as [j]: the call returns, leaves
    the objects there were as they are, and the copy reads as [j]. *)
Lemma deepcopy_faithful (h0 : store) :
  wf_store h0 →
  ∀ d depth x memo h (LI I : loc → Prop) j,
    (d < depth)%nat →
    reify d h0 x = Some j → h0 `prefix_of` h →
    (∀ l, LI l → reify d h0 (PRef l) = None) →
    (∀ k, I k → (k < length h)%nat) →
    memo_inv h0 LI I memo h →
    faithful h0 LI I d j memo h (deepcopy depth x memo h).
Proof.
  intros Hwf d. induction d as [d IHd] using lt_wf_ind.
  intros depth x memo h LI I j Hdepth Hx Hp HLI HI Hm.
  destruct depth as [|depth]; [lia|].
  destruct x as [| | | |l];
    try (eexists _, memo, h; split_and!; [reflexivity|done|done|done|];
         intros h' _; rewrite <-Hx; by apply reify_atom).
  simpl. destruct (memo !! l) as [y|] eqn:Hmemo.
  { exists (PRef y), memo, h. split_and!; try done.
    destruct (Hm l y Hmemo) as [HL|Hc]; [|by apply Hc].
    rewrite (HLI l HL) in Hx. done. }
  destruct (reify_min _ _ _ _ Hx) as (dm & Hdm & Hsome & Hnone).
  set (y := length h).
  set (LI' := λ l', LI l' ∨ l' = l).
  set (I' := λ k, I k ∨ k = y).
  assert (HLI' : ∀ l', LI' l' → reify dm h0 (PRef l') = None).
  { intros l' [HL| ->]; [|done].
    destruct (reify dm h0 (PRef l')) as [j'|] eqn:E; [|done].
    pose proof (reify_mono dm d h0 _ _ ltac:(lia) E) as E'.
    by rewrite (HLI l' HL) in E'. }
  assert (Hy0 : (length h0 ≤ y)%nat) by by apply prefix_length.
  assert (Hrec : ∀ x memo h LI I j,
    reify dm h0 x = Some j → h0 `prefix_of` h →
    (∀ l, LI l → reify dm h0 (PRef l) = None) →
    (∀ k, I k → (k < length h)%nat) →
    memo_inv h0 LI I memo h →
    faithful h0 LI I dm j memo h (deepcopy depth x memo h)).
  { intros. apply IHd; [lia|lia|done..]. }
  assert (Hnew : ∀ o, (h ++ [o]) !! y = Some o).
  { intros o. by apply list_lookup_middle. }
  assert (HI1 : ∀ o k, I' k → (k < length (h ++ [o]))%nat).
  { intros o k [Hk| ->]; rewrite length_app; simpl; [|subst y; lia].
    specialize (HI k Hk). lia. }
  assert (Hm1 : ∀ o, memo_inv h0 LI' I' (<[l := y]> memo) (h ++ [o])).
  { intros o l' y'. rewrite lookup_insert_Some.
    intros [[<- <-]|[Hne Hl']]; [left; by right|].
    destruct (Hm l' y' Hl') as [HL|Hc]; [left; by left|right].
    intros d' j' Hd' h'' Ha. apply (Hc d' j' Hd').
    intros k o' Hk HIk. apply Ha.
    - by apply lookup_app_l_Some.
    - intros [?| ->]; [done|]. apply lookup_lt_Some in Hk. subst y. lia. }
  simpl in Hsome.
  destruct (h0 !! l) as [[kvs|xs]|] eqn:Hl0; [| |done].
  - (* a dictionary *)
    rewrite (prefix_lookup_Some _ _ _ _ Hl0 Hp).
    destruct (mapM _ kvs) as [js|] eqn:Hjs; [|done].
    injection Hsome as <-. apply mapM_Some in Hjs.
    assert (Hkvs : Forall2 (λ kv kj, kj.1 = kv.1 ∧ reify dm h0 kv.2 = Some kj.2)
                     kvs js).
    { eapply Forall2_impl; [exact Hjs|]. intros [k v] [k' jv]. simpl.
      destruct (reify dm h0 v) as [jv'|]; [|done]. simpl.
      by intros [= <- <-]. }
    destruct (copy_entries_faithful h0 dm (deepcopy depth) Hrec LI' I' y kvs
                Hy0 ltac:(by right) HLI' js (<[l := y]> memo) (h ++ [HDict []])
                [] [] Hkvs)
      as (memo' & h' & cs' & Hrun & Hframe & Hsub & Hm' & Hcs' & Hst').
    { simpl. by eapply Hwf. }
    { by apply prefix_app_r. }
    { apply HI1. }
    { apply Hm1. }
    { apply Hnew. }
    { constructor. }
    assert (Hcomplete : ∀ d' j', reify d' h0 (PRef l) = Some j' →
                                 sturdy I h' (PRef y) d' j').
    { intros d' j' Hd' h'' Ha.
      destruct d' as [|e]; [done|].
      assert (Hge : (dm ≤ e)%nat).
      { destruct (decide (dm ≤ e)%nat) as [|Hlt]; [done|].
        rewrite (reify_mono (S e) dm h0 _ _ ltac:(lia) Hd') in Hnone. done. }
      assert (j' = JObj js) as ->.
      { assert (H1 : reify (S dm) h0 (PRef l) = Some (JObj js)).
        { simpl. rewrite Hl0. apply mapM_Some in Hjs. by rewrite Hjs. }
        rewrite (reify_mono (S dm) (S e) h0 _ _ ltac:(lia) H1) in Hd'.
        by injection Hd'. }
      simpl. rewrite (Ha y _ Hcs').
      2:{ intros HIy. specialize (HI y HIy). subst y. lia. }
      assert (Hm2 : mapM (λ kv, pair kv.1 <$> reify e h'' kv.2) cs' = Some js).
      { apply mapM_Some. eapply Forall2_impl; [exact Hst'|].
        intros [k c] [k' jc] [Hk Hc]. simpl in *. subst k'.
        rewrite (reify_mono dm e h'' c jc Hge); [done|].
        apply Hc. eapply agree_weaken; [|exact Ha]. intros ? ?. by left. }
      by rewrite Hm2. }
    exists (PRef y), memo', h'. split_and!.
    + done.
    + apply lookup_incl_prefix. intros k o Hk.
      apply Hframe.
      * apply lookup_lt_Some in Hk. subst y. lia.
      * by apply lookup_app_l_Some.
    + etrans; [|exact Hsub]. by apply insert_subseteq.
    + intros l' y' Hl'. destruct (Hm' l' y' Hl') as [[HL| ->]|Hc].
      * by left.
      * right.
        assert (y' = y) as ->.
        { assert (Heq : memo' !! l = Some y).
          { eapply lookup_weaken; [|exact Hsub]. by apply lookup_insert_eq. }
          congruence. }
        exact Hcomplete.
      * right. intros d' j' Hd'. eapply sturdy_weaken; [|by apply Hc].
        intros ? ?. by left.
    + by apply Hcomplete.
  - (* a list *)
    rewrite (prefix_lookup_Some _ _ _ _ Hl0 Hp).
    destruct (mapM _ xs) as [js|] eqn:Hjs; [|done].
    injection Hsome as <-. apply mapM_Some in Hjs.
    destruct (copy_items_faithful h0 dm (deepcopy depth) Hrec LI' I' y xs
                Hy0 ltac:(by right) HLI' js (<[l := y]> memo) (h ++ [HList []])
                [] [] Hjs)
      as (memo' & h' & cs' & Hrun & Hframe & Hsub & Hm' & Hcs' & Hst').
    { by apply prefix_app_r. }
    { apply HI1. }
    { apply Hm1. }
    { apply Hnew. }
    { constructor. }
    assert (Hcomplete : ∀ d' j', reify d' h0 (PRef l) = Some j' →
                                 sturdy I h' (PRef y) d' j').
    { intros d' j' Hd' h'' Ha.
      destruct d' as [|e]; [done|].
      assert (Hge : (dm ≤ e)%nat).
      { destruct (decide (dm ≤ e)%nat) as [|Hlt]; [done|].
        rewrite (reify_mono (S e) dm h0 _ _ ltac:(lia) Hd') in Hnone. done. }
      assert (j' = JArr js) as ->.
      { assert (H1 : reify (S dm) h0 (PRef l) = Some (JArr js)).
        { simpl. rewrite Hl0. apply mapM_Some in Hjs. by rewrite Hjs. }
        rewrite (reify_mono (S dm) (S e) h0 _ _ ltac:(lia) H1) in Hd'.
        by injection Hd'. }
      simpl. rewrite (Ha y _ Hcs').
      2:{ intros HIy. specialize (HI y HIy). subst y. lia. }
      assert (Hm2 : mapM (reify e h'') cs' = Some js).
      { apply mapM_Some. eapply Forall2_impl; [exact Hst'|].
        intros c jc Hc. simpl in *.
        apply (reify_mono dm e h'' c jc Hge).
        apply Hc. eapply agree_weaken; [|exact Ha]. intros ? ?. by left. }
      by rewrite Hm2. }
    exists (PRef y), memo', h'. split_and!.
    + done.
    + apply lookup_incl_prefix. intros k o Hk.
      apply Hframe.
      * apply lookup_lt_Some in Hk. subst y. lia.
      * by apply lookup_app_l_Some.
    + etrans; [|exact Hsub]. by apply insert_subseteq.
    + intros l' y' Hl'. destruct (Hm' l' y' Hl') as [[HL| ->]|Hc].
      * by left.
      * right.
        assert (y' = y) as ->.
        { assert (Heq : memo' !! l = Some y).
          { eapply lookup_weaken; [|exact Hsub]. by apply lookup_insert_eq. }
          congruence. }
        exact Hcomplete.
      * right. intros d' j' Hd'. eapply sturdy_weaken; [|by apply Hc].
        intros ? ?. by left.
    + by apply Hcomplete.
Qed.


(** ** Events that are complete are submitted as they are *)

Lemma deepcopy_reads_same (h : store) depth d x j :
  wf_store h → (d < depth)%nat → reify d h x = Some j →
  ∃ x' memo' h',
    deepcopy depth x ∅ h = (Ok x', (memo', h'))
    ∧ h `prefix_of` h' ∧ reify d h' x' = Some j.
Proof.
  intros Hwf Hd Hx.
  destruct (deepcopy_faithful h Hwf d depth x ∅ h (λ _, False) (λ _, False) j
              Hd Hx) as (x' & memo' & h' & Hrun & Hp & _ & _ & Hs); try done.
  exists x', memo', h'. split_and!; [done|done|]. by eapply sturdy_reify.
Qed.

(** An event that needs no back-fill: its ["metadata"] is a mapping that
    holds ["event_timestamp"] and, when IDs are to be added, ["id"]. *)
Definition complete_event (add_missing_ids : bool) (event : json) : Prop :=
  ∃ ed md,
    event = JObj ed ∧ dict_get "metadata" ed = Some (JObj md)
    ∧ is_Some (dict_get "event_timestamp" md)
    ∧ (add_missing_ids = true → is_Some (dict_get "id" md)).

Lemma dict_get_reified d (h : store) kvs js k :
  mapM (λ kv : string * pyval, pair kv.1 <$> reify d h kv.2) kvs = Some js →
  dict_get k js = dict_get k kvs ≫= reify d h.
Proof.
  intros Hm. apply mapM_Some in Hm.
  induction Hm as [|[k1 v] [k2 jv] kvs js Hkv _ IH]; simpl; [done|].
  simpl in Hkv. destruct (reify d h v) as [jv'|] eqn:Hv; [|done].
  simpl in Hkv. injection Hkv as <- <-.
  by destruct (String.eqb k1 k).
Qed.

Lemma process_event_complete add d c ev w :
  reify d (heap w) c = Some ev → complete_event add ev →
  process_event add c w = (Ok tt, w).
Proof.
  intros Hc (ed & md & -> & Hmeta & Hts & Hid).
  destruct c as [| | | |le]; try (by destruct d).
  destruct d as [|d1]; [done|]. simpl in Hc.
  destruct (heap w !! le) as [[kvs|xs]|] eqn:Hle; [| |done].
  2:{ by destruct (mapM _ xs). }
  destruct (mapM _ kvs) as [js|] eqn:Hjs; [|done]. injection Hc as ->.
  rewrite (dict_get_reified _ _ _ _ "metadata" Hjs) in Hmeta.
  destruct (dict_get "metadata" kvs) as [m|] eqn:Hm; [|done]. simpl in Hmeta.
  destruct m as [| | | |lm]; try (by destruct d1).
  destruct d1 as [|d2]; [done|]. simpl in Hmeta.
  destruct (heap w !! lm) as [[mkvs|mxs]|] eqn:Hlm; [| |done].
  2:{ by destruct (mapM _ mxs). }
  destruct (mapM _ mkvs) as [mjs|] eqn:Hmjs; [|done]. injection Hmeta as ->.
  rewrite (dict_get_reified _ _ _ _ "event_timestamp" Hmjs) in Hts.
  rewrite (dict_get_reified _ _ _ _ "id" Hmjs) in Hid.
  pose proof (process_event_run add le lm kvs mkvs w Hle Hm Hlm) as Hrun.
  cbv zeta in Hrun. rewrite Hrun. clear Hrun.
  assert (Hts' : is_Some (dict_get "event_timestamp" mkvs)).
  { destruct (dict_get "event_timestamp" mkvs); [done|by destruct Hts]. }
  rewrite (bool_decide_eq_true_2 _ Hts').
  assert (Hno : add && negb (bool_decide (is_Some (dict_get "id" mkvs))) = false).
  { destruct add; [|done]. simpl.
    destruct (dict_get "id" mkvs) eqn:E; [done|].
    destruct (Hid eq_refl) as [? [=]]. }
  rewrite Hno, list_insert_id by done. by destruct w.
Qed.

Lemma process_events_complete add d cs evs w :
  Forall2 (λ c ev, reify d (heap w) c = Some ev) cs evs →
  Forall (complete_event add) evs →
  process_events add cs w = (Ok tt, w).
Proof.
  induction 1 as [|c ev cs evs Hc _ IH]; intros Hall; simpl; [done|].
  inversion Hall as [|? ? Hev Hevs]; subst.
  unfold mbind, M_bind, bind.
  rewrite (process_event_complete add d c ev w Hc Hev). by apply IH.
Qed.

(** X20. A non-empty list of events that are complete (each read as a
    mapping whose ["metadata"] mapping holds ["event_timestamp"] and, when
    IDs are to be added, ["id"]) is submitted as it is: whatever objects
    the events share, [ingest_udm] sends one import request whose events
    are the caller's events, value for value and in order, and it neither
    reads the clock nor draws a UUID. *)
Theorem ingest_udm_submits_complete_events (depth d : nat) (l : loc)
    (xs : list pyval) (events : list json) (add_missing_ids : bool) (w : world) :
  wf_store (heap w) →
  heap w !! l = Some (HList xs) → xs ≠ [] →
  mapM (reify d (heap w)) xs = Some events →
  Forall (complete_event add_missing_ids) events →
  (S d < depth)%nat →
  let r := ingest_udm depth (PRef l) add_missing_ids w in
  requests r.2 = requests w ++ [import_events_request (client w) events]
  ∧ session r.2
    = (serve (session w) (import_events_request (client w) events)).2
  ∧ clock_reads r.2 = clock_reads w ∧ uuid_draws r.2 = uuid_draws w.
Proof.
  intros Hwf Hl Hne Hxs Hall Hdepth.
  assert (Hroot : reify (S d) (heap w) (PRef l) = Some (JArr events)).
  { simpl. by rewrite Hl, Hxs. }
  destruct (deepcopy_reads_same (heap w) depth (S d) (PRef l) (JArr events)
              Hwf Hdepth Hroot) as (x' & memo' & h' & Hrun & Hp & Hcopy).
  assert (∃ y cs, x' = PRef y ∧ h' !! y = Some (HList cs)
                  ∧ mapM (reify d h') cs = Some events)
    as (y & cs & -> & Hy & Hcs).
  { destruct x' as [| | | |y]; try done. simpl in Hcopy.
    destruct (h' !! y) as [[kvs|cs]|] eqn:Hy; [|..|done].
    - by destruct (mapM _ kvs).
    - destruct (mapM _ cs) as [js|] eqn:E; [|done].
      simpl in Hcopy. injection Hcopy as ->. by exists y, cs. }
  assert (Hprep : prepare_events depth (PRef l) add_missing_ids w
                  = (Ok cs, with_heap w h')).
  { unfold prepare_events, deepcopy_events.
    rewrite bind_get_heap. cbn [is_dict]. rewrite Hl, bind_ret, bind_get_heap.
    cbn [py_truthy]. rewrite Hl.
    destruct xs as [|x0 xs]; [done|]. cbn [negb].
    unfold mbind at 1, M_bind at 1, bind at 1. rewrite Hrun.
    rewrite bind_get_heap. cbn [heap with_heap events_of]. rewrite Hy.
    rewrite bind_lift_ok. unfold mbind, M_bind, bind.
    rewrite (process_events_complete add_missing_ids d cs events);
      [done|by apply mapM_Some|done]. }
  assert (Hcs' : mapM (reify depth h') cs = Some events).
  { apply mapM_Some. apply mapM_Some in Hcs.
    eapply Forall2_impl; [exact Hcs|]. intros c ev. apply reify_mono. lia. }
  simpl. unfold ingest_udm. unfold mbind, M_bind, bind. rewrite Hprep.
  unfold submit_events. rewrite bind_get_client, bind_get_heap.
  cbn [heap with_heap client]. rewrite Hcs'.
  unfold session_post. rewrite bind_send.
  unfold import_events_request. cbn [session with_heap requests client].
  by repeat case_match.
Qed.

End Chronicle.

(** * Authentication

    [SecOpsAuth] of [auth.py]: the choice of the source of the credentials
    and the lazily created session. The calls into [google.auth] are
    parameters; each call made is recorded, oldest first. *)

Module Auth.

Definition CHRONICLE_SCOPES : list string :=
  ["https://www.googleapis.com/auth/cloud-platform"].

(** What a call into [google.auth] gives: a value, or an exception whose
    [str] is [msg]. *)
Inductive outcome (A : Type) : Type :=
| Returns (a : A)
| Raises (msg : string).

Arguments Returns {A} a.
Arguments Raises {A} msg.

(** What a method of [SecOpsAuth] gives: a value, or [AuthenticationError]. *)
Inductive auth_result (A : Type) : Type :=
| AuthOk (a : A)
| AuthenticationError (msg : string).

Arguments AuthOk {A} a.
Arguments AuthenticationError {A} msg.

(** The headers of a session, a case-insensitive dictionary: an entry is
    kept under the lower-cased key, with the key as it was last set. *)
Definition headers : Type := list (string * (string * string)).

Definition header_set (k v : string) (hs : headers) : headers :=
  dict_set (PyStr.lower k) (k, v) hs.

Definition header_get (k : string) (hs : headers) : option string :=
  snd <$> dict_get (PyStr.lower k) hs.

Section SecOpsAuth.

Variable Credentials : Type.
Variable with_scopes : Credentials → list string → outcome Credentials.
Variable from_service_account_info :
  list (string * json) → list string → outcome Credentials.
Variable from_service_account_file : string → list string → outcome Credentials.
Variable auth_default : list string → outcome (Credentials * option string).
Variable default_headers : headers.

Inductive source_call : Type :=
| WithScopes (credentials : Credentials) (scopes : list string)
| FromServiceAccountInfo (info : list (string * json)) (scopes : list string)
| FromServiceAccountFile (path : string) (scopes : list string)
| AuthDefault (scopes : list string).

Record Session : Type := {
  session_credentials : Credentials;
  session_headers : headers;
}.

Record SecOpsAuth : Type := {
  scopes : list string;
  credentials : Credentials;
  _session : option loc;
}.

(** [_get_credentials], lines 51-76. A credentials object is truthy; an
    empty mapping and an empty string are not. Any exception of the source
    asked is caught and raised again as [AuthenticationError]. *)
Definition _get_credentials (self_scopes : list string)
    (credentials : option Credentials) (service_account_path : option string)
    (service_account_info : option (list (string * json)))
  : auth_result Credentials * list source_call :=
  let attempt :=
    match credentials with
    | Some c => (with_scopes c self_scopes, [WithScopes c self_scopes])
    | None =>
        match service_account_info with
        | Some (kv :: d) =>
            (from_service_account_info (kv :: d) self_scopes,
             [FromServiceAccountInfo (kv :: d) self_scopes])
        | _ =>
            match service_account_path with
            | Some (String a p) =>
                (from_service_account_file (String a p) self_scopes,
                 [FromServiceAccountFile (String a p) self_scopes])
            | _ =>
                (match auth_default self_scopes with
                 | Returns (credentials, project) => Returns credentials
                 | Raises msg => Raises msg
                 end,
                 [AuthDefault self_scopes])
            end
        end
    end in
  match attempt.1 with
  | Returns c => (AuthOk c, attempt.2)
  | Raises msg =>
      (AuthenticationError ("Failed to get credentials: " +:+ msg), attempt.2)
  end.

(** [__init__], lines 30-49. *)
Definition __init__ (credentials : option Credentials)
    (service_account_path : option string)
    (service_account_info : option (list (string * json)))
    (scopes : option (list string))
  : auth_result SecOpsAuth * list source_call :=
  let self_scopes :=
    match scopes with
    | Some (s :: l) => s :: l
    | _ => CHRONICLE_SCOPES
    end in
  match _get_credentials self_scopes credentials service_account_path
          service_account_info with
  | (AuthOk c, calls) =>
      (AuthOk {| scopes := self_scopes; credentials := c; _session := None |},
       calls)
  | (AuthenticationError msg, calls) => (AuthenticationError msg, calls)
  end.

(** [AuthorizedSession(credentials)] *)
Definition AuthorizedSession (c : Credentials) : Session :=
  {| session_credentials := c; session_headers := default_headers |}.

Definition set_header (k v : string) (s : Session) : Session :=
  {| session_credentials := session_credentials s;
     session_headers := header_set k v (session_headers s) |}.

(** The [session] property, lines 78-91, over the store [h] of the session
    objects. *)
Definition session (self : SecOpsAuth) (h : list Session)
  : loc * (SecOpsAuth * list Session) :=
  match _session self with
  | None =>
      let l := length h in
      let h := h ++ [AuthorizedSession (credentials self)] in
      let self := {| scopes := scopes self; credentials := credentials self;
                     _session := Some l |} in
      let h := alter (set_header "User-Agent" "secops-wrapper-sdk") l h in
      (l, (self, h))
  | Some l => (l, (self, h))
  end.

(** ** Properties *)

Definition call_scopes (call : source_call) : list string :=
  match call with
  | WithScopes _ s | FromServiceAccountInfo _ s | FromServiceAccountFile _ s
  | AuthDefault s => s
  end.

(** What the source asked gives. *)
Definition answer (call : source_call) : outcome Credentials :=
  match call with
  | WithScopes c s => with_scopes c s
  | FromServiceAccountInfo info s => from_service_account_info info s
  | FromServiceAccountFile path s => from_service_account_file path s
  | AuthDefault s =>
      match auth_default s with
      | Returns (c, _) => Returns c
      | Raises msg => Raises msg
      end
  end.

(** X17. [SecOpsAuth(...)] asks exactly one source for credentials, with
    scopes that are never empty (no scopes or an empty list means the
    default scope), and there is no fall-back: the object holds what that
    source returned, and a failure of that source is raised as
    [AuthenticationError], whatever the other sources would have given.
    Credentials given come before service account data, that before a key
    file path, that before the default credentials; an empty mapping and an
    empty path count as not given. *)
Theorem init_one_source (credentials : option Credentials)
    (service_account_path : option string)
    (service_account_info : option (list (string * json)))
    (scopes : option (list string)) :
  let r := __init__ credentials service_account_path service_account_info
             scopes in
  (∃ call,
     r.2 = [call]
     ∧ call_scopes call ≠ []
     ∧ (scopes = None ∨ scopes = Some [] → call_scopes call = CHRONICLE_SCOPES)
     ∧ (∀ s, scopes = Some s → s ≠ [] → call_scopes call = s)
     ∧ match answer call with
       | Returns c =>
           r.1 = AuthOk (Build_SecOpsAuth (call_scopes call) c None)
       | Raises msg =>
           r.1 = AuthenticationError ("Failed to get credentials: " +:+ msg)
       end
     ∧ (∀ c, credentials = Some c → ∃ s, call = WithScopes c s)
     ∧ (credentials = None →
        (∀ kv d, service_account_info = Some (kv :: d) →
                 ∃ s, call = FromServiceAccountInfo (kv :: d) s)
        ∧ (service_account_info = None ∨ service_account_info = Some [] →
           (∀ a p, service_account_path = Some (String a p) →
                   ∃ s, call = FromServiceAccountFile (String a p) s)
           ∧ (service_account_path = None ∨ service_account_path = Some "" →
              ∃ s, call = AuthDefault s)))).
Proof.
  simpl. unfold __init__, _get_credentials.
  set (self_scopes := match scopes with Some (s :: l) => s :: l | _ => _ end).
  assert (Hne : self_scopes ≠ []).
  { subst self_scopes. by destruct scopes as [[|s l]|]. }
  assert (Hdef : scopes = None ∨ scopes = Some [] → self_scopes = CHRONICLE_SCOPES).
  { subst self_scopes. by intros [->| ->]. }
  assert (Hgiven : ∀ s, scopes = Some s → s ≠ [] → self_scopes = s).
  { subst self_scopes. intros s -> Hs. by destruct s. }
  clearbody self_scopes.
  destruct credentials as [c|].
  { eexists. split; [by destruct (with_scopes c self_scopes)|].
    cbn [answer call_scopes]. split_and!; try done.
    - by destruct (with_scopes c self_scopes).
    - intros c' [= <-]. by eexists. }
  destruct service_account_info as [[|kv d]|].
  2:{ eexists.
      split; [by destruct (from_service_account_info (kv :: d) self_scopes)|].
      cbn [answer call_scopes]. split_and!; try done.
      - by destruct (from_service_account_info (kv :: d) self_scopes).
      - intros _. split; [|by intros [|]].
        intros kv' d' [= <- <-]. by eexists. }
  all: destruct service_account_path as [[|a p]|].
  all: eexists.
  all: split;
    [by first [ destruct (from_service_account_file (String a p) self_scopes)
              | destruct (auth_default self_scopes) as [[??]|] ]|].
  all: cbn [answer call_scopes]; split_and!; try done.
  all: try by first [ destruct (from_service_account_file (String a p) self_scopes)
                    | destruct (auth_default self_scopes) as [[??]|] ].
  all: intros _; split; [done|]; intros _; split.
  all: try done.
  all: try (intros ? ? [= <- <-]; by eexists).
  all: try (intros _; by eexists).
  all: try by intros [|].
Qed.

(** X18. The first access to [session] creates one session, for the
    credentials of the object, and sets its [User-Agent] header, in
    whatever letter case it is looked up, to "secops-wrapper-sdk"; the
    other headers are the default ones. Every later access returns that
    same session and neither creates nor changes anything, whatever was
    done to the sessions in between. *)
Theorem session_created_once (self : SecOpsAuth) (h : list Session) :
  _session self = None →
  ∃ s,
    let l := (session self h).1 in
    let self' := (session self h).2.1 in
    (session self h).2.2 = h ++ [s]
    ∧ l = length h
    ∧ session_credentials s = credentials self
    ∧ (∀ k, PyStr.lower k = "user-agent" →
            header_get k (session_headers s) = Some "secops-wrapper-sdk")
    ∧ (∀ k, PyStr.lower k ≠ "user-agent" →
            header_get k (session_headers s) = header_get k default_headers)
    ∧ credentials self' = credentials self
    ∧ scopes self' = scopes self
    ∧ ∀ h', session self' h' = (l, (self', h')).
Proof.
  intros Hnone. unfold session. rewrite Hnone. cbv zeta. cbn [fst snd].
  eexists. split_and!.
  - rewrite alter_app_r_alt by done. rewrite Nat.sub_diag. reflexivity.
  - done.
  - done.
  - intros k Hk. unfold header_get, set_header, header_set. simpl.
    rewrite Hk. by rewrite dict_get_set_eq.
  - intros k Hk. unfold header_get, set_header, header_set. simpl.
    by rewrite dict_get_set_ne.
  - done.
  - done.
  - done.
Qed.

End SecOpsAuth.

(** ** A concrete environment *)

Definition key_file_only (path : string) (scopes : list string) : outcome string :=
  if String.eqb path "key.json" then Returns "service-account"
  else Raises "No such file".

Lemma session_created_once_witness :
  ∃ s,
    (session string []
       {| scopes := CHRONICLE_SCOPES; credentials := "service-account";
          _session := None |} []).2.2 = [s]
    ∧ header_get "USER-AGENT" (session_headers string s)
      = Some "secops-wrapper-sdk".
Proof.
  destruct (session_created_once string []
              {| scopes := CHRONICLE_SCOPES; credentials := "service-account";
                 _session := None |} [] eq_refl)
    as (s & Hs & _ & _ & Hua & _).
  exists s. split; [exact Hs|exact (Hua "USER-AGENT" eq_refl)].
Defined.

Example missing_key_file :
  __init__ string (λ c _, Returns c) (λ _ _, Raises "no info") key_file_only
    (λ _, Returns ("default", None)) None (Some "absent.json") (Some []) (Some [])
  = (AuthenticationError "Failed to get credentials: No such file",
     [FromServiceAccountFile string "absent.json" CHRONICLE_SCOPES]).
Proof. reflexivity. Qed.

End Auth.

(** * Concrete backends and executions *)

Module Scenario.

(** ** A scripted backend

    The backend state is the list of responses still to give; a request
    takes the first one. An exhausted script answers 500. *)

Definition failure_500 : response :=
  {| status_code := 500; text := "script exhausted"; json_body := None |}.

Definition scripted (b : list response) (r : request) : response * list response :=
  match b with
  | resp :: rest => (resp, rest)
  | [] => (failure_500, [])
  end.

Definition ok_json (j : json) : response :=
  {| status_code := 200; text := "{...}"; json_body := Some j |}.

Definition test_client : ChronicleClient :=
  {| base_url := "https://us-chronicle.googleapis.com/v1alpha";
     instance_id := "projects/p/locations/us/instances/c";
     project_id := "p";
     region := "us";
     customer_id := "c";
     _default_forwarder_display_name := "Wrapper-SDK-Forwarder";
     _cached_default_forwarder_id := None |}.

Definition world_of {B} (c : ChronicleClient) (b : B) (h : store) : world :=
  {| client := c; session := b; requests := []; heap := h;
     clock_reads := 0; uuid_draws := 0 |}.

Definition fwd (name display_name : string) : json :=
  JObj [("name", JStr name); ("displayName", JStr display_name)].

Definition fwd_a : json := fwd "projects/p/locations/us/instances/c/forwarders/a" "A".
Definition fwd_b : json := fwd "projects/p/locations/us/instances/c/forwarders/b" "B".
Definition fwd_c : json := fwd "projects/p/locations/us/instances/c/forwarders/c" "C".

(** Three pages, as in the spec's test of pagination. *)
Definition three_pages : list response :=
  [ok_json (JObj [("forwarders", JArr [fwd_a]); ("nextPageToken", JStr "t1")]);
   ok_json (JObj [("forwarders", JArr [fwd_b]); ("nextPageToken", JStr "t2")]);
   ok_json (JObj [("forwarders", JArr [fwd_c])])].

(** One page, then a failure. *)
Definition page_then_failure : list response :=
  [ok_json (JObj [("forwarders", JArr [fwd_a]); ("nextPageToken", JStr "t1")]);
   {| status_code := 503; text := "unavailable"; json_body := None |}].

Example three_pages_run :
  (list_forwarders scripted 3 50 JNull (world_of test_client three_pages [])).1
  = Ok (JObj [("forwarders", JArr [fwd_a; fwd_b; fwd_c])]).
Proof. reflexivity. Qed.

Lemma list_forwarders_paginated_witness :
  (∃ d w',
     list_forwarders scripted 3 50 JNull (world_of test_client three_pages [])
     = (Ok (JObj d), w')
     ∧ dict_get "forwarders" d = Some (JArr [fwd_a; fwd_b; fwd_c])
     ∧ dict_get "nextPageToken" d = None)
  ∧ (list_forwarders scripted 3 50 JNull
       (world_of test_client page_then_failure [])).1
    = Raise (APIError "Failed to list forwarders: unavailable").
Proof.
  split.
  - apply (proj1 (list_forwarders_paginated scripted 3 50 JNull
                    (world_of test_client three_pages []))
             [[fwd_a]; [fwd_b]; [fwd_c]] []); [|simpl; lia].
    eapply serves_more; [reflexivity..|].
    eapply serves_more; [reflexivity..|].
    eapply serves_last; reflexivity.
  - apply (proj2 (list_forwarders_paginated scripted 3 50 JNull
                    (world_of test_client page_then_failure []))
             1%nat {| status_code := 503; text := "unavailable";
                      json_body := None |}); [|lia].
    eapply fails_later; [reflexivity..|].
    eapply fails_now; [reflexivity|discriminate].
Defined.

(** ** The page size *)

(** What C9 says of a request: it carries a [pageSize] within [1, 1000]. *)
Definition carries_page_size (r : request) : Prop :=
  ∃ n, dict_get "pageSize" (request_params r) = Some (JNum n) ∧ 1 ≤ n ≤ 1000.

(** With a page size of zero the page request carries no [pageSize]. *)
Lemma page_size_zero_not_sent :
  requests (list_forwarders scripted 1 0 JNull
              (world_of test_client [ok_json (JObj [("forwarders", JArr [])])] [])).2
  = [GET "https://us-chronicle.googleapis.com/v1alpha/projects/p/locations/us/instances/c/forwarders" []]
  ∧ ¬ Forall carries_page_size
        (requests (list_forwarders scripted 1 0 JNull
                     (world_of test_client
                        [ok_json (JObj [("forwarders", JArr [])])] [])).2).
Proof.
  split; [reflexivity|].
  intros H. apply Forall_cons in H as [[n [Hn _]] _]. discriminate Hn.
Qed.

(** ** Status codes *)

Definition created_201 : response :=
  {| status_code := 201; text := "created"; json_body := Some fwd_a |}.

(** A status of 201 lies in [200, 299], and [get_forwarder] raises. *)
Lemma status_201_is_failure :
  200 ≤ status_code created_201 ≤ 299
  ∧ (get_forwarder scripted "a" (world_of test_client [created_201] [])).1
    = Raise (APIError "Failed to get forwarder: created")
  ∧ (create_forwarder scripted "A" None false false
       (world_of test_client [created_201] [])).1
    = Raise (APIError "Failed to create forwarder: created")
  ∧ (list_forwarders scripted 1 50 JNull (world_of test_client [created_201] [])).1
    = Raise (APIError "Failed to list forwarders: created").
Proof. split_and!; [done|done|reflexivity..]. Qed.

(** ** Log ingestion *)

Definition known_log_type (log_type : string) : bool :=
  String.eqb log_type "OKTA" || String.eqb log_type "WINDOWS".

Definition noon : civil :=
  {| year := 2025; month := 1; day := 1;
     hour := 12; minute := 0; second := 0; microsecond := 123456 |}.

Definition clock_at_noon (n : nat) : civil := noon.

Definition naive (c : civil) : datetime :=
  {| fields := c; tzinfo := None; zone := None |}.

Definition jan_1 : datetime :=
  naive {| year := 2025; month := 1; day := 1;
           hour := 0; minute := 0; second := 0; microsecond := 0 |}.

Definition jan_2 : datetime :=
  naive {| year := 2025; month := 1; day := 2;
           hour := 0; minute := 0; second := 0; microsecond := 0 |}.

Definition accepted : response := ok_json (JObj [("operation", JStr "op-1")]).

Lemma ingest_log_time_order_witness :
  (∃ msg,
     (ingest_log scripted known_log_type clock_at_noon 3 "OKTA" (Single "line")
        (Some jan_2) (Some jan_1) None None None false
        (world_of test_client [accepted] [])).1 = Raise (ValueError msg))
  ∧ requests
      (ingest_log scripted known_log_type clock_at_noon 3 "OKTA" (Single "line")
         (Some jan_2) (Some jan_1) None None None false
         (world_of test_client [accepted] [])).2 = []
  ∧ session
      (ingest_log scripted known_log_type clock_at_noon 3 "OKTA" (Single "line")
         (Some jan_2) (Some jan_1) None None None false
         (world_of test_client [accepted] [])).2 = [accepted].
Proof.
  exact (proj1 (ingest_log_time_order scripted known_log_type clock_at_noon 3
                  "OKTA" (Single "line") None None None false
                  (world_of test_client [accepted] []))
           jan_2 jan_1 eq_refl).
Defined.

(** Two readings of one zone's clock on the night daylight saving ends:
    01:30 while the offset is still -04:00 (05:30 UTC), and 01:10 after it
    has become -05:00 (06:10 UTC). Both carry the same [tzinfo] object. *)
Definition before_fold : datetime :=
  {| fields := {| year := 2025; month := 11; day := 2;
                  hour := 1; minute := 30; second := 0; microsecond := 0 |};
     tzinfo := Some (-240); zone := Some 7%nat |}.

Definition after_fold : datetime :=
  {| fields := {| year := 2025; month := 11; day := 2;
                  hour := 1; minute := 10; second := 0; microsecond := 0 |};
     tzinfo := Some (-300); zone := Some 7%nat |}.

(** What C4 says does not hold in two places. A collection time left
    unspecified with a log entry time after the clock's reading: the
    defaulted pair does end in the failure of the check. A collection time
    whose instant is strictly before that of the log entry time, both in
    one zone across the end of daylight saving: the check goes by the wall
    clock, and the request is sent. *)
Lemma time_order_claim_fails :
  ingest_log scripted known_log_type clock_at_noon 3 "OKTA" (Single "line")
    (Some jan_2) None None None (Some "a") false
    (world_of test_client [accepted] [])
  = (Raise (ValueError "Collection time must be same or after log entry time"),
     {| client := test_client; session := [accepted]; requests := [];
        heap := []; clock_reads := 1; uuid_draws := 0 |})
  ∧ instant 0 before_fold < instant 0 after_fold
  ∧ (ingest_log scripted known_log_type clock_at_noon 3 "OKTA" (Single "line")
       (Some after_fold) (Some before_fold) None None (Some "a") false
       (world_of test_client [accepted] [])).1
    = Ok (JObj [("operation", JStr "op-1")])
  ∧ requests
      (ingest_log scripted known_log_type clock_at_noon 3 "OKTA" (Single "line")
         (Some after_fold) (Some before_fold) None None (Some "a") false
         (world_of test_client [accepted] [])).2
    = [import_request test_client "OKTA" (Single "line") after_fold
         before_fold None None "a"].
Proof. split_and!; [reflexivity|by vm_compute|reflexivity|reflexivity]. Qed.

(** The other way round: the collection time is the later instant, its
    wall clock reading the earlier one, and the call fails. *)
Example fold_pair_rejected :
  instant 0 before_fold < instant 0 after_fold
  ∧ (ingest_log scripted known_log_type clock_at_noon 3 "OKTA" (Single "line")
       (Some before_fold) (Some after_fold) None None (Some "a") false
       (world_of test_client [accepted] [])).1
    = Raise (ValueError "Collection time must be same or after log entry time").
Proof. split; [by vm_compute|reflexivity]. Qed.

(** A wall clock reading of noon, taken five and a half hours east of UTC:
    the instant is 06:30 UTC, the text on the wire says 12:00 with the
    suffix [Z]. *)
Definition noon_in_kolkata : datetime :=
  {| fields := noon; tzinfo := Some 330; zone := Some 1%nat |}.

Lemma wire_timestamp_is_not_utc :
  valid_civil (fields noon_in_kolkata) = true
  ∧ strftime_wire noon_in_kolkata = "2025-01-01T12:00:00.123456Z"
  ∧ wire_instant (strftime_wire noon_in_kolkata)
    ≠ Some (instant 0 noon_in_kolkata)
  ∧ wire_instant "2025-01-01T06:30:00.123456Z"
    = Some (instant 0 noon_in_kolkata).
Proof. split_and!; [reflexivity|reflexivity|by vm_compute|reflexivity]. Qed.

(** A year of three digits: the text has 26 characters, and is not of the
    form [YYYY-MM-DDTHH:MM:SS.ffffffZ]. *)
Definition year_999 : datetime :=
  naive {| year := 999; month := 1; day := 1;
           hour := 0; minute := 0; second := 0; microsecond := 5 |}.

Example short_year_on_the_wire :
  valid_civil (fields year_999) = true
  ∧ strftime_wire year_999 = "999-01-01T00:00:00.000005Z"
  ∧ parse_wire (strftime_wire year_999) = None
  ∧ isoformat year_999 = "0999-01-01T00:00:00.000005".
Proof. split_and!; reflexivity. Qed.

Lemma ingest_log_wire_timestamps_witness :
  requests
    (ingest_log scripted known_log_type clock_at_noon 3 "OKTA" (Single "line")
       (Some noon_in_kolkata) (Some noon_in_kolkata) None None (Some "a") false
       (world_of test_client [accepted] [])).2
  = [import_request test_client "OKTA" (Single "line") noon_in_kolkata
       noon_in_kolkata None None "a"]
  ∧ (parse_wire (strftime_wire noon_in_kolkata) = Some noon
     ∧ String.length (strftime_wire noon_in_kolkata) = 27%nat
     ∧ (wire_instant (strftime_wire noon_in_kolkata)
        = Some (instant 0 noon_in_kolkata)
        ↔ default 0 (tzinfo noon_in_kolkata) = 0)).
Proof.
  pose proof (ingest_log_wire_timestamps scripted known_log_type clock_at_noon 0
                3 "OKTA" (Single "line") (Some noon_in_kolkata)
                (Some noon_in_kolkata) None None "a" false
                (world_of test_client [accepted] []) eq_refl eq_refl)
    as (Hreq & _ & Hform & _).
  split; [exact Hreq|exact (Hform noon_in_kolkata eq_refl ltac:(done))].
Defined.

Lemma ingest_log_empty_list_witness :
  requests
    (ingest_log scripted known_log_type clock_at_noon 3 "OKTA" (Many [])
       None None None None (Some "a") false
       (world_of test_client [accepted] [])).2
  = [POST "https://us-chronicle.googleapis.com/v1alpha/projects/p/locations/us/instances/c/logTypes/OKTA/logs:import"
       (JObj [("inline_source",
               JObj [("logs", JArr []);
                     ("forwarder",
                      JStr "projects/p/locations/us/instances/c/forwarders/a")])])]
  ∧ (ingest_log scripted known_log_type clock_at_noon 3 "OKTA" (Many [])
       None None None None (Some "a") false
       (world_of test_client [accepted] [])).1
    = Ok (JObj [("operation", JStr "op-1")])
  ∧ ingest_udm scripted clock_at_noon 0 (λ _, "id") 3 (PRef 0) true
      (world_of test_client [accepted] [HList []])
    = (Raise (ValueError "No UDM events provided"),
       world_of test_client [accepted] [HList []]).
Proof.
  pose proof (ingest_log_empty_list scripted known_log_type clock_at_noon 0
                (λ _, "id") 3 "OKTA" None None None None "a" false
                (world_of test_client [accepted] []) eq_refl eq_refl)
    as (Hreq & Hok & _).
  pose proof (ingest_log_empty_list scripted known_log_type clock_at_noon 0
                (λ _, "id") 3 "OKTA" None None None None "a" false
                (world_of test_client [accepted] [HList []]) eq_refl eq_refl)
    as (_ & _ & Hudm).
  split_and!.
  - exact Hreq.
  - exact (Hok _ eq_refl eq_refl).
  - exact (Hudm 0%nat true eq_refl).
Defined.

(** ** UDM ingestion *)

Definition fixed_uuid (n : nat) : string := "0b4a1c1e-7c1d-4e0a-9d57-3f0e8b6a2c11".

(** One event without a timestamp; its [metadata] is an object of its own. *)
Definition one_event : store :=
  [HDict [("metadata", PRef 1); ("principal", PRef 2)];
   HDict [("event_type", PStr "NETWORK_CONNECTION")];
   HDict [("ip", PStr "192.168.1.100")]].

Definition import_events_of (events : list json) : request :=
  POST "https://us-chronicle.googleapis.com/v1alpha/projects/p/locations/us/instances/c/events:import"
    (JObj [("inline_source",
            JObj [("events", JArr ((λ e, JObj [("udm", e)]) <$> events))])]).

(** C8 at a local offset of +05:30: the back-filled timestamp carries the
    numeric offset and no [Z]. At a local offset of zero it ends in [Z]. *)
Lemma backfill_carries_local_offset :
  requests
    (ingest_udm scripted clock_at_noon 330 fixed_uuid 5 (PRef 0) true
       (world_of test_client [accepted] one_event)).2
  = [import_events_of
       [JObj [("metadata",
               JObj [("event_type", JStr "NETWORK_CONNECTION");
                     ("event_timestamp", JStr "2025-01-01T12:00:00.123456+05:30");
                     ("id", JStr "0b4a1c1e-7c1d-4e0a-9d57-3f0e8b6a2c11")]);
              ("principal", JObj [("ip", JStr "192.168.1.100")])]]]
  ∧ PyStr.ends_with "Z" (backfill_timestamp 330 noon) = false
  ∧ backfill_timestamp 0 noon = "2025-01-01T12:00:00.123456Z".
Proof. split_and!; by vm_compute. Qed.

(** An event that carries a timestamp is submitted with it unchanged. *)
Definition stamped_event : store :=
  [HDict [("metadata", PRef 1)];
   HDict [("event_timestamp", PStr "2024-06-30T23:59:59Z"); ("id", PStr "e-1")]].

Example stamped_event_unchanged :
  requests
    (ingest_udm scripted clock_at_noon 330 fixed_uuid 5 (PRef 0) true
       (world_of test_client [accepted] stamped_event)).2
  = [import_events_of
       [JObj [("metadata",
               JObj [("event_timestamp", JStr "2024-06-30T23:59:59Z");
                     ("id", JStr "e-1")])]]].
Proof. by vm_compute. Qed.

(** The same event object twice in the caller's list: the copy keeps the
    sharing, the back-fill lands in the copies, and the caller's three
    objects are as they were. *)
Definition shared_event : store :=
  [HList [PRef 1; PRef 1];
   HDict [("metadata", PRef 2)];
   HDict [("event_type", PStr "PROCESS_LAUNCH")]].

Example shared_event_run :
  take 3 (heap (ingest_udm scripted clock_at_noon 0 fixed_uuid 5 (PRef 0) true
                  (world_of test_client [accepted] shared_event)).2)
  = shared_event
  ∧ drop 3 (heap (ingest_udm scripted clock_at_noon 0 fixed_uuid 5 (PRef 0) true
                    (world_of test_client [accepted] shared_event)).2)
    = [HList [PRef 4; PRef 4];
       HDict [("metadata", PRef 5)];
       HDict [("event_type", PStr "PROCESS_LAUNCH");
              ("event_timestamp", PStr "2025-01-01T12:00:00.123456Z");
              ("id", PStr "0b4a1c1e-7c1d-4e0a-9d57-3f0e8b6a2c11")]].
Proof. split; by vm_compute. Qed.

(** A list whose second element is not a mapping: the first copy has been
    back-filled when the call fails, and the caller's objects are as they
    were. *)
Definition bad_second_event : store :=
  [HList [PRef 1; PStr "not an event"];
   HDict [("metadata", PRef 2)];
   HDict []].

Example bad_second_event_run :
  (ingest_udm scripted clock_at_noon 0 fixed_uuid 5 (PRef 0) true
     (world_of test_client [accepted] bad_second_event)).1
  = Raise (ValueError
             "Invalid UDM event type: <class 'str'>. Events must be dictionaries.")
  ∧ take 3 (heap (ingest_udm scripted clock_at_noon 0 fixed_uuid 5 (PRef 0) true
                    (world_of test_client [accepted] bad_second_event)).2)
    = bad_second_event
  ∧ requests (ingest_udm scripted clock_at_noon 0 fixed_uuid 5 (PRef 0) true
                (world_of test_client [accepted] bad_second_event)).2 = [].
Proof. split_and!; by vm_compute. Qed.

Lemma status_checks_witness :
  is_APIError
    (get_forwarder scripted "a" (world_of test_client [created_201] [])).1 = true
  ∧ is_APIError
      (ingest_log scripted known_log_type clock_at_noon 3 "OKTA" (Single "line")
         None None None None (Some "a") false
         (world_of test_client [created_201] [])).1 = true
  ∧ is_APIError
      (ingest_udm scripted clock_at_noon 0 fixed_uuid 5 (PRef 0) true
         (world_of test_client [created_201] one_event)).1 = false.
Proof.
  pose proof (status_checks scripted known_log_type clock_at_noon 0 fixed_uuid
                (world_of test_client [created_201] []))
    as (_ & Hget & _ & Hlog & _).
  pose proof (status_checks scripted known_log_type clock_at_noon 0 fixed_uuid
                (world_of test_client [created_201] one_event))
    as (_ & _ & _ & _ & Hudm).
  split_and!.
  - exact (Hget "a").
  - exact (Hlog 3%nat "OKTA" (Single "line") None None None None "a" false
             eq_refl eq_refl).
  - refine (Hudm 5%nat (PRef 0) true _ _). by vm_compute.
Defined.

(** ** A forwarder directory

    A backend that keeps the forwarders it knows as pairs of resource name
    and display name, lists them on one page, gets one by the ID its
    resource name ends in, and creates one under a name of its choosing. *)

Definition directory_state : Type := list (string * string).

Definition directory_url : string := forwarders_url test_client.

Fixpoint xs (n : nat) : string :=
  match n with O => EmptyString | S k => String "x" (xs k) end.

Definition fresh_name (b : directory_state) : string :=
  instance_id test_client +:+ "/forwarders/f" +:+ xs (length b).

Definition entry (e : string * string) : json := fwd e.1 e.2.

Definition name_has_id (id name : string) : bool :=
  match extract_forwarder_id name with
  | Ok i => String.eqb i id
  | Raise _ => false
  end.

Fixpoint drop_chars (n : nat) (s : string) : string :=
  match n, s with
  | S k, String _ r => drop_chars k r
  | _, _ => s
  end.

Definition not_found : response :=
  {| status_code := 404; text := "not found"; json_body := None |}.

Definition bad_request : response :=
  {| status_code := 400; text := "bad request"; json_body := None |}.

Definition directory (b : directory_state) (r : request)
  : response * directory_state :=
  match r with
  | GET url _ =>
      if String.eqb url directory_url then
        (ok_json (JObj match b with
                       | [] => []
                       | _ => [("forwarders", JArr (entry <$> b))]
                       end), b)
      else if PyStr.starts_with (directory_url +:+ "/") url then
        let id := drop_chars (String.length (directory_url +:+ "/")) url in
        match List.find (λ e, name_has_id id e.1) b with
        | Some e => (ok_json (entry e), b)
        | None => (not_found, b)
        end
      else (not_found, b)
  | POST url body =>
      if String.eqb url directory_url then
        match py_get body "displayName" JNull with
        | Ok (JStr display_name) =>
            (ok_json (fwd (fresh_name b) display_name),
             b ++ [(fresh_name b, display_name)])
        | _ => (bad_request, b)
        end
      else (not_found, b)
  end.

(** A forwarder with this ID and display name is in the directory. *)
Definition in_directory (b : directory_state) (id display_name : string) : Prop :=
  ∃ name, (name, display_name) ∈ b ∧ extract_forwarder_id name = Ok id.

Lemma directory_grows b r : ∃ k, (directory b r).2 = b ++ k.
Proof.
  unfold directory.
  repeat case_match; simpl;
    first [ by exists []; rewrite app_nil_r | by eexists ].
Qed.

Lemma directory_honest :
  honest_directory directory in_directory
    (base_url test_client) (instance_id test_client).
Proof.
  split.
  - intros b r id d (name & Hin & Hid).
    destruct (directory_grows b r) as [k ->].
    exists name. split; [|done]. apply elem_of_app. by left.
  - intros b params resp b' page fs f d n id Hs Hst Hj Hfs Hin [Hd Hn] Hid.
    change (directory b (GET directory_url params) = (resp, b')) in Hs.
    unfold directory in Hs. rewrite String.eqb_refl in Hs.
    injection Hs as <- <-. simpl in Hj. injection Hj as <-.
    destruct b as [|e0 b]; [done|].
    remember (e0 :: b) as b0 eqn:Hb0. simpl in Hfs. injection Hfs as <-.
    apply list_elem_of_fmap in Hin as ([name dn] & -> & Hin).
    simpl in Hd, Hn. injection Hd as <-. injection Hn as <-.
    by exists name.
  - intros b dn md uc es resp b' f n id Hs Hst Hj Hn Hid.
    change (directory b (POST directory_url (create_payload dn md uc es))
            = (resp, b')) in Hs.
    unfold directory in Hs. rewrite String.eqb_refl in Hs. simpl in Hs.
    injection Hs as <- <-. simpl in Hj. injection Hj as <-.
    simpl in Hn. injection Hn as <-.
    exists (fresh_name b). split; [|done]. apply elem_of_app. right. by left.
Qed.

Definition empty_directory : world := world_of test_client ([] : directory_state) [].

(** The spec's scenario: a cold cache and no default forwarder give one
    listing and one create and fill the cache; the next call, with the
    cache warm, sends one get and nothing else. *)
Example cold_then_warm :
  _cached_default_forwarder_id
    (client (get_or_create_forwarder directory 3 None empty_directory).2)
  = Some "f"
  ∧ requests (get_or_create_forwarder directory 3 None empty_directory).2
    = [GET directory_url [("pageSize", JNum 1000)];
       POST directory_url (create_payload "Wrapper-SDK-Forwarder" None false false)]
  ∧ requests
      (get_or_create_forwarder directory 3 None
         (get_or_create_forwarder directory 3 None empty_directory).2).2
    = [GET directory_url [("pageSize", JNum 1000)];
       POST directory_url (create_payload "Wrapper-SDK-Forwarder" None false false);
       GET (directory_url +:+ "/f") []]
  ∧ (get_or_create_forwarder directory 3 None
       (get_or_create_forwarder directory 3 None empty_directory).2).1
    = Ok (fwd "projects/p/locations/us/instances/c/forwarders/f"
            "Wrapper-SDK-Forwarder").
Proof. split_and!; by vm_compute. Qed.

Lemma get_or_create_forwarder_cache_witness :
  cache_ok in_directory
    (get_or_create_forwarder directory 3 None empty_directory).2
  ∧ cache_ok in_directory
      (get_or_create_forwarder directory 3 None
         (get_or_create_forwarder directory 3 None empty_directory).2).2.
Proof.
  assert (H1 : cache_ok in_directory
                 (get_or_create_forwarder directory 3 None empty_directory).2).
  { refine (proj1 (get_or_create_forwarder_cache directory in_directory _ _
                     directory_honest 3 None empty_directory eq_refl eq_refl _)).
    intros id Hid. discriminate Hid. }
  split; [exact H1|].
  refine (proj1 (get_or_create_forwarder_cache directory in_directory _ _
                   directory_honest 3 None
                   (get_or_create_forwarder directory 3 None empty_directory).2
                   _ _ H1)); reflexivity.
Defined.


(** ** The requests of a listing *)

Lemma list_forwarders_request_chain_witness :
  requests (list_forwarders scripted 3 50 JNull
              (world_of test_client three_pages [])).2
  = [GET (forwarders_url test_client) [("pageSize", JNum 50)];
     GET (forwarders_url test_client)
       [("pageSize", JNum 50); ("pageToken", JStr "t1")];
     GET (forwarders_url test_client)
       [("pageSize", JNum 50); ("pageToken", JStr "t2")]]
  ∧ session (list_forwarders scripted 3 50 JNull
               (world_of test_client three_pages [])).2 = [].
Proof.
  assert (Hchain : serves_tokens scripted test_client 50 three_pages JNull
                     [JStr "t1"; JStr "t2"] []).
  { eapply tokens_more; [reflexivity..|].
    eapply tokens_more; [reflexivity..|].
    eapply tokens_last; reflexivity. }
  pose proof (list_forwarders_request_chain scripted 3 50 JNull
                [JStr "t1"; JStr "t2"] [] (world_of test_client three_pages [])
                Hchain ltac:(simpl; lia)) as (Hreq & _ & Hsess).
  split; [exact Hreq|exact Hsess].
Defined.

(** A first page with a token and no forwarders, then a page that holds
    one. *)
Definition token_only_page : list response :=
  [ok_json (JObj [("nextPageToken", JStr "t1")]);
   ok_json (JObj [("forwarders", JArr [fwd_b])])].

Lemma list_forwarders_missing_key_witness :
  (list_forwarders scripted 3 50 JNull (world_of test_client token_only_page [])).1
  = Raise (KeyError "forwarders").
Proof.
  refine (list_forwarders_missing_key scripted 3 50 JNull
            (ok_json (JObj [("nextPageToken", JStr "t1")]))
            [ok_json (JObj [("forwarders", JArr [fwd_b])])] []
            [("nextPageToken", JStr "t1")] (JStr "t1") [[fwd_b]]
            (world_of test_client token_only_page [])
            eq_refl eq_refl eq_refl eq_refl eq_refl eq_refl _ _ _).
  - eapply serves_last; reflexivity.
  - discriminate.
  - simpl. lia.
Defined.

(** ** Finding and resolving a forwarder *)

Lemma find_forwarder_first_match_witness :
  _find_forwarder_by_display_name scripted 3 "B"
    (world_of test_client three_pages [])
  = (Ok (Some fwd_b),
     (list_forwarders scripted 3 1000 JNull
        (world_of test_client three_pages [])).2).
Proof.
  apply (proj1 (proj2 (find_forwarder_first_match scripted 3 "B"
                         [("forwarders", JArr [fwd_a; fwd_b; fwd_c])]
                         (world_of test_client three_pages [])
                         (list_forwarders scripted 3 1000 JNull
                            (world_of test_client three_pages [])).2
                         eq_refl)
                  [fwd_a; fwd_b; fwd_c] eq_refl)).
  exists [fwd_a], [fwd_c]. split_and!; [reflexivity|reflexivity|].
  constructor; [|constructor]. exists (JStr "A"). split; [reflexivity|discriminate].
Defined.

Definition permission_denied : response :=
  {| status_code := 403; text := "Permission denied"; json_body := None |}.

Lemma find_or_create_listing_failure_witness :
  (find_or_create scripted 3 "Wrapper-SDK-Forwarder" true
     (world_of test_client [permission_denied] [])).1
  = Raise (APIError "Insufficient permissions to manage forwarders: Failed to list forwarders while searching for 'Wrapper-SDK-Forwarder': Failed to list forwarders: Permission denied")
  ∧ requests (find_or_create scripted 3 "Wrapper-SDK-Forwarder" true
                (world_of test_client [permission_denied] [])).2
    = [GET (forwarders_url test_client) [("pageSize", JNum 1000)]].
Proof.
  pose proof (find_or_create_listing_failure scripted 3 "Wrapper-SDK-Forwarder"
                true "Failed to list forwarders: Permission denied"
                (world_of test_client [permission_denied] []) eq_refl)
    as (_ & Hrun & _).
  rewrite Hrun. split; reflexivity.
Defined.

Definition default_forwarder : json :=
  fwd "projects/p/locations/us/instances/c/forwarders/f" "Wrapper-SDK-Forwarder".

Lemma get_or_create_forwarder_warm_witness :
  get_or_create_forwarder scripted 3 None
    (world_of (set_cached_id test_client (Some "f")) [ok_json default_forwarder] [])
  = (Ok default_forwarder,
     {| client := set_cached_id test_client (Some "f"); session := [];
        requests := [GET (forwarder_url test_client "f") []]; heap := [];
        clock_reads := 0; uuid_draws := 0 |}).
Proof.
  exact (get_or_create_forwarder_warm scripted 3 None "f"
           (ok_json default_forwarder) [] default_forwarder
           (world_of (set_cached_id test_client (Some "f"))
              [ok_json default_forwarder] [])
           eq_refl eq_refl eq_refl eq_refl eq_refl eq_refl).
Defined.

Lemma get_or_create_forwarder_cold_witness :
  _cached_default_forwarder_id
    (client (get_or_create_forwarder scripted 3 None
               (world_of test_client
                  [ok_json (JObj []); ok_json default_forwarder] [])).2)
  = Some "f"
  ∧ (get_or_create_forwarder scripted 3 None
       (world_of test_client
          [ok_json (JObj []); ok_json default_forwarder] [])).1
    = Ok default_forwarder.
Proof.
  pose proof (get_or_create_forwarder_cold scripted 3 None
                (ok_json default_forwarder) [] default_forwarder
                "projects/p/locations/us/instances/c/forwarders/f" "f"
                (world_of test_client
                   [ok_json (JObj []); ok_json default_forwarder] [])
                (_find_forwarder_by_display_name scripted 3
                   "Wrapper-SDK-Forwarder"
                   (world_of test_client
                      [ok_json (JObj []); ok_json default_forwarder] [])).2
                eq_refl eq_refl eq_refl eq_refl eq_refl eq_refl eq_refl eq_refl)
    as Hrun.
  rewrite Hrun. split; reflexivity.
Defined.

(** ** Failures of log ingestion before the request *)

Lemma ingest_log_mixed_awareness_witness :
  ingest_log scripted known_log_type clock_at_noon 3 "OKTA" (Single "line")
    (Some noon_in_kolkata) None None None (Some "a") false
    (world_of test_client [accepted] [])
  = (Raise TypeError,
     {| client := test_client; session := [accepted]; requests := [];
        heap := []; clock_reads := 1; uuid_draws := 0 |}).
Proof.
  exact (proj1 (ingest_log_mixed_awareness scripted known_log_type clock_at_noon
                  3 "OKTA" (Single "line") noon_in_kolkata 330 None None
                  (Some "a") false (world_of test_client [accepted] [])
                  eq_refl eq_refl)).
Defined.

Definition listing_then_accept : list response :=
  [ok_json (JObj [("forwarders", JArr [default_forwarder])]); accepted].

Lemma ingest_log_default_forwarder_witness :
  (ingest_log scripted known_log_type clock_at_noon 3 "OKTA" (Single "line")
     None None None None None false
     (world_of test_client listing_then_accept [])).1
  = Ok (JObj [("operation", JStr "op-1")])
  ∧ requests
      (ingest_log scripted known_log_type clock_at_noon 3 "OKTA" (Single "line")
         None None None None None false
         (world_of test_client listing_then_accept [])).2
    = [GET (forwarders_url test_client) [("pageSize", JNum 1000)];
       import_request test_client "OKTA" (Single "line") (naive noon)
         (naive noon) None None "f"].
Proof.
  pose proof (ingest_log_default_forwarder scripted known_log_type clock_at_noon
                3 "OKTA" (Single "line") None None None None false
                default_forwarder
                "projects/p/locations/us/instances/c/forwarders/f" "f"
                (world_of test_client listing_then_accept [])
                (get_or_create_forwarder scripted 3 None
                   (ticked (world_of test_client listing_then_accept []))).2
                eq_refl eq_refl eq_refl eq_refl eq_refl) as Hrun.
  cbv zeta in Hrun. rewrite Hrun. split; reflexivity.
Defined.

(** ** UDM ingestion: one event, the response, the back-fill *)

Lemma ingest_udm_single_event_witness :
  ingest_udm scripted clock_at_noon 330 fixed_uuid 5 (PRef 0) true
    (world_of test_client [accepted] stamped_event)
  = ingest_udm scripted clock_at_noon 330 fixed_uuid 5 (PRef 2) true
      (world_of test_client [accepted] (stamped_event ++ [HList [PRef 0]])).
Proof.
  exact (proj1 (ingest_udm_single_event scripted clock_at_noon 330 fixed_uuid 5
                  0 [("metadata", PRef 1)] true
                  (world_of test_client [accepted] stamped_event) eq_refl)).
Defined.

Definition accepted_as_text : response :=
  {| status_code := 202; text := "accepted"; json_body := None |}.

Lemma ingest_udm_response_witness :
  (ingest_udm scripted clock_at_noon 330 fixed_uuid 5 (PRef 0) true
     (world_of test_client [accepted_as_text] stamped_event)).1
  = Ok (JObj [("raw_response", JStr "accepted")]).
Proof.
  refine (ingest_udm_response scripted clock_at_noon 330 fixed_uuid 5 (PRef 0)
            true
            (import_events_of
               [JObj [("metadata",
                       JObj [("event_timestamp", JStr "2024-06-30T23:59:59Z");
                             ("id", JStr "e-1")])]])
            (world_of test_client [accepted_as_text] stamped_event) _ _).
  - by vm_compute.
  - by vm_compute.
Defined.

(** A body that is one no-break space, U+00A0, is blank. *)
Definition no_break_space : string :=
  String (ascii_of_nat 194) (String (ascii_of_nat 160) "").

Example blank_unicode_body :
  PyStr.strip_nonempty no_break_space = false
  ∧ (ingest_udm scripted clock_at_noon 330 fixed_uuid 5 (PRef 0) true
       (world_of test_client
          [{| status_code := 200; text := no_break_space; json_body := None |}]
          stamped_event)).1
    = Ok (JObj []).
Proof. split; by vm_compute. Qed.

Lemma process_event_backfill_witness :
  (process_event clock_at_noon 330 fixed_uuid true (PRef 0)
     (world_of test_client [accepted] one_event)).1 = Ok tt
  ∧ clock_reads (process_event clock_at_noon 330 fixed_uuid true (PRef 0)
                   (world_of test_client [accepted] one_event)).2 ≠ 0%nat.
Proof.
  destruct (process_event_backfill clock_at_noon 330 fixed_uuid true 0 1
              [("metadata", PRef 1); ("principal", PRef 2)]
              [("event_type", PStr "NETWORK_CONNECTION")]
              (world_of test_client [accepted] one_event)
              eq_refl eq_refl eq_refl)
    as (md' & Hok & _ & _ & _ & _ & _ & Hclock & _).
  split; [exact Hok|].
  intros Hzero. apply Hclock in Hzero as [ts Hts]. discriminate Hts.
Defined.


Lemma get_or_create_forwarder_found_witness :
  _cached_default_forwarder_id
    (client (get_or_create_forwarder scripted 3 None
               (world_of test_client listing_then_accept [])).2)
  = Some "f"
  ∧ requests (get_or_create_forwarder scripted 3 None
                (world_of test_client listing_then_accept [])).2
    = [GET (forwarders_url test_client) [("pageSize", JNum 1000)]].
Proof.
  pose proof (get_or_create_forwarder_found scripted 3 None default_forwarder
                "projects/p/locations/us/instances/c/forwarders/f" "f"
                (world_of test_client listing_then_accept [])
                (_find_forwarder_by_display_name scripted 3
                   "Wrapper-SDK-Forwarder"
                   (world_of test_client listing_then_accept [])).2
                (λ _, eq_refl) eq_refl eq_refl eq_refl) as [Hrun _].
  cbv zeta in Hrun. rewrite Hrun. split; reflexivity.
Defined.


(** The same complete event twice in the caller's list. *)
Definition shared_stamped_event : store :=
  [HList [PRef 1; PRef 1];
   HDict [("metadata", PRef 2)];
   HDict [("event_timestamp", PStr "2024-06-30T23:59:59Z"); ("id", PStr "e-1")]].

Definition stamped_json : json :=
  JObj [("metadata",
         JObj [("event_timestamp", JStr "2024-06-30T23:59:59Z");
               ("id", JStr "e-1")])].

Lemma ingest_udm_submits_complete_events_witness :
  requests (ingest_udm scripted clock_at_noon 330 fixed_uuid 5 (PRef 0) true
              (world_of test_client [accepted] shared_stamped_event)).2
  = [import_events_of [stamped_json; stamped_json]]
  ∧ uuid_draws (ingest_udm scripted clock_at_noon 330 fixed_uuid 5 (PRef 0) true
                  (world_of test_client [accepted] shared_stamped_event)).2
    = 0%nat.
Proof.
  assert (Hwf : wf_store shared_stamped_event).
  { intros l kvs Hl. destruct l as [|[|[|l]]]; simpl in Hl; simplify_eq; simpl.
    - apply NoDup_singleton.
    - apply NoDup_cons. split; [|apply NoDup_singleton].
      intros Hin. apply list_elem_of_singleton in Hin. discriminate Hin. }
  assert (Hall : Forall (complete_event true) [stamped_json; stamped_json]).
  { repeat constructor;
      (eexists _, _; split_and!; [reflexivity|reflexivity|by eexists|];
       intros _; by eexists). }
  pose proof (ingest_udm_submits_complete_events scripted clock_at_noon 330
                fixed_uuid 5 2 0 [PRef 1; PRef 1] [stamped_json; stamped_json]
                true (world_of test_client [accepted] shared_stamped_event)
                Hwf eq_refl ltac:(discriminate) eq_refl Hall ltac:(lia))
    as (Hreq & _ & _ & Huuid).
  split; [exact Hreq|exact Huuid].
Defined.

End Scenario.
